(** * dsutils binning utilities: cutpoints, number formatting, bin assembly

    A shallow embedding of [dsutils/utils/histograms.py] and
    [dsutils/utils/binners.py] together with the properties of their
    specification.

    Numbers.  The Python code computes on IEEE binary64 values.  They are
    modelled here by exact rationals [Q]: every arithmetic operation is the
    exact one, and the composite [int(floor(log(|x|, b)))] is the exact
    integer logarithm.  Equality of numbers is [Qeq].  Missing values (NaN)
    are modelled by [None] in a column of [option Q].

    Failures.  A Python exception is a value of type [exn]; a computation
    that may raise has type [result A]. *)

From Stdlib Require Import ZArith QArith Qpower Qround Qabs Qminmax.
From Stdlib Require Import List String Ascii Bool Lia DecimalString.
From Stdlib Require Import Sorted SetoidList Permutation Lqa.
Import ListNotations.

(* ================================================================== *)
(** * Python runtime: exceptions and results *)
(* ================================================================== *)

Module Py.

Inductive exn : Type :=
| ValueError (msg : string)
| NameError (name : string)
| UnboundLocalError (name : string)
| KeyError (key : string)
| IndexError (msg : string)
| TypeError (msg : string).

Definition result (A : Type) : Type := (exn + A)%type.

Definition ret {A} (a : A) : result A := inr a.
Definition raise {A} (e : exn) : result A := inl e.

Definition bind {A B} (m : result A) (k : A -> result B) : result B :=
  match m with
  | inl e => inl e
  | inr a => k a
  end.

Definition returns {A} (m : result A) : Prop := exists a, m = inr a.
Definition raises {A} (m : result A) (e : exn) : Prop := m = inl e.

Fixpoint mapM {A B} (f : A -> result B) (l : list A) : result (list B) :=
  match l with
  | [] => ret []
  | a :: l' =>
      bind (f a) (fun b => bind (mapM f l') (fun bs => ret (b :: bs)))
  end.

End Py.

Import Py.

Declare Scope py_scope.
Delimit Scope py_scope with py.
Notation "x <- m ;; k" := (bind m (fun x => k))
  (at level 61, m at next level, right associativity) : py_scope.
Notation "' pat <- m ;; k" := (bind m (fun x => match x with pat => k end))
  (at level 61, pat pattern, m at next level, right associativity) : py_scope.

Open Scope string_scope.
Open Scope Q_scope.
Open Scope py_scope.

(* ================================================================== *)
(** * Numbers: comparisons, integer logarithm, rounding *)
(* ================================================================== *)

Module Num.

Definition Qltb (x y : Q) : bool :=
  match x ?= y with Lt => true | _ => false end.

Definition Qleb (x y : Q) : bool :=
  match x ?= y with Gt => false | _ => true end.

Definition Qeqb (x y : Q) : bool :=
  match x ?= y with Eq => true | _ => false end.

(** [10 ** e] for an integer exponent of either sign. *)
Definition pow10 (e : Z) : Q := 10 ^ e.

(** Integer logarithm of an integer [n >= 1]: the number of times [n] can
    be divided by [b] before it drops below [b]. *)
Fixpoint ilog_up (fuel : nat) (b n : Z) : Z :=
  match fuel with
  | O => 0%Z
  | S f => if (n <? b)%Z then 0%Z else (1 + ilog_up f b (n / b))%Z
  end.

(** For [0 < n < d]: the least [k] with [d <= n * b^k]. *)
Fixpoint ilog_down (fuel : nat) (b n d : Z) : Z :=
  match fuel with
  | O => 0%Z
  | S f => if (d <=? n)%Z then 0%Z else (1 + ilog_down f b (n * b) d)%Z
  end.

(** [floor_log b x] is [int(floor(math.log(x, b)))] for [x > 0], computed
    exactly: the [m] with [b^m <= x < b^(m+1)]. *)
Definition floor_log (b : Z) (x : Q) : Z :=
  let n := Qnum x in
  let d := Zpos (Qden x) in
  if (d <=? n)%Z
  then ilog_up (S (Z.to_nat (Z.log2 (n / d)))) b (n / d)
  else (- ilog_down (S (Z.to_nat (Z.log2_up d))) b n d)%Z.

(** Round to the nearest integer, ties to the even one ([np.rint], and the
    rounding of [%f]). *)
Definition round_half_even (x : Q) : Z :=
  let f := Qfloor x in
  match ((x - inject_Z f) ?= (1 # 2))%Q with
  | Lt => f
  | Gt => (f + 1)%Z
  | Eq => if Z.even f then f else (f + 1)%Z
  end.

(** [np.sign] *)
Definition sign (x : Q) : Q :=
  match x ?= 0 with Lt => -(1) | Eq => 0 | Gt => 1 end.

End Num.

Import Num.

(* ================================================================== *)
(** * Strings: [str(int)], [zfill], ['%.Nf' % x] *)
(* ================================================================== *)

Module Str.

(** [str(z)] for a Python int. *)
Definition str_of_Z (z : Z) : string := NilZero.string_of_int (Z.to_int z).

Definition digit_char (d : Z) : ascii := ascii_of_nat (48 + Z.to_nat d).

Definition is_digit (c : ascii) : bool :=
  let n := nat_of_ascii c in (48 <=? n)%nat && (n <=? 57)%nat.

(** The [n] low decimal digits of [k], most significant first. *)
Fixpoint fixed_digits (n : nat) (k : Z) : string :=
  match n with
  | O => EmptyString
  | S n' => fixed_digits n' (k / 10) ++ String (digit_char (k mod 10)) EmptyString
  end.

Fixpoint repeat_char (c : ascii) (n : nat) : string :=
  match n with
  | O => EmptyString
  | S n' => String c (repeat_char c n')
  end.

(** [s.zfill(width)] for a string of digits (no sign). *)
Definition zfill (width : nat) (s : string) : string :=
  repeat_char "0"%char (width - String.length s) ++ s.

(** [('%.' + str(prec) + 'f') % x].  A negative [prec] gives the format
    ['%.-1f'], which Python rejects. *)
Definition percent_f (prec : Z) (x : Q) : result string :=
  if (prec <? 0)%Z
  then raise (ValueError "unsupported format character '-' (0x2d) at index 2")
  else
    let m := round_half_even (Qabs x * pow10 prec) in
    let ip := (m / 10 ^ prec)%Z in
    let fp := (m mod 10 ^ prec)%Z in
    ret ((if Qltb x 0 then "-" else EmptyString)
           ++ str_of_Z ip
           ++ (if (prec =? 0)%Z then EmptyString
               else "." ++ fixed_digits (Z.to_nat prec) fp)).

(** Number of digits that follow the first decimal point of [s]. *)
Fixpoint count_digits (s : string) : nat :=
  match s with
  | EmptyString => O
  | String c r => if is_digit c then S (count_digits r) else O
  end.

Fixpoint decimal_places (s : string) : nat :=
  match s with
  | EmptyString => O
  | String c r => if Ascii.eqb c "."%char then count_digits r else decimal_places r
  end.

Fixpoint all_chars (p : ascii -> bool) (s : string) : bool :=
  match s with
  | EmptyString => true
  | String c r => p c && all_chars p r
  end.

Definition not_dot (c : ascii) : bool := negb (Ascii.eqb c "."%char).

Definition digit_or_minus (c : ascii) : bool :=
  is_digit c || Ascii.eqb c "-"%char.

(** A suffix that does not extend a run of digits. *)
Definition stops_digits (s : string) : bool :=
  match s with
  | EmptyString => true
  | String c _ => negb (is_digit c)
  end.

End Str.

Import Str.

(* ================================================================== *)
(** * The number formatter *)
(* ================================================================== *)

Module Formatter.

Definition units : list string := [EmptyString; "K"; "M"; "G"; "T"; "P"].

(** Decimal places chosen for a mantissa [final_num]. *)
Definition mantissa_places (sigFig : Z) (final_num : Q) : Z :=
  if Qltb (Qabs final_num) 10 then (sigFig - 1)%Z
  else if Qltb (Qabs final_num) 100 then (sigFig - 2)%Z
  else (sigFig - 3)%Z.

(** The mantissa of a number of absolute value at least 1: the number
    divided by 1000 to the power of its base-1000 magnitude. *)
Definition mantissa (number : Q) : Q :=
  number / 1000 ^ floor_log 1000 (Qabs number).

(** histograms.py, [humanReadableNum]; binners.py, [human_readable_num]
    (the two bodies are the same text). *)
Definition humanReadableNum (number : Q) (sigFig : Z) : result string :=
  if Qeqb number 0 then ret "0"
  else if Qltb (Qabs number) 1 then
    let magnitude := floor_log 10 (Qabs number) in
    if (magnitude >=? -2)%Z then
      percent_f (sigFig - 1 - magnitude) number
    else
      let final_num := number / pow10 magnitude in
      z <- percent_f (sigFig - 1) final_num ;;
      ret (z ++ "E" ++ str_of_Z magnitude)
  else
    let k := 1000 in
    let magnitude := floor_log 1000 (Qabs number) in
    let final_num := number / k ^ magnitude in
    unit <- (if (magnitude >? 5)%Z
             then ret ("E" ++ str_of_Z (3 * magnitude))
             else match nth_error units (Z.to_nat magnitude) with
                  | Some u => ret u
                  | None => raise (IndexError "list index out of range")
                  end) ;;
    z <- percent_f (mantissa_places sigFig final_num) final_num ;;
    ret (z ++ unit).

End Formatter.

Import Formatter.

(* ================================================================== *)
(** * numpy primitives on one-dimensional arrays *)
(* ================================================================== *)

Module Np.

Definition qmin (a b : Q) : Q := if Qleb a b then a else b.
Definition qmax (a b : Q) : Q := if Qleb a b then b else a.

(** [np.min] / [np.nanmin] on an array without NaN. *)
Definition min (x : list Q) : result Q :=
  match x with
  | [] => raise (ValueError "zero-size array to reduction operation minimum which has no identity")
  | a :: l => ret (fold_left qmin l a)
  end.

(** [np.max] / [np.nanmax] on an array without NaN. *)
Definition max (x : list Q) : result Q :=
  match x with
  | [] => raise (ValueError "zero-size array to reduction operation maximum which has no identity")
  | a :: l => ret (fold_left qmax l a)
  end.

Definition floor (x : Q) : Q := inject_Z (Qfloor x).
Definition ceil (x : Q) : Q := inject_Z (Qceiling x).

(** [np.round(x, decimals)] *)
Definition round (x : Q) (decimals : Z) : Q :=
  inject_Z (round_half_even (x * pow10 decimals)) / pow10 decimals.

(** Insertion into an increasing list, dropping a value already there. *)
Fixpoint insert_uniq (a : Q) (l : list Q) : list Q :=
  match l with
  | [] => [a]
  | b :: l' =>
      match a ?= b with
      | Lt => a :: l
      | Eq => l
      | Gt => b :: insert_uniq a l'
      end
  end.

(** [np.unique]: the sorted distinct values. *)
Definition unique (l : list Q) : list Q := fold_right insert_uniq [] l.

(** Insertion keeping duplicates. *)
Fixpoint insert_sorted (a : Q) (l : list Q) : list Q :=
  match l with
  | [] => [a]
  | b :: l' => if Qleb a b then a :: l else b :: insert_sorted a l'
  end.

(** [np.sort] *)
Definition sort (l : list Q) : list Q := fold_right insert_sorted [] l.

(** [np.linspace(start, stop, num)] *)
Definition linspace (start stop : Q) (num : Z) : result (list Q) :=
  if (num <? 0)%Z then
    raise (ValueError "Number of samples must be non-negative.")
  else if (num =? 0)%Z then ret []
  else if (num =? 1)%Z then ret [start]
  else
    let step := (stop - start) / inject_Z (num - 1) in
    ret (map (fun i => start + inject_Z (Z.of_nat i) * step)
             (seq 0 (Z.to_nat num))).

(** One quantile of an already sorted, non-empty array, by linear
    interpolation between the two neighbouring order statistics. *)
Definition quantile_sorted (s : list Q) (q : Q) : Q :=
  let n := Z.of_nat (List.length s) in
  let h := q * inject_Z (n - 1) in
  let lo := Qfloor h in
  let hi := Z.min (lo + 1) (n - 1) in
  let gamma := h - inject_Z lo in
  let a := nth (Z.to_nat lo) s 0 in
  let b := nth (Z.to_nat hi) s 0 in
  a + gamma * (b - a).

Definition quantile_is_valid (q : Q) : bool := Qleb 0 q && Qleb q 1.

(** [np.quantile(x, qs)] *)
Definition quantile (x : list Q) (qs : list Q) : result (list Q) :=
  if negb (forallb quantile_is_valid qs) then
    raise (ValueError "Quantiles must be in the range [0, 1]")
  else
    match x with
    | [] => raise (IndexError "index -1 is out of bounds for axis 0 with size 0")
    | _ => ret (map (quantile_sorted (sort x)) qs)
    end.

End Np.

(* ================================================================== *)
(** * Arguments of the cutpoint generators *)
(* ================================================================== *)

(** A Python number as the [isinstance(_, float)] test sees it. *)
Inductive scalar : Type :=
| PyInt (n : Z)
| PyFloat (q : Q).

(** The [cuts] argument: a strategy name, or the cut points themselves. *)
Inductive cut_spec : Type :=
| CutName (name : string)
| CutPoints (c : list Q).

Definition range_includes_zero : string :=
  "Variable range includes zero when using 'log' - consider using 'logp1' instead".

(** [int(np.floor(log_spcl(x)))], with [log_spcl(0) = 0]. *)
Definition order_of_mag (x : Q) : Z :=
  if Qeqb x 0 then 0%Z else floor_log 10 (Qabs x).

(** The closing lines of both generators: each point is scaled by its own
    order of magnitude, rounded to [sig_fig - 1] decimals and scaled back;
    [np.unique] sorts and removes what the rounding made equal. *)
Definition round_sig (sig_fig : Z) (c : Q) : Q :=
  let o := order_of_mag c in
  Np.round (c / pow10 o) (sig_fig - 1) * pow10 o.

Definition round_cutpoints (sig_fig : Z) (lb : Q) (c : list Q) (ub : Q) : list Q :=
  let c := Np.unique (lb :: c ++ [ub])%list in
  Np.unique (map (round_sig sig_fig) c).

(** The sample floor, rounded down at [sig_fig] significant figures. *)
Definition lower_bound (sig_fig : Z) (lb : Q) : Q :=
  let lb_pwr := (sig_fig - 1 - order_of_mag lb)%Z in
  Np.floor (lb * pow10 lb_pwr) / pow10 lb_pwr.

(** The sample ceiling, rounded up at [sig_fig] significant figures. *)
Definition upper_bound (sig_fig : Z) (ub : Q) : Q :=
  let ub_pwr := (sig_fig - 1 - order_of_mag ub)%Z in
  Np.ceil (ub * pow10 ub_pwr) / pow10 ub_pwr.

(** The endpoints between which the interior points are laid out. *)
Definition endpoints (x : list Q) (qntl_cutoff : option (list scalar))
    (lb ub : Q) : result (Q * Q) :=
  match qntl_cutoff with
  | Some [PyFloat q0; PyFloat q1] =>
      ep <- Np.quantile x [q0; q1] ;;
      ret (nth 0 ep 0, nth 1 ep 0)
  | _ => ret (lb, ub)
  end.

(* ================================================================== *)
(** * Tables, pandas primitives, name lookup *)
(* ================================================================== *)

(** A categorical array: one optional label per row, and the levels. *)
Record categorical : Type := {
  cat_values : list (option string);
  cat_categories : list string
}.

Inductive column : Type :=
| NumCol (values : list (option Q))
| CatCol (values : categorical).

Definition DataFrame : Type := list (string * column).

Module Pd.

Fixpoint lookup (df : DataFrame) (x : string) : option column :=
  match df with
  | [] => None
  | (name, c) :: df' => if String.eqb name x then Some c else lookup df' x
  end.

(** [df.loc[:, x].values] of a numeric column. *)
Definition loc (df : DataFrame) (x : string) : result (list (option Q)) :=
  match lookup df x with
  | None => raise (KeyError x)
  | Some (NumCol v) => ret v
  | Some (CatCol _) => raise (TypeError "ufunc 'isnan' not supported for the input types")
  end.

(** [df.assign] with one keyword, the new column's name. *)
Fixpoint assign (df : DataFrame) (new_col : string) (c : column) : DataFrame :=
  match df with
  | [] => [(new_col, c)]
  | (name, c0) :: df' =>
      if String.eqb name new_col then (name, c) :: df'
      else (name, c0) :: assign df' new_col c
  end.

(** The values that are not NaN. *)
Fixpoint non_nan (x : list (option Q)) : list Q :=
  match x with
  | [] => []
  | Some v :: x' => v :: non_nan x'
  | None :: x' => non_nan x'
  end.

(** [s.isin(pm)] on one entry; NaN is in no array of numbers. *)
Definition isin (pm : list Q) (v : option Q) : bool :=
  match v with
  | Some q => existsb (Qeqb q) pm
  | None => false
  end.

Definition has_dup (l : list string) : bool :=
  negb (Nat.eqb (List.length (nodup string_dec l)) (List.length l)).

(** [pd.Categorical(values, categories=categories)]: a value that is not
    a category becomes NaN. *)
Definition Categorical (values : list (option string)) (categories : list string)
  : result categorical :=
  if has_dup categories then
    raise (ValueError "Categorical categories must be unique")
  else
    ret {| cat_values :=
             map (fun v => match v with
                           | Some l => if existsb (String.eqb l) categories
                                       then Some l else None
                           | None => None
                           end) values;
           cat_categories := categories |}.

(** [pd.cut(x, bins, labels=labels, include_lowest=True)] as the pandas
    documentation has it: intervals closed on the right, the first one
    closed on both sides; a value in no interval is NaN. *)
Fixpoint bucket (v : Q) (bins : list Q) (labels : list string) : option string :=
  match bins, labels with
  | lo :: ((hi :: _) as bins'), l :: labels' =>
      if Qltb lo v && Qleb v hi then Some l else bucket v bins' labels'
  | _, _ => None
  end.

Fixpoint increasing (bins : list Q) : bool :=
  match bins with
  | a :: ((b :: _) as bins') => Qltb a b && increasing bins'
  | _ => true
  end.

Definition cut_right_closed (x : list (option Q)) (bins : list Q)
    (labels : list string) : result (list (option string)) :=
  if negb (increasing bins) then
    raise (ValueError "bins must increase monotonically.")
  else if negb (Nat.eqb (List.length labels) (List.length bins - 1)) then
    raise (ValueError "Bin labels must be one fewer than the number of bin edges")
  else
    ret (map (fun v =>
                match v with
                | None => None
                | Some q =>
                    match bins, labels with
                    | b0 :: _, l0 :: _ =>
                        if Qeqb q b0 then Some l0 else bucket q bins labels
                    | _, _ => None
                    end
                end) x).

End Pd.

(** The bucketing primitive [pd.cut(values, bins, labels=..., include_lowest=True)]
    is an external collaborator; the binning functions are stated over any
    implementation of it. *)
Class Pandas : Type := {
  pd_cut : list (option Q) -> list Q -> list string -> result (list (option string))
}.

Definition pandas_documented : Pandas := {| pd_cut := Pd.cut_right_closed |}.

(** Reading a name in a function body: the name must be bound in the
    function's locals or in the module's globals ([fill_na] is no builtin). *)
Definition load_name (scope : list string) (name : string) : result unit :=
  if existsb (String.eqb name) scope then ret tt else raise (NameError name).

(** Ordinal prefix of a label: [str(n).zfill(2)]. *)
Definition ordinal (n : nat) : string := zfill 2 (str_of_Z (Z.of_nat n)).

Definition range_label (n : nat) (lower upper : string) : string :=
  ordinal n ++ ": " ++ lower ++ " - " ++ upper.

Definition point_label (n : nat) (value : string) : string :=
  ordinal n ++ ": " ++ value.

(* ================================================================== *)
(** * Cut strategies *)
(* ================================================================== *)

(** [math.log(_, 10)] and [10 ** _] on non-integers have no rational
    value; the two functions are left open. *)
Class MathLib : Type := {
  log10 : Q -> Q;
  exp10 : Q -> Q
}.

Section Strategies.

Context {M : MathLib}.

(** [math.log(v, 10)] *)
Definition math_log10 (v : Q) : result Q :=
  if Qleb v 0 then raise (ValueError "math domain error") else ret (log10 v).

Definition log_spaced (shift : Q) (ep0 ep1 : Q) (ncuts : Z) : result (list Q) :=
  a <- math_log10 (Qabs ep0 + shift) ;;
  b <- math_log10 (Qabs ep1 + shift) ;;
  l <- Np.linspace (sign ep0 * a) (sign ep1 * b) ncuts ;;
  ret (map exp10 l).

(** The branches on [cuts] that the two generators share. *)
Definition interior_points (log_guard : Q -> Q -> bool) (x : list Q)
    (ep : Q * Q) (cuts : cut_spec) (ncuts : Z) : result (list Q) :=
  match cuts with
  | CutName name =>
      if String.eqb name "linear" then
        Np.linspace (fst ep) (snd ep) ncuts
      else if String.eqb name "log" then
        if log_guard (fst ep) (snd ep) then
          raise (ValueError range_includes_zero)
        else log_spaced 0 (fst ep) (snd ep) ncuts
      else if String.eqb name "logp1" then
        c <- log_spaced 1 (fst ep) (snd ep) ncuts ;;
        ret (Np.sort (Np.unique (0 :: c)))
      else if String.eqb name "quantile" then
        qs <- Np.linspace 0 1 ncuts ;;
        Np.quantile x qs
      else raise (UnboundLocalError "c")
  | CutPoints c => ret c
  end.

End Strategies.

(* ================================================================== *)
(** * binners.py *)
(* ================================================================== *)

Module Binners.

(** Keyword arguments that [cutter] hands on to [cutpoints]; a field is
    [None] when the keyword is not given. *)
Record kwargs : Type := {
  kw_qntl_cutoff : option (option (list scalar));
  kw_cuts : option cut_spec;
  kw_ncuts : option Z
}.

Definition no_kwargs : kwargs :=
  {| kw_qntl_cutoff := None; kw_cuts := None; kw_ncuts := None |}.

Definition default_qntl_cutoff : option (list scalar) :=
  Some [PyFloat (25 # 1000); PyFloat (975 # 1000)].

Definition _order_of_mag (x : Q) : Z := order_of_mag x.

(** [if ep[0] <= 0: raise ValueError(msg)] *)
Definition log_guard (ep0 ep1 : Q) : bool := Qleb ep0 0.

Definition human_readable_num (number : Q) (sig_fig : Z) : result string :=
  humanReadableNum number sig_fig.

(** [_point_mass]: the values whose share of the non-missing entries is
    above [threshold], ascending. *)
Definition frequency (v : Q) (vals : list Q) : Q :=
  inject_Z (Z.of_nat (List.length (filter (Qeqb v) vals)))
  / inject_Z (Z.of_nat (List.length vals)).

Definition _point_mass (x : list (option Q)) (threshold : Q) : list Q :=
  let vals := Pd.non_nan x in
  Np.unique (filter (fun v => Qltb threshold (frequency v vals)) vals).

(** [min(range(len(l)), key=...)]: the first index with the least key. *)
Fixpoint argmin_from (key : Q -> Q) (l : list Q) (i best : nat) (best_key : Q) : nat :=
  match l with
  | [] => best
  | c :: l' =>
      if Qltb (key c) best_key
      then argmin_from key l' (S i) i (key c)
      else argmin_from key l' (S i) best best_key
  end.

Definition argmin (key : Q -> Q) (l : list Q) : nat :=
  match l with
  | [] => O
  | c :: l' => argmin_from key l' 1 0 (key c)
  end.

(** [cps[1:-1]] *)
Definition interior (cps : list Q) : list Q := removelast (tl cps).

(** [sorted(set(ridx), reverse=True)] *)
Fixpoint insert_desc (n : nat) (l : list nat) : list nat :=
  match l with
  | [] => [n]
  | m :: l' =>
      match Nat.compare n m with
      | Gt => n :: l
      | Eq => l
      | Lt => m :: insert_desc n l'
      end
  end.

Definition sorted_desc (l : list nat) : list nat := fold_right insert_desc [] l.

(** [del l[index]] *)
Fixpoint del {A} (l : list A) (index : nat) : result (list A) :=
  match l, index with
  | [], _ => raise (IndexError "list assignment index out of range")
  | _ :: l', O => ret l'
  | a :: l', S i => l'' <- del l' i ;; ret (a :: l'')
  end.

(** The loop [for index in ...: del cps[index]; del cps_format[index]]. *)
Fixpoint del_all (ridx : list nat) (cps : list Q) (cps_format : list string)
  : result (list Q * list string) :=
  match ridx with
  | [] => ret (cps, cps_format)
  | index :: ridx' =>
      cps' <- del cps index ;;
      cps_format' <- del cps_format index ;;
      del_all ridx' cps' cps_format'
  end.

(** Order of the tuples [(value, label)]. *)
Definition pair_compare (a b : Q * string) : comparison :=
  match fst a ?= fst b with
  | Eq => String.compare (snd a) (snd b)
  | c => c
  end.

Fixpoint insert_pair (a : Q * string) (l : list (Q * string)) : list (Q * string) :=
  match l with
  | [] => [a]
  | b :: l' =>
      match pair_compare a b with
      | Lt => a :: l
      | Eq => l
      | Gt => b :: insert_pair a l'
      end
  end.

(** [sorted(set(pairs))] *)
Definition sorted_set (pairs : list (Q * string)) : list (Q * string) :=
  fold_right insert_pair [] pairs.

(** The labelling loop over the merged list; [i] is the loop index and
    [cntr] the number of point labels given so far. *)
Fixpoint label_loop (pm : list Q) (i cntr : nat) (c : list (Q * string))
  : list string * list string :=
  match c with
  | [] => ([], [])
  | (v, f) :: rest =>
      let is_pm := existsb (Qeqb v) pm in
      let pm_label := if is_pm then [point_label (i + cntr + 1) f] else [] in
      let cntr := if is_pm then S cntr else cntr in
      let bin_label :=
        match rest with
        | (_, f') :: _ => [range_label (i + cntr + 1) f f']
        | [] => []
        end in
      let '(bin_labels, pm_labels) := label_loop pm (S i) cntr rest in
      ((bin_label ++ bin_labels)%list, (pm_label ++ pm_labels)%list)
  end.

(** The index marked for removal for the point mass [j]:
    [min(range(len(cps_int)), key = lambda i: abs(cps_int[i] - j)) + 1]. *)
Definition nearest_interior (cps : list Q) (j : Q) : nat :=
  let cps_int := interior cps in
  (argmin (fun c => Qabs (c - j)) cps_int + 1)%nat.

(** The indices marked for removal, one per point mass. *)
Definition marked (cps : list Q) (pm : list Q) : list nat :=
  map (nearest_interior cps) pm.

Definition _finalize_bins (cps : list Q) (cps_format : list string)
    (pm : list Q) (pm_format : list string)
  : result (list Q * list string * list string) :=
  '(cps, cps_format) <-
     (if (2 <? List.length cps)%nat
      then del_all (sorted_desc (marked cps pm)) cps cps_format
      else ret (cps, cps_format)) ;;
  let c_final := (cps ++ pm)%list in
  let c_format := (cps_format ++ pm_format)%list in
  let z := sorted_set (combine c_final c_format) in
  match z with
  | [] => raise (ValueError "not enough values to unpack (expected 2, got 0)")
  | _ :: _ =>
      let '(bin_labels, pm_labels) := label_loop pm 0 0 z in
      ret (map fst z, bin_labels, pm_labels)
  end.

(** [df.loc[mask, col] = values]: the rows outside the mask stay NaN. *)
Fixpoint scatter (mask : list bool) (values : list (option string))
  : result (list (option string)) :=
  match mask, values with
  | [], [] => ret []
  | false :: mask', _ => r <- scatter mask' values ;; ret (None :: r)
  | true :: mask', v :: values' => r <- scatter mask' values' ;; ret (v :: r)
  | _, _ => raise (ValueError "Must have equal len keys and value when setting with an iterable")
  end.

(** [for i, v in enumerate(pm): df.loc[df[x] == v, col] = pm_labels[i]] *)
Fixpoint bring_in (col : list (option Q)) (pm : list Q) (pm_labels : list string)
    (i : nat) (binned : list (option string)) : result (list (option string)) :=
  match pm with
  | [] => ret binned
  | v :: pm' =>
      match nth_error pm_labels i with
      | None => raise (IndexError "list index out of range")
      | Some l =>
          bring_in col pm' pm_labels (S i)
            (map (fun '(c, b) => if Pd.isin [v] c then Some l else b)
                 (combine col binned))
      end
  end.

(** [list.sort()] on strings *)
Fixpoint insert_string (a : string) (l : list string) : list string :=
  match l with
  | [] => [a]
  | b :: l' => if String.leb a b then a :: l else b :: insert_string a l'
  end.

Definition sort_strings (l : list string) : list string :=
  fold_right insert_string [] l.

Definition module_globals : list string :=
  ["np"; "math"; "pd"; "os"; "Decimal"; "bin_dates"; "copy"; "cutpoints";
   "human_readable_num"; "cutter"; "binner_df"; "_finalize_bins";
   "_log_spcl"; "_order_of_mag"; "_point_mass"].

Section WithLibraries.

Context {M : MathLib} {P : Pandas}.

Definition cutpoints (x : list Q) (qntl_cutoff : option (list scalar))
    (cuts : cut_spec) (ncuts : Z) (sig_fig : Z) : result (list Q) :=
  lb <- Np.min x ;;
  let lb := lower_bound sig_fig lb in
  ub <- Np.max x ;;
  let ub := upper_bound sig_fig ub in
  ep <- endpoints x qntl_cutoff lb ub ;;
  c <- interior_points log_guard x ep cuts ncuts ;;
  ret (round_cutpoints sig_fig lb c ub).

(** The call [cutpoints(values, ncuts = max_levels, **kwargs)]: [sig_fig]
    keeps its default, and an [ncuts] among the keywords is a duplicate. *)
Definition call_cutpoints (values : list Q) (max_levels : Z) (kw : kwargs)
  : result (list Q) :=
  match kw_ncuts kw with
  | Some _ =>
      raise (TypeError "cutpoints() got multiple values for keyword argument 'ncuts'")
  | None =>
      cutpoints values
        (match kw_qntl_cutoff kw with Some q => q | None => default_qntl_cutoff end)
        (match kw_cuts kw with Some c => c | None => CutName "linear" end)
        max_levels 3
  end.

Definition cutter (df : DataFrame) (x : string) (max_levels : Z)
    (point_mass_threshold : Q) (sig_fig : Z) (kw : kwargs) : result categorical :=
  col <- Pd.loc df x ;;
  let pm := _point_mass col point_mass_threshold in
  '(cps, cps_format, pm_format) <-
     (match pm with
      | [] =>
          cps <- call_cutpoints (Pd.non_nan col) max_levels kw ;;
          cps_format <- mapM (fun i => human_readable_num i sig_fig) cps ;;
          ret (cps, cps_format, [])
      | _ :: _ =>
          let rem := filter (fun v => negb (Pd.isin pm v)) col in
          '(cps, cps_format) <-
             (match Pd.non_nan rem with
              | _ :: _ =>
                  cps <- call_cutpoints (Pd.non_nan rem) max_levels kw ;;
                  cps_format <- mapM (fun i => human_readable_num i sig_fig) cps ;;
                  ret (cps, cps_format)
              | [] => ret ([], [])
              end) ;;
          pm_format <- mapM (fun i => human_readable_num i sig_fig) pm ;;
          ret (cps, cps_format, pm_format)
      end) ;;
  '(c_final, bin_labels, pm_labels) <- _finalize_bins cps cps_format pm pm_format ;;
  let not_pm := map (fun v => negb (Pd.isin pm v)) col in
  binned <- pd_cut (filter (fun v => negb (Pd.isin pm v)) col) c_final bin_labels ;;
  binned <- scatter not_pm binned ;;
  binned <- bring_in col pm pm_labels 0 binned ;;
  let final_labels := sort_strings (bin_labels ++ pm_labels)%list in
  Pd.Categorical binned final_labels.

(** Keywords of [binner_df]: those that [cutter] names itself, and the
    rest, which [cutter] hands on. *)
Record binner_kwargs : Type := {
  bkw_point_mass_threshold : option Q;
  bkw_sig_fig : option Z;
  bkw_rest : kwargs
}.

Definition binner_locals : list string :=
  ["df"; "x"; "new_col"; "fill_nan"; "max_levels"; "kwargs"; "df_"].

Definition binner_df (df : DataFrame) (x new_col : string)
    (fill_nan : option string) (max_levels : Z) (kw : binner_kwargs)
  : result DataFrame :=
  z <- cutter df x max_levels
         (match bkw_point_mass_threshold kw with Some t => t | None => 1 # 10 end)
         (match bkw_sig_fig kw with Some s => s | None => 3%Z end)
         (bkw_rest kw) ;;
  let df_ := Pd.assign df new_col (CatCol z) in
  _ <- load_name (binner_locals ++ module_globals)%list "fill_na" ;;
  (* [df_.replace(...)] returns a new table, which is dropped *)
  ret df_.

End WithLibraries.

End Binners.

(* ================================================================== *)
(** * histograms.py *)
(* ================================================================== *)

Module Histograms.

(** Keyword arguments that [cutter] hands on to [numericVarCutpoints]. *)
Record kwargs : Type := {
  kw_qntlCutoff : option (option (list scalar));
  kw_cuts : option cut_spec;
  kw_ncuts : option Z;
  kw_sigFig : option Z
}.

Definition no_kwargs : kwargs :=
  {| kw_qntlCutoff := None; kw_cuts := None; kw_ncuts := None; kw_sigFig := None |}.

Definition default_qntlCutoff : option (list scalar) :=
  Some [PyFloat (25 # 1000); PyFloat (975 # 1000)].

(** [if ep[0] == 0 or ep[1] == 0: raise ValueError(msg)] *)
Definition log_guard (ep0 ep1 : Q) : bool := Qeqb ep0 0 || Qeqb ep1 0.

(** [[str(i+1).zfill(2) + ': ' + f[i] + ' - ' + f[i+1] for i in range(len(f)-1)]] *)
Fixpoint range_labels (i : nat) (f : list string) : list string :=
  match f with
  | a :: ((b :: _) as f') => range_label (i + 1) a b :: range_labels (S i) f'
  | _ => []
  end.

Definition module_globals : list string :=
  ["np"; "math"; "pd"; "plt"; "os"; "Decimal"; "numericVarCutpoints";
   "humanReadableNum"; "plotBar"; "cutter"; "binner"; "_numericHistogram";
   "_categoricalHistogram"; "numericHistogram"; "categoricalHistogram";
   "categoricalHeatmap"].

Definition binner_locals : list string :=
  ["df"; "x"; "new_col"; "fill_nan"; "max_levels"; "kwargs"; "df_"].

Section WithLibraries.

Context {M : MathLib} {P : Pandas}.

Definition numericVarCutpoints (x : list Q) (qntlCutoff : option (list scalar))
    (cuts : cut_spec) (ncuts : Z) (sigFig : Z) : result (list Q * list string) :=
  lb <- Np.min x ;;
  let lb := lower_bound sigFig lb in
  ub <- Np.max x ;;
  let ub := upper_bound sigFig ub in
  ep <- endpoints x qntlCutoff lb ub ;;
  c <- interior_points log_guard x ep cuts ncuts ;;
  let c_final := round_cutpoints sigFig lb c ub in
  c_format <- mapM (fun i => humanReadableNum i sigFig) c_final ;;
  ret (c_final, c_format).

(** The call [numericVarCutpoints(values, **kwargs)]. *)
Definition call_numericVarCutpoints (values : list Q) (kw : kwargs)
  : result (list Q * list string) :=
  numericVarCutpoints values
    (match kw_qntlCutoff kw with Some q => q | None => default_qntlCutoff end)
    (match kw_cuts kw with Some c => c | None => CutName "linear" end)
    (match kw_ncuts kw with Some n => n | None => 10%Z end)
    (match kw_sigFig kw with Some s => s | None => 3%Z end).

Definition cutter (df : DataFrame) (x : string) (max_levels : Z) (kw : kwargs)
  : result categorical :=
  col <- Pd.loc df x ;;
  f <- call_numericVarCutpoints (Pd.non_nan col) kw ;;
  let labels := range_labels 0 (snd f) in
  z <- pd_cut col (fst f) labels ;;
  ret {| cat_values := z; cat_categories := labels |}.

Definition binner (df : DataFrame) (x new_col : string)
    (fill_nan : option string) (max_levels : Z) (kw : kwargs) : result DataFrame :=
  z <- cutter df x max_levels kw ;;
  let df_ := Pd.assign df new_col (CatCol z) in
  _ <- load_name (binner_locals ++ module_globals)%list "fill_na" ;;
  (* [df_.replace(...)] returns a new table, which is dropped *)
  ret df_.

End WithLibraries.

End Histograms.

(** An instance for evaluation: logarithm and power taken at whole orders
    of magnitude. *)
Definition whole_orders : MathLib := {|
  log10 := fun v => inject_Z (floor_log 10 v);
  exp10 := fun e => pow10 (Qfloor e)
|}.

(* ================================================================== *)
(** * Vocabulary of the statements *)
(* ================================================================== *)

Module Spec.

Definition invalid_quantiles : exn :=
  ValueError "Quantiles must be in the range [0, 1]".

Definition negative_count : exn :=
  ValueError "Number of samples must be non-negative.".

(** The sample of the specification's scenario, as a table. *)
Definition sample_table : DataFrame :=
  [("a", NumCol (map Some [1; 1; 1; 1; 1; 2; 3; 4; 5; 100]))].

Definition sample_kwargs : Binners.binner_kwargs :=
  {| Binners.bkw_point_mass_threshold := Some (3 # 10);
     Binners.bkw_sig_fig := None;
     Binners.bkw_rest := Binners.no_kwargs |}.

(** The entries of [l] whose position, counted from [i], is not in [idx]. *)
Fixpoint drop_from {A} (i : nat) (idx : list nat) (l : list A) : list A :=
  match l with
  | [] => []
  | a :: l' =>
      if existsb (Nat.eqb i) idx then drop_from (S i) idx l'
      else a :: drop_from (S i) idx l'
  end.

Definition drop_indices {A} (idx : list nat) (l : list A) : list A :=
  drop_from 0 idx l.

(** A quantile window that the quantile primitive accepts: not a pair of
    floats (then it is ignored), or two fractions in [0, 1]. *)
Definition window_ok (q : option (list scalar)) : bool :=
  match q with
  | Some [PyFloat q0; PyFloat q1] =>
      Np.quantile_is_valid q0 && Np.quantile_is_valid q1
  | _ => true
  end.

(** [x] is a positive number written with [s + 1] significant figures:
    an integer of [s + 1] digits times a power of ten. *)
Definition on_grid (s : Z) (x : Q) : Prop :=
  exists N e, (10 ^ s <= N < 10 ^ (s + 1))%Z /\ x == inject_Z N * pow10 e.

(** Neighbouring entries of a list. *)
Fixpoint adjacent_pairs {A} (l : list A) : list (A * A) :=
  match l with
  | a :: ((b :: _) as t) => (a, b) :: adjacent_pairs t
  | _ => []
  end.

(** The entries of the merged list that are point masses. *)
Definition point_entries (pm : list Q) (z : list (Q * string)) : list (Q * string) :=
  filter (fun p => existsb (Qeqb (fst p)) pm) z.

(** The bucketing primitive answers with the labels it was given. *)
Definition cut_uses_labels (P : Pandas) : Prop :=
  forall x bins labels r,
    pd_cut x bins labels = inr r ->
    forall l, In (Some l) r -> In l labels.

(** A column with the point mass 5 in its middle, and the keywords that
    switch the quantile window off. *)
Definition interior_mass_column : list (option Q) :=
  map Some [0; 2; 5; 5; 5; 5; 8; 10].

Definition no_window : Binners.kwargs :=
  {| Binners.kw_qntl_cutoff := Some None;
     Binners.kw_cuts := None;
     Binners.kw_ncuts := None |}.

Definition is_range_label (l : string) (p : (Q * string) * (Q * string)) : Prop :=
  exists n, l = range_label n (snd (fst p)) (snd (snd p)).

Definition is_point_label (l : string) (p : Q * string) : Prop :=
  exists n, l = point_label n (snd p).

(** The order in which the merged pairs are sorted. *)
Definition pair_lt (a b : Q * string) : Prop := Binners.pair_compare a b = Lt.

(** One round of the loop that brings in the point masses. *)
Definition bring_step (v : Q) (l : string) (col : list (option Q))
    (binned : list (option string)) : list (option string) :=
  map (fun '(c, b) => if Pd.isin [v] c then Some l else b) (combine col binned).

(** [f] is the formatted [v]. *)
Definition fmt_of (sig_fig : Z) (v : Q) (f : string) : Prop :=
  humanReadableNum v sig_fig = inr f.

(** A list of indices goes strictly down. *)
Definition descending (l : list nat) : Prop :=
  StronglySorted (fun a b => (b < a)%nat) l.

(** A sequence of numbers is strictly increasing. *)
Definition strictly_increasing (l : list Q) : Prop := Sorted Qlt l.

(** [v] occurs in [l], as a number. *)
Definition occurs (v : Q) (l : list Q) : Prop := InA Qeq v l.

End Spec.

Import Spec.

From Stdlib Require Import DecimalPos.

(* ================================================================== *)
(** * Further vocabulary: errors, units, counts, labels *)
(* ================================================================== *)

Module Terms.

(** What ['%.-1f' % x] raises. *)
Definition bad_format : exn :=
  ValueError "unsupported format character '-' (0x2d) at index 2".

(** What unpacking an empty list of pairs into two names raises. *)
Definition nothing_to_unpack : exn :=
  ValueError "not enough values to unpack (expected 2, got 0)".

(** What a second [ncuts] keyword raises. *)
Definition duplicate_ncuts : exn :=
  TypeError "cutpoints() got multiple values for keyword argument 'ncuts'".

(** The unit that goes with the base-1000 magnitude [k]. *)
Definition unit_of (k : Z) : string :=
  if (k >? 5)%Z then "E" ++ str_of_Z (3 * k)
  else nth (Z.to_nat k) units EmptyString.

(** How often [v] occurs in [vals]. *)
Definition count (v : Q) (vals : list Q) : nat :=
  List.length (filter (Qeqb v) vals).

(** The number of point masses among the first [k] entries of [c]. *)
Definition masses_before (pm : list Q) (c : list Q) (k : nat) : nat :=
  List.length (filter (fun v => existsb (Qeqb v) pm) (firstn k c)).

(** The label [l] carries the ordinal [n]. *)
Definition numbered (n : nat) (l : string) : Prop :=
  exists rest, l = ordinal n ++ ": " ++ rest.

(** The order of [list.sort()] on strings. *)
Definition string_le (a b : string) : Prop := String.leb a b = true.

(** The answer of the documented [pd.cut] for one entry. *)
Definition cut_entry (bins : list Q) (labels : list string) (v : option Q)
  : option string :=
  match v with
  | None => None
  | Some q =>
      match bins, labels with
      | b0 :: _, l0 :: _ => if Qeqb q b0 then Some l0 else Pd.bucket q bins labels
      | _, _ => None
      end
  end.

(** The most interior points that a [cuts] argument can give. *)
Definition interior_budget (cuts : cut_spec) (ncuts : Z) : nat :=
  match cuts with
  | CutPoints pts => List.length pts
  | CutName name =>
      (Z.to_nat ncuts + (if String.eqb name "logp1" then 1 else 0))%nat
  end.

End Terms.

Import Terms.

(* ================================================================== *)
(** * Properties of the number formatter *)
(* ================================================================== *)

Module FormatterFacts.

Lemma all_chars_app p s t :
  all_chars p (s ++ t) = all_chars p s && all_chars p t.
Proof.
  induction s as [|c s IH]; simpl; [reflexivity|].
  rewrite IH. now rewrite andb_assoc.
Qed.

Lemma all_chars_weaken (p q : ascii -> bool) s :
  (forall c, p c = true -> q c = true) ->
  all_chars p s = true -> all_chars q s = true.
Proof.
  intros Hpq. induction s as [|c s IH]; simpl; [reflexivity|].
  intros H. apply andb_true_iff in H as [Hc Hs].
  apply andb_true_iff. split; auto.
Qed.

Lemma digit_not_dot c : is_digit c = true -> not_dot c = true.
Proof.
  unfold is_digit, not_dot. intros H.
  destruct (Ascii.eqb_spec c "."%char) as [->|]; [discriminate H | reflexivity].
Qed.

Lemma digit_or_minus_not_dot c : digit_or_minus c = true -> not_dot c = true.
Proof.
  unfold digit_or_minus, not_dot. intros H.
  destruct (Ascii.eqb_spec c "."%char) as [->|]; [discriminate H | reflexivity].
Qed.

Lemma uint_digits (d : Decimal.uint) :
  all_chars is_digit (NilEmpty.string_of_uint d) = true.
Proof. induction d; simpl; auto. Qed.

Lemma str_of_Z_chars z : all_chars digit_or_minus (str_of_Z z) = true.
Proof.
  unfold str_of_Z.
  assert (H : forall d, all_chars digit_or_minus (NilZero.string_of_uint d) = true).
  { intros d. destruct d; try reflexivity;
      apply all_chars_weaken with (p := is_digit);
      try (intros c Hc; unfold digit_or_minus; now rewrite Hc);
      apply (uint_digits (_ d)). }
  destruct (Z.to_int z) as [d|d]; simpl; [apply H|].
  apply H.
Qed.

Lemma digit_char_is_digit k :
  (0 <= k < 10)%Z -> is_digit (digit_char k) = true.
Proof.
  intros Hk. unfold digit_char.
  assert (Hn : (Z.to_nat k < 10)%nat) by lia.
  destruct (Z.to_nat k) as [|[|[|[|[|[|[|[|[|[|n]]]]]]]]]]; try reflexivity; lia.
Qed.

Lemma fixed_digits_digits n k :
  all_chars is_digit (fixed_digits n k) = true.
Proof.
  revert k. induction n as [|n IH]; intros k; [reflexivity|].
  cbn [fixed_digits]. rewrite all_chars_app, IH. cbn [all_chars andb].
  rewrite digit_char_is_digit; [reflexivity|].
  apply Z.mod_pos_bound. lia.
Qed.

Lemma length_app s t :
  String.length (s ++ t) = (String.length s + String.length t)%nat.
Proof. induction s as [|c s IH]; cbn; [reflexivity | now rewrite IH]. Qed.

Lemma append_assoc s t u : (s ++ t) ++ u = s ++ (t ++ u).
Proof. induction s as [|c s IH]; cbn; [reflexivity | now rewrite IH]. Qed.

Lemma fixed_digits_length n k : String.length (fixed_digits n k) = n.
Proof.
  revert k. induction n as [|n IH]; intros k; [reflexivity|].
  cbn [fixed_digits]. rewrite length_app, IH.
  cbn [String.length]. lia.
Qed.

Lemma decimal_places_skip s t :
  all_chars not_dot s = true -> decimal_places (s ++ t) = decimal_places t.
Proof.
  induction s as [|c s IH]; simpl; [reflexivity|].
  intros H. apply andb_true_iff in H as [Hc Hs].
  unfold not_dot in Hc. apply negb_true_iff in Hc. rewrite Hc. auto.
Qed.

Lemma decimal_places_none s :
  all_chars not_dot s = true -> decimal_places s = O.
Proof.
  induction s as [|c s IH]; simpl; [reflexivity|].
  intros H. apply andb_true_iff in H as [Hc Hs].
  unfold not_dot in Hc. apply negb_true_iff in Hc. rewrite Hc. auto.
Qed.

Lemma count_digits_run s t :
  all_chars is_digit s = true -> stops_digits t = true ->
  count_digits (s ++ t) = String.length s.
Proof.
  intros Hs Ht. induction s as [|c s IH]; simpl.
  - destruct t as [|c t]; simpl in *; [reflexivity|].
    apply negb_true_iff in Ht. now rewrite Ht.
  - simpl in Hs. apply andb_true_iff in Hs as [Hc Hs].
    rewrite Hc. f_equal. auto.
Qed.

End FormatterFacts.

(* ================================================================== *)
(** * Comparisons on rationals *)
(* ================================================================== *)

Module NumFacts.

Lemma Qltb_lt x y : Qltb x y = true <-> x < y.
Proof.
  unfold Qltb. rewrite Qlt_alt.
  destruct (x ?= y); split; intros H; congruence.
Qed.

Lemma Qleb_le x y : Qleb x y = true <-> x <= y.
Proof.
  unfold Qleb. rewrite Qle_alt.
  destruct (x ?= y); split; intros H; congruence.
Qed.

Lemma Qeqb_eq x y : Qeqb x y = true <-> x == y.
Proof.
  unfold Qeqb. rewrite Qeq_alt.
  destruct (x ?= y); split; intros H; congruence.
Qed.

Lemma Qltb_ge x y : Qltb x y = false <-> y <= x.
Proof.
  rewrite <- not_true_iff_false, Qltb_lt. split.
  - apply Qnot_lt_le.
  - intros H1 H2. exact (Qlt_not_le _ _ H2 H1).
Qed.

Lemma Qleb_gt x y : Qleb x y = false <-> y < x.
Proof.
  rewrite <- not_true_iff_false, Qleb_le. split.
  - apply Qnot_le_lt.
  - intros H1 H2. exact (Qlt_not_le _ _ H1 H2).
Qed.

Lemma Qeqb_neq x y : Qeqb x y = false <-> ~ x == y.
Proof. now rewrite <- not_true_iff_false, Qeqb_eq. Qed.

Lemma ilog_up_nonneg fuel b n : (0 <= ilog_up fuel b n)%Z.
Proof.
  revert n. induction fuel as [|f IH]; intros n; cbn [ilog_up]; [lia|].
  destruct (n <? b)%Z; [lia|]. specialize (IH (n / b)%Z). lia.
Qed.

Lemma ilog_down_nonneg fuel b n d : (0 <= ilog_down fuel b n d)%Z.
Proof.
  revert n. induction fuel as [|f IH]; intros n; cbn [ilog_down]; [lia|].
  destruct (d <=? n)%Z; [lia|]. specialize (IH (n * b)%Z). lia.
Qed.

Lemma floor_log_nonneg b x : 1 <= x -> (0 <= floor_log b x)%Z.
Proof.
  intros H. unfold floor_log.
  destruct x as [n d]. unfold Qle in H. cbn in H. cbn [Qnum Qden].
  destruct (Z.leb_spec (Zpos d) n); [apply ilog_up_nonneg | lia].
Qed.

End NumFacts.

Import NumFacts.

(* ================================================================== *)
(** * The number formatter: scenarios and decimal places *)
(* ================================================================== *)

Module FormatterClaims.

Import FormatterFacts.

Lemma percent_f_shape prec x :
  (0 <= prec)%Z ->
  exists body,
    percent_f prec x = inr body /\
    forall unit, stops_digits unit = true -> all_chars not_dot unit = true ->
      decimal_places (body ++ unit) = Z.to_nat prec.
Proof.
  intros Hp. unfold percent_f.
  destruct (Z.ltb_spec prec 0); [lia|].
  eexists. split; [reflexivity|].
  intros unit Hstop Hdot.
  set (m := round_half_even (Qabs x * pow10 prec)).
  assert (Hsign : all_chars not_dot (if Qltb x 0 then "-" else EmptyString) = true)
    by (destruct (Qltb x 0); reflexivity).
  assert (Hint : all_chars not_dot (str_of_Z (m / 10 ^ prec)) = true).
  { apply all_chars_weaken with (p := digit_or_minus);
      [apply digit_or_minus_not_dot | apply str_of_Z_chars]. }
  rewrite !append_assoc.
  rewrite (decimal_places_skip _ _ Hsign), (decimal_places_skip _ _ Hint).
  destruct (Z.eqb_spec prec 0) as [->|Hne].
  - cbn [String.append]. now apply decimal_places_none.
  - cbn [String.append decimal_places]. rewrite Ascii.eqb_refl.
    rewrite count_digits_run; auto using fixed_digits_digits.
    apply fixed_digits_length.
Qed.

Lemma unit_shape magnitude :
  (0 <= magnitude)%Z ->
  exists unit,
    (if (magnitude >? 5)%Z
     then ret ("E" ++ str_of_Z (3 * magnitude))
     else match nth_error units (Z.to_nat magnitude) with
          | Some u => ret u
          | None => raise (IndexError "list index out of range")
          end) = inr unit
    /\ stops_digits unit = true /\ all_chars not_dot unit = true.
Proof.
  intros Hm. destruct (Z.gtb_spec magnitude 5) as [Hgt|Hle].
  - eexists. split; [reflexivity|]. split; [reflexivity|].
    cbn [String.append all_chars]. apply andb_true_iff. split; [reflexivity|].
    apply all_chars_weaken with (p := digit_or_minus);
      [apply digit_or_minus_not_dot | apply str_of_Z_chars].
  - assert (Hn : (Z.to_nat magnitude < 6)%nat) by lia.
    destruct (Z.to_nat magnitude) as [|[|[|[|[|[|n]]]]]]; try lia;
      (eexists; split; [reflexivity|]; split; reflexivity).
Qed.

Lemma large_not_small number :
  1 <= Qabs number -> Qeqb number 0 = false /\ Qltb (Qabs number) 1 = false.
Proof.
  intros H. split.
  - apply Qeqb_neq. intros Hz. rewrite Hz in H.
    unfold Qle in H. cbn in H. lia.
  - now apply Qltb_ge.
Qed.

(** Decimal places of the formatted string, for any precision the format
    accepts. *)
Lemma decimals_general number sigFig :
  1 <= Qabs number ->
  (0 <= mantissa_places sigFig (mantissa number))%Z ->
  exists z,
    humanReadableNum number sigFig = inr z /\
    decimal_places z = Z.to_nat (mantissa_places sigFig (mantissa number)).
Proof.
  intros Hbig Hp. unfold humanReadableNum.
  destruct (large_not_small _ Hbig) as [-> ->].
  destruct (unit_shape _ (floor_log_nonneg 1000 _ Hbig)) as (unit & -> & Hstop & Hdot).
  cbn [bind]. fold (mantissa number).
  destruct (percent_f_shape _ (mantissa number) Hp) as (body & -> & Hbody).
  cbn [bind ret]. eexists. split; [reflexivity|]. now apply Hbody.
Qed.

(** C6.  [format(1234, 3) = "1.23K"], [format(0.004567, 3) = "4.57E-3"] and
    [format(0, sigFig) = "0"] for every [sigFig], for the formatter of
    either module. *)
Theorem format_scenarios :
  humanReadableNum 1234 3 = inr "1.23K" /\
  humanReadableNum (4567 # 1000000) 3 = inr "4.57E-3" /\
  (forall sigFig, humanReadableNum 0 sigFig = inr "0") /\
  Binners.human_readable_num 1234 3 = inr "1.23K" /\
  Binners.human_readable_num (4567 # 1000000) 3 = inr "4.57E-3" /\
  (forall sig_fig, Binners.human_readable_num 0 sig_fig = inr "0").
Proof.
  repeat split; try (vm_compute; reflexivity); intros; reflexivity.
Qed.




End FormatterClaims.

(* ================================================================== *)
(** * Results: when the formatter and the generators return *)
(* ================================================================== *)

Module Returns.

Import FormatterFacts FormatterClaims.

Lemma floor_log_small b x : x < 1 -> (floor_log b x <= -1)%Z.
Proof.
  intros H. unfold floor_log.
  destruct x as [n d]. unfold Qlt in H. cbn in H. cbn [Qnum Qden].
  destruct (Z.leb_spec (Zpos d) n); [lia|].
  cbn [ilog_down]. destruct (Z.leb_spec (Zpos d) n); [lia|].
  pose proof (ilog_down_nonneg (Z.to_nat (Z.log2_up (Zpos d))) b (n * b) (Zpos d)).
  lia.
Qed.

Lemma percent_f_returns prec x : (0 <= prec)%Z -> returns (percent_f prec x).
Proof.
  intros H. destruct (percent_f_shape prec x H) as (body & Hb & _).
  now exists body.
Qed.

(** With three significant figures or more the formatter never fails. *)
Lemma humanReadableNum_returns number sigFig :
  (3 <= sigFig)%Z -> returns (humanReadableNum number sigFig).
Proof.
  intros Hsf. unfold humanReadableNum.
  destruct (Qeqb number 0) eqn:Hz; [now eexists|].
  destruct (Qltb (Qabs number) 1) eqn:Hsmall.
  - apply Qltb_lt in Hsmall.
    pose proof (floor_log_small 10 _ Hsmall) as Hm.
    destruct (Z.geb_spec (floor_log 10 (Qabs number)) (-2)).
    + apply percent_f_returns. lia.
    + destruct (percent_f_returns (sigFig - 1)
                  (number / pow10 (floor_log 10 (Qabs number)))) as [z ->]; [lia|].
      now eexists.
  - apply Qltb_ge in Hsmall.
    destruct (unit_shape _ (floor_log_nonneg 1000 _ Hsmall)) as (unit & -> & _).
    cbn [bind].
    match goal with
    | |- returns (bind (percent_f ?p ?m) _) =>
        destruct (percent_f_returns p m) as [z ->]
    end.
    + unfold mantissa_places. destruct (Qltb _ 10); [lia|].
      destruct (Qltb _ 100); lia.
    + now eexists.
Qed.

Lemma mapM_returns {A B} (f : A -> result B) (l : list A) :
  (forall a, returns (f a)) -> returns (mapM f l).
Proof.
  intros Hf. induction l as [|a l [bs IH]]; [now eexists|].
  cbn [mapM]. destruct (Hf a) as [b ->]. cbn [bind]. rewrite IH.
  now eexists.
Qed.

Lemma mapM_length {A B} (f : A -> result B) (l : list A) (bs : list B) :
  mapM f l = inr bs -> List.length bs = List.length l.
Proof.
  revert bs. induction l as [|a l IH]; intros bs; cbn [mapM].
  - intros H. injection H as <-. reflexivity.
  - destruct (f a) as [e|b]; [discriminate|]. cbn [bind].
    destruct (mapM f l) as [e|bs']; [discriminate|]. cbn [bind ret].
    intros H. injection H as <-. cbn. f_equal. now apply IH.
Qed.

End Returns.

(* ================================================================== *)
(** * The guard of the log strategy *)
(* ================================================================== *)

Module LogGuard.

Import Returns.

Section WithLibraries.

Context {M : MathLib}.

Lemma linspace_error start stop num e :
  Np.linspace start stop num = inl e ->
  e = ValueError "Number of samples must be non-negative.".
Proof.
  unfold Np.linspace. destruct (num <? 0)%Z; [now intros [= <-]|].
  destruct (num =? 0)%Z; [discriminate|]. destruct (num =? 1)%Z; discriminate.
Qed.

Lemma quantile_error x qs e :
  Np.quantile x qs = inl e ->
  e = ValueError "Quantiles must be in the range [0, 1]" \/
  e = IndexError "index -1 is out of bounds for axis 0 with size 0".
Proof.
  unfold Np.quantile. destruct (negb _); [intros [= <-]; now left|].
  destruct x; [intros [= <-]; now right | discriminate].
Qed.

Lemma log_spaced_error shift ep0 ep1 ncuts e :
  log_spaced shift ep0 ep1 ncuts = inl e ->
  e = ValueError "math domain error" \/
  e = ValueError "Number of samples must be non-negative.".
Proof.
  unfold log_spaced, math_log10.
  destruct (Qleb (Qabs ep0 + shift) 0); [intros [= <-]; now left|].
  destruct (Qleb (Qabs ep1 + shift) 0); [intros [= <-]; now left|].
  cbn [bind ret].
  destruct (Np.linspace _ _ ncuts) as [e'|l] eqn:Hl; [|discriminate].
  cbn [bind]. intros [= <-]. right. eapply linspace_error; eassumption.
Qed.

(** binners.py: a lower working endpoint at or below zero stops the log
    strategy before any cut point is built. *)
Lemma binners_log_guard x ep ncuts :
  fst ep <= 0 ->
  interior_points Binners.log_guard x ep (CutName "log") ncuts
  = inl (ValueError range_includes_zero).
Proof.
  intros H. unfold interior_points, Binners.log_guard.
  cbn [String.eqb Ascii.eqb Bool.eqb].
  apply NumFacts.Qleb_le in H. now rewrite H.
Qed.

(** histograms.py: an endpoint equal to zero stops the log strategy. *)
Lemma histograms_log_guard x ep ncuts :
  fst ep == 0 \/ snd ep == 0 ->
  interior_points Histograms.log_guard x ep (CutName "log") ncuts
  = inl (ValueError range_includes_zero).
Proof.
  intros H. unfold interior_points, Histograms.log_guard.
  cbn [String.eqb Ascii.eqb Bool.eqb].
  destruct H as [H|H]; apply NumFacts.Qeqb_eq in H; rewrite H;
    [reflexivity | now rewrite orb_true_r].
Qed.

(** No strategy other than ["log"] raises the invalid-range error, with
    either guard. *)
Lemma other_strategies_no_range_error guard x ep cuts ncuts :
  cuts <> CutName "log" ->
  interior_points guard x ep cuts ncuts <> inl (ValueError range_includes_zero).
Proof.
  intros Hne. destruct cuts as [name|c]; [|discriminate].
  unfold interior_points.
  destruct (String.eqb name "linear").
  { intros H. apply linspace_error in H. discriminate H. }
  destruct (String.eqb_spec name "log") as [->|_]; [now elim Hne|].
  destruct (String.eqb name "logp1").
  { destruct (log_spaced 1 (fst ep) (snd ep) ncuts) as [e|c] eqn:Hc;
      [|discriminate].
    cbn [bind]. intros [= ->].
    apply log_spaced_error in Hc. destruct Hc; discriminate. }
  destruct (String.eqb name "quantile"); [|discriminate].
  destruct (Np.linspace 0 1 ncuts) as [e|qs] eqn:Hq; cbn [bind].
  - intros [= ->]. apply linspace_error in Hq. discriminate.
  - intros H. apply quantile_error in H. destruct H; discriminate.
Qed.

Lemma numericVarCutpoints_returns x qntlCutoff cuts ncuts sigFig a b ep c :
  Np.min x = inr a -> Np.max x = inr b ->
  endpoints x qntlCutoff (lower_bound sigFig a) (upper_bound sigFig b) = inr ep ->
  interior_points Histograms.log_guard x ep cuts ncuts = inr c ->
  (3 <= sigFig)%Z ->
  returns (Histograms.numericVarCutpoints x qntlCutoff cuts ncuts sigFig).
Proof.
  intros Ha Hb Hep Hc Hsf. unfold Histograms.numericVarCutpoints.
  rewrite Ha. cbn [bind]. rewrite Hb. cbn [bind]. rewrite Hep. cbn [bind].
  rewrite Hc. cbn [bind].
  destruct (mapM_returns (fun i => humanReadableNum i sigFig)
              (round_cutpoints sigFig (lower_bound sigFig a) c
                 (upper_bound sigFig b))) as [fs ->].
  - intros v. now apply humanReadableNum_returns.
  - now eexists.
Qed.

(** C1, on histograms.py.  For the sample [-5, 10] without a quantile
    window the working endpoints are -5 and 10; the lower one is below
    zero, the strategy is ["log"], and yet [numericVarCutpoints] raises
    nothing: it returns cut points and labels. *)
Theorem histograms_log_guard_misses_negative_endpoint :
  let ep := (lower_bound 3 (-(5)), upper_bound 3 10) in
  endpoints [-(5); 10] None (fst ep) (snd ep) = inr ep /\
  fst ep == -(5) /\ snd ep == 10 /\
  interior_points Binners.log_guard [-(5); 10] ep (CutName "log") 10
    = inl (ValueError range_includes_zero) /\
  returns (Histograms.numericVarCutpoints [-(5); 10] None (CutName "log") 10 3).
Proof.
  intros ep. split; [reflexivity|]. split; [reflexivity|].
  split; [reflexivity|]. split; [now apply binners_log_guard|].
  eapply numericVarCutpoints_returns with (a := -(5)) (b := 10);
    [reflexivity | reflexivity | reflexivity | | lia].
  vm_compute. reflexivity.
Qed.

End WithLibraries.

End LogGuard.

(* ================================================================== *)
(** * Malformed configurations *)
(* ================================================================== *)

Module Configuration.

Import Returns LogGuard.

Lemma min_returns x : x <> [] -> returns (Np.min x).
Proof. destruct x; [congruence | now eexists]. Qed.

Lemma max_returns x : x <> [] -> returns (Np.max x).
Proof. destruct x; [congruence | now eexists]. Qed.

Lemma endpoints_valid x q0 q1 lb ub :
  x <> [] ->
  Np.quantile_is_valid q0 = true -> Np.quantile_is_valid q1 = true ->
  returns (endpoints x (Some [PyFloat q0; PyFloat q1]) lb ub).
Proof.
  intros Hx H0 H1. unfold endpoints, Np.quantile. cbn [forallb].
  rewrite H0, H1. cbn [andb negb].
  destruct x; [congruence|]. now eexists.
Qed.

Lemma endpoints_invalid x q0 q1 lb ub :
  Np.quantile_is_valid q0 && Np.quantile_is_valid q1 = false ->
  endpoints x (Some [PyFloat q0; PyFloat q1]) lb ub = inl invalid_quantiles.
Proof.
  intros H. unfold endpoints, Np.quantile. cbn [forallb].
  rewrite andb_true_r, H. reflexivity.
Qed.

Lemma linspace_returns start stop num :
  (0 <= num)%Z -> returns (Np.linspace start stop num).
Proof.
  intros H. unfold Np.linspace.
  destruct (Z.ltb_spec num 0); [lia|].
  destruct (num =? 0)%Z; [now eexists|].
  destruct (num =? 1)%Z; now eexists.
Qed.

Lemma linspace_negative start stop num :
  (num < 0)%Z -> Np.linspace start stop num = inl negative_count.
Proof.
  intros H. unfold Np.linspace.
  destruct (Z.ltb_spec num 0); [reflexivity | lia].
Qed.

Section WithLibraries.

Context {M : MathLib} {P : Pandas}.

(** The two generators run the same steps; the histograms one then formats
    the cut points. *)
Lemma numericVarCutpoints_cutpoints x q cuts ncuts sf :
  cuts <> CutName "log" ->
  Histograms.numericVarCutpoints x q cuts ncuts sf =
  (c <- Binners.cutpoints x q cuts ncuts sf ;;
   f <- mapM (fun i => humanReadableNum i sf) c ;;
   ret (c, f)).
Proof.
  intros Hlog. unfold Histograms.numericVarCutpoints, Binners.cutpoints.
  destruct (Np.min x) as [e|a]; [reflexivity|]. cbn [bind].
  destruct (Np.max x) as [e|b]; [reflexivity|]. cbn [bind].
  destruct (endpoints _ _ _ _) as [e|ep]; [reflexivity|]. cbn [bind].
  assert (Hi : interior_points Histograms.log_guard x ep cuts ncuts
               = interior_points Binners.log_guard x ep cuts ncuts).
  { destruct cuts as [name|c]; [|reflexivity]. unfold interior_points.
    destruct (String.eqb name "linear"); [reflexivity|].
    destruct (String.eqb_spec name "log") as [->|_]; [now elim Hlog|].
    reflexivity. }
  rewrite Hi. clear Hi.
  destruct (interior_points Binners.log_guard x ep cuts ncuts) as [e|c];
    reflexivity.
Qed.

Lemma cutpoints_invalid_quantiles x q0 q1 cuts ncuts sf :
  x <> [] ->
  Np.quantile_is_valid q0 && Np.quantile_is_valid q1 = false ->
  Binners.cutpoints x (Some [PyFloat q0; PyFloat q1]) cuts ncuts sf
  = inl invalid_quantiles.
Proof.
  intros Hx Hq. unfold Binners.cutpoints.
  destruct (min_returns x Hx) as [a ->]. cbn [bind].
  destruct (max_returns x Hx) as [b ->]. cbn [bind].
  now rewrite endpoints_invalid.
Qed.

Lemma cutpoints_linear x q0 q1 ncuts sf :
  x <> [] ->
  Np.quantile_is_valid q0 && Np.quantile_is_valid q1 = true ->
  ((0 <= ncuts)%Z ->
   returns (Binners.cutpoints x (Some [PyFloat q0; PyFloat q1])
              (CutName "linear") ncuts sf)) /\
  ((ncuts < 0)%Z ->
   Binners.cutpoints x (Some [PyFloat q0; PyFloat q1])
     (CutName "linear") ncuts sf = inl negative_count).
Proof.
  intros Hx Hq. apply andb_true_iff in Hq as [H0 H1].
  unfold Binners.cutpoints.
  destruct (min_returns x Hx) as [a ->]. cbn [bind].
  destruct (max_returns x Hx) as [b ->]. cbn [bind].
  destruct (endpoints_valid x q0 q1 (lower_bound sf a) (upper_bound sf b)
              Hx H0 H1) as [ep ->].
  cbn [bind interior_points String.eqb Ascii.eqb Bool.eqb]. split; intros Hn.
  - destruct (linspace_returns (fst ep) (snd ep) ncuts Hn) as [c ->].
    now eexists.
  - now rewrite linspace_negative.
Qed.

(** An exception of the generator leaves [cutter] as it is. *)
Lemma histograms_cutter_propagates df x max_levels kw col e :
  Pd.loc df x = inr col ->
  Histograms.call_numericVarCutpoints (Pd.non_nan col) kw = inl e ->
  Histograms.cutter df x max_levels kw = inl e.
Proof.
  intros Hcol He. unfold Histograms.cutter. rewrite Hcol. cbn [bind].
  now rewrite He.
Qed.

End WithLibraries.

(** C8, as the specification words it, fails: a quantile window with the
    lower bound above the upper one, and a level count of zero, are both
    accepted; generation returns cut points. *)
Lemma malformed_configuration_accepted :
  ~ (9 # 10) < (1 # 10) /\
  returns (Binners.cutpoints (M := whole_orders) [1; 2; 3]
             (Some [PyFloat (9 # 10); PyFloat (1 # 10)]) (CutName "linear") 10 3) /\
  returns (Histograms.numericVarCutpoints (M := whole_orders) [1; 2; 3]
             (Some [PyFloat (9 # 10); PyFloat (1 # 10)]) (CutName "linear") 10 3) /\
  returns (Binners.cutpoints (M := whole_orders) [1; 2; 3]
             Binners.default_qntl_cutoff (CutName "linear") 0 3) /\
  returns (Histograms.cutter (M := whole_orders) (P := pandas_documented)
             [("a", NumCol [Some 1; Some 2; Some 3])] "a" 20
             {| Histograms.kw_qntlCutoff := Some (Some [PyFloat (9 # 10); PyFloat (1 # 10)]);
                Histograms.kw_cuts := None;
                Histograms.kw_ncuts := Some 0%Z;
                Histograms.kw_sigFig := None |}).
Proof.
  split; [discriminate|].
  repeat split; vm_compute; eexists; reflexivity.
Qed.

(** C8, amended.  The binning code validates no configuration itself.
    Quantile bounds outside [0, 1] make the quantile primitive raise its
    [ValueError], and a negative count makes [linspace] raise its
    [ValueError]; either reaches the caller of the generator, and of
    [cutter], unmodified.  Bounds inside [0, 1] in any order, and a count
    of zero, raise nothing: with the linear strategy generation returns. *)
Theorem configuration_errors {M : MathLib} {P : Pandas} x q0 q1 cuts ncuts sf :
  x <> [] ->
  (Np.quantile_is_valid q0 && Np.quantile_is_valid q1 = false ->
   Binners.cutpoints x (Some [PyFloat q0; PyFloat q1]) cuts ncuts sf
     = inl invalid_quantiles /\
   (forall df name max_levels kw,
      Pd.loc df name = inr (map Some x) ->
      Histograms.kw_qntlCutoff kw = Some (Some [PyFloat q0; PyFloat q1]) ->
      Histograms.cutter df name max_levels kw = inl invalid_quantiles)) /\
  (Np.quantile_is_valid q0 && Np.quantile_is_valid q1 = true ->
   ((0 <= ncuts)%Z ->
    returns (Binners.cutpoints x (Some [PyFloat q0; PyFloat q1])
               (CutName "linear") ncuts sf)) /\
   ((ncuts < 0)%Z ->
    Binners.cutpoints x (Some [PyFloat q0; PyFloat q1])
      (CutName "linear") ncuts sf = inl negative_count)).
Proof.
  intros Hx. split.
  - intros Hq. split; [now apply cutpoints_invalid_quantiles|].
    intros df name max_levels kw Hcol Hkw.
    apply histograms_cutter_propagates with (col := map Some x); [exact Hcol|].
    assert (Hnn : Pd.non_nan (map Some x) = x).
    { clear. induction x as [|a l IH]; cbn; [reflexivity | now rewrite IH]. }
    rewrite Hnn. unfold Histograms.call_numericVarCutpoints. rewrite Hkw.
    unfold Histograms.numericVarCutpoints.
    destruct (min_returns x Hx) as [a ->]. cbn [bind].
    destruct (max_returns x Hx) as [b ->]. cbn [bind].
    now rewrite endpoints_invalid.
  - intros Hq. now apply cutpoints_linear.
Qed.

Lemma configuration_errors_witness :
  returns (Binners.cutpoints (M := whole_orders) [1; 2; 3]
             (Some [PyFloat (9 # 10); PyFloat (1 # 10)]) (CutName "linear") 0 3).
Proof.
  refine (proj1 (proj2 (configuration_errors (M := whole_orders)
                          (P := pandas_documented) [1; 2; 3] (9 # 10) (1 # 10)
                          (CutName "linear") 0%Z 3%Z _) _) _).
  - discriminate.
  - reflexivity.
  - lia.
Defined.

End Configuration.

(* ================================================================== *)
(** * The table-level wrappers *)
(* ================================================================== *)

Module Wrappers.

Section WithLibraries.

Context {M : MathLib} {P : Pandas}.

(** [fill_na] is bound neither in the wrappers nor in their modules. *)
Lemma fill_na_unbound :
  load_name (Histograms.binner_locals ++ Histograms.module_globals) "fill_na"
    = inl (NameError "fill_na") /\
  load_name (Binners.binner_locals ++ Binners.module_globals) "fill_na"
    = inl (NameError "fill_na").
Proof. split; reflexivity. Qed.


(** C10.  histograms.py: [cutter] never hands [max_levels] to the
    generator, so two calls that differ in it alone give the same result;
    the number of cuts is the keyword [ncuts], or 10. *)
Theorem histograms_cutter_ignores_max_levels df x max_levels max_levels' kw :
  Histograms.cutter df x max_levels kw = Histograms.cutter df x max_levels' kw /\
  (forall values,
     Histograms.call_numericVarCutpoints values kw =
     Histograms.numericVarCutpoints values
       (match Histograms.kw_qntlCutoff kw with
        | Some q => q | None => Histograms.default_qntlCutoff end)
       (match Histograms.kw_cuts kw with
        | Some c => c | None => CutName "linear" end)
       (match Histograms.kw_ncuts kw with Some n => n | None => 10%Z end)
       (match Histograms.kw_sigFig kw with Some s => s | None => 3%Z end)).
Proof. split; [reflexivity | intros; reflexivity]. Qed.

End WithLibraries.


(** binners.py, by contrast, passes [max_levels] on as [ncuts]. *)
Example binners_cutter_uses_max_levels :
  Binners.cutter (M := whole_orders) (P := pandas_documented)
    sample_table "a" 5 (3 # 10) 3 Binners.no_kwargs
  <> Binners.cutter (M := whole_orders) (P := pandas_documented)
    sample_table "a" 2 (3 # 10) 3 Binners.no_kwargs.
Proof. vm_compute. discriminate. Qed.

End Wrappers.

(* ================================================================== *)
(** * Bin assembly: the cut points removed next to point masses *)
(* ================================================================== *)

Module AssemblyFacts.

Import Binners.

(** ** [argmin] *)

Lemma argmin_from_spec key L l i best :
  l = skipn i L -> (best < i)%nat -> (i <= List.length L)%nat ->
  (forall m, (m < i)%nat -> key (nth best L 0) <= key (nth m L 0)) ->
  let r := argmin_from key l i best (key (nth best L 0)) in
  (r < List.length L)%nat /\
  forall m, (m < List.length L)%nat -> key (nth r L 0) <= key (nth m L 0).
Proof.
  revert i best. induction l as [|c l IH]; intros i best Hl Hb Hi Hmin; cbn.
  - assert (List.length L <= i)%nat.
    { rewrite <- (firstn_skipn i L) at 1. rewrite <- Hl, app_nil_r.
      rewrite length_firstn. lia. }
    split; [lia|]. intros m Hm. apply Hmin. lia.
  - assert (Hlen : (i < List.length L)%nat).
    { destruct (Nat.lt_ge_cases i (List.length L)) as [|Hge]; [assumption|].
      rewrite (skipn_all2 L Hge) in Hl. discriminate. }
    assert (Hc : c = nth i L 0 /\ l = skipn (S i) L).
    { clear -Hl Hlen. revert L Hl Hlen. induction i as [|i IHi]; intros L Hl Hlen.
      - destruct L; cbn in *; [lia|]. now injection Hl as -> ->.
      - destruct L as [|a L]; cbn in *; [lia|]. apply IHi; [assumption | lia]. }
    destruct Hc as [-> Hl'].
    destruct (Qltb (key (nth i L 0)) (key (nth best L 0))) eqn:Hlt.
    + apply Qltb_lt in Hlt. apply IH; try assumption; try lia.
      intros m Hm. destruct (Nat.eq_dec m i) as [->|Hne]; [apply Qle_refl|].
      apply Qle_trans with (key (nth best L 0)); [now apply Qlt_le_weak|].
      apply Hmin. lia.
    + apply Qltb_ge in Hlt. apply IH; try assumption; try lia.
      intros m Hm. destruct (Nat.eq_dec m i) as [->|Hne]; [assumption|].
      apply Hmin. lia.
Qed.

Lemma argmin_spec key l :
  l <> [] ->
  (argmin key l < List.length l)%nat /\
  forall m, (m < List.length l)%nat ->
    key (nth (argmin key l) l 0) <= key (nth m l 0).
Proof.
  intros Hne. destruct l as [|c l]; [congruence|].
  unfold argmin.
  apply (argmin_from_spec key (c :: l) l 1 0); cbn; try reflexivity; try lia.
  intros m Hm. assert (m = 0)%nat as -> by lia. apply Qle_refl.
Qed.

(** ** [cps[1:-1]] *)

Lemma interior_length cps : List.length (interior cps) = (List.length cps - 2)%nat.
Proof.
  unfold interior. rewrite removelast_firstn_len, length_firstn, length_tl. lia.
Qed.

Lemma interior_nth cps m :
  (m < List.length cps - 2)%nat -> nth m (interior cps) 0 = nth (S m) cps 0.
Proof.
  intros Hm. unfold interior. rewrite removelast_firstn_len.
  rewrite nth_firstn. rewrite length_tl.
  destruct (Nat.ltb_spec m (Nat.pred (List.length cps - 1))); [|lia].
  destruct cps; [cbn in Hm; lia | reflexivity].
Qed.

(** ** [sorted(set(ridx), reverse=True)] *)

Lemma insert_desc_In n k l : In k (insert_desc n l) <-> k = n \/ In k l.
Proof.
  induction l as [|m l IH]; cbn; [intuition|].
  destruct (Nat.compare_spec n m) as [->| |]; cbn; rewrite ?IH; intuition.
Qed.

Lemma insert_desc_descending n l : descending l -> descending (insert_desc n l).
Proof.
  unfold descending. induction l as [|m l IH]; intros Hl; cbn.
  - constructor; constructor.
  - inversion Hl as [|? ? Hl' Hm]; subst.
    destruct (Nat.compare_spec n m) as [->|Hlt|Hgt]; [assumption| |].
    + constructor; [now apply IH|].
      apply Forall_forall. intros k Hk. apply insert_desc_In in Hk as [->|Hk];
        [assumption|]. rewrite Forall_forall in Hm. now apply Hm.
    + constructor; [assumption|]. constructor; [assumption|].
      rewrite Forall_forall in Hm |- *. intros k Hk. specialize (Hm k Hk). lia.
Qed.

Lemma sorted_desc_In k l : In k (sorted_desc l) <-> In k l.
Proof.
  induction l as [|n l IH]; cbn; [reflexivity|].
  rewrite insert_desc_In, IH. intuition.
Qed.

Lemma sorted_desc_descending l : descending (sorted_desc l).
Proof.
  induction l as [|n l IH]; cbn; [constructor | now apply insert_desc_descending].
Qed.

(** ** Deleting by index *)

Lemma del_length {A} (l : list A) k :
  (k < List.length l)%nat ->
  exists l', del l k = inr l' /\ List.length l = S (List.length l').
Proof.
  revert k. induction l as [|a l IH]; intros k Hk; cbn in Hk; [lia|].
  destruct k as [|k]; cbn; [now eexists|].
  destruct (IH k) as (l' & -> & Hlen); [lia|].
  eexists. split; [reflexivity|]. cbn. now rewrite Hlen.
Qed.

Lemma drop_from_none {A} (l : list A) i idx :
  (forall k, In k idx -> (k < i)%nat) -> drop_from i idx l = l.
Proof.
  revert i. induction l as [|a l IH]; intros i Hidx; cbn; [reflexivity|].
  destruct (existsb (Nat.eqb i) idx) eqn:He.
  - apply existsb_exists in He as (k & Hk & Heq).
    apply Nat.eqb_eq in Heq. subst k. specialize (Hidx i Hk). lia.
  - f_equal. apply IH. intros k Hk. specialize (Hidx k Hk). lia.
Qed.

Lemma drop_from_del {A} (l l' : list A) i k ks :
  (forall k', In k' ks -> (k' < i + k)%nat) ->
  del l k = inr l' ->
  drop_from i ((i + k)%nat :: ks) l = drop_from i ks l'.
Proof.
  revert l' i k. induction l as [|a l IH]; intros l' i k Hks Hdel; cbn in Hdel.
  - discriminate.
  - destruct k as [|k].
    + injection Hdel as <-. cbn [drop_from existsb].
      rewrite Nat.add_0_r, Nat.eqb_refl. cbn [orb].
      rewrite !drop_from_none; [reflexivity| |].
      * intros k' Hk'. specialize (Hks k' Hk'). lia.
      * intros k' [<-|Hk']; [lia|]. specialize (Hks k' Hk'). lia.
    + destruct (del l k) as [e|l0] eqn:Hl0; [discriminate|].
      cbn in Hdel. injection Hdel as <-.
      cbn [drop_from existsb].
      assert (Hne : Nat.eqb i (i + S k) = false) by (apply Nat.eqb_neq; lia).
      rewrite Hne. cbn [orb].
      replace (i + S k)%nat with (S i + k)%nat by lia.
      rewrite (IH l0 (S i) k); [reflexivity| |assumption].
      intros k' Hk'. specialize (Hks k' Hk'). lia.
Qed.

Lemma del_all_drop ks cps cps_format :
  descending ks ->
  (forall k, In k ks -> (k < List.length cps)%nat) ->
  List.length cps_format = List.length cps ->
  del_all ks cps cps_format
  = inr (drop_indices ks cps, drop_indices ks cps_format).
Proof.
  revert cps cps_format.
  induction ks as [|k ks IH]; intros cps cps_format Hd Hlt Hlen.
  - cbn. unfold drop_indices. rewrite !drop_from_none; [reflexivity| |];
      intros k [].
  - inversion Hd as [|? ? Hd' Hk]; subst. rewrite Forall_forall in Hk.
    cbn [del_all].
    destruct (del_length cps k) as (cps' & Hc & Hl1); [apply Hlt; now left|].
    rewrite Hc. cbn [bind].
    destruct (del_length cps_format k) as (fmt' & Hf & Hl2);
      [rewrite Hlen; apply Hlt; now left|].
    rewrite Hf. cbn [bind].
    assert (Hk' : forall k', In k' ks -> (k' < List.length cps')%nat).
    { intros k' Hin. specialize (Hk k' Hin).
      assert (k < List.length cps)%nat by (apply Hlt; now left). lia. }
    rewrite IH; [|assumption|assumption|lia].
    unfold drop_indices.
    pose proof (drop_from_del cps cps' 0 k ks) as E1.
    pose proof (drop_from_del cps_format fmt' 0 k ks) as E2.
    cbn [Nat.add] in E1, E2.
    rewrite E1, E2; auto.
Qed.

Lemma drop_from_ext {A} (l : list A) i idx idx' :
  (forall k, In k idx <-> In k idx') -> drop_from i idx l = drop_from i idx' l.
Proof.
  intros H. revert i. induction l as [|a l IH]; intros i; cbn; [reflexivity|].
  assert (E : existsb (Nat.eqb i) idx = existsb (Nat.eqb i) idx').
  { apply eq_true_iff_eq. rewrite !existsb_exists.
    split; intros (k & Hk & Hik); exists k; split; auto; now apply H. }
  rewrite E, IH. reflexivity.
Qed.

Lemma drop_from_length {A B} (l : list A) (f : list B) i idx :
  List.length f = List.length l ->
  List.length (drop_from i idx f) = List.length (drop_from i idx l).
Proof.
  revert f i. induction l as [|a l IH]; intros [|b f] i Hlen; cbn in *;
    try discriminate; [reflexivity|].
  destruct (existsb (Nat.eqb i) idx); cbn; [|f_equal]; apply IH; lia.
Qed.

Lemma drop_from_occurs (l : list Q) i idx v :
  occurs v (drop_from i idx l) <->
  exists m, (m < List.length l)%nat /\ ~ In (i + m)%nat idx /\ v == nth m l 0.
Proof.
  unfold occurs. revert i. induction l as [|a l IH]; intros i; cbn [drop_from].
  - rewrite InA_nil. split; [tauto|]. intros (m & Hm & _). cbn in Hm. lia.
  - assert (Hshift : (exists m, (m < List.length l)%nat /\
                        ~ In (S i + m)%nat idx /\ v == nth m l 0) <->
                     (exists m, (0 < m < List.length (a :: l))%nat /\
                        ~ In (i + m)%nat idx /\ v == nth m (a :: l) 0)).
    { split.
      - intros (m & Hm & Hn & Hv). exists (S m). cbn.
        replace (i + S m)%nat with (S i + m)%nat by lia. repeat split; auto; lia.
      - intros ([|m] & Hm & Hn & Hv); [lia|]. exists m. cbn in *.
        replace (S (i + m))%nat with (i + S m)%nat by lia. repeat split; auto; lia. }
    destruct (existsb (Nat.eqb i) idx) eqn:He.
    + rewrite IH, Hshift. split.
      * intros (m & Hm & H). exists m. split; [lia | exact H].
      * intros ([|m] & Hm & Hn & Hv).
        -- exfalso. apply Hn. apply existsb_exists in He as (k & Hk & Hik).
           apply Nat.eqb_eq in Hik. subst k. now rewrite Nat.add_0_r.
        -- exists (S m). split; [lia | now split].
    + rewrite InA_cons, IH, Hshift. split.
      * intros [Hv | (m & Hm & H)].
        -- exists 0%nat. cbn. split; [lia|]. split; [|exact Hv].
           rewrite Nat.add_0_r. intros Hin.
           assert (existsb (Nat.eqb i) idx = true); [|congruence].
           apply existsb_exists. exists i. split; [assumption | apply Nat.eqb_refl].
        -- exists m. split; [lia | exact H].
      * intros ([|m] & Hm & Hn & Hv); [now left|].
        right. exists (S m). split; [lia | now split].
Qed.

(** ** The merged, sorted list of pairs *)

Lemma pair_compare_eq a b : pair_compare a b = Eq -> fst a == fst b.
Proof.
  unfold pair_compare. destruct (fst a ?= fst b) eqn:H; try discriminate.
  intros _. now apply Qeq_alt.
Qed.

Lemma insert_pair_occurs a l v :
  occurs v (map fst (insert_pair a l)) <-> v == fst a \/ occurs v (map fst l).
Proof.
  unfold occurs. induction l as [|b l IH]; cbn [insert_pair map].
  - rewrite InA_cons, InA_nil. tauto.
  - destruct (pair_compare a b) eqn:Hc; cbn [map].
    + apply pair_compare_eq in Hc. rewrite InA_cons. split; [tauto|].
      intros [Hv|H]; [left; now rewrite Hv | exact H].
    + rewrite !InA_cons. tauto.
    + rewrite !InA_cons, IH. tauto.
Qed.

Lemma sorted_set_occurs l v :
  occurs v (map fst (sorted_set l)) <-> occurs v (map fst l).
Proof.
  unfold occurs. induction l as [|a l IH]; cbn [sorted_set fold_right map];
    [reflexivity|].
  fold (sorted_set l). rewrite (insert_pair_occurs a (sorted_set l) v).
  unfold occurs. rewrite IH, InA_cons. reflexivity.
Qed.

Lemma map_fst_combine {A B} (l : list A) (f : list B) :
  List.length f = List.length l -> map fst (combine l f) = l.
Proof.
  revert f. induction l as [|a l IH]; intros [|b f] H; cbn in *;
    try discriminate; [reflexivity|].
  f_equal. apply IH. lia.
Qed.

Lemma occurs_app v l1 l2 : occurs v (l1 ++ l2) <-> occurs v l1 \/ occurs v l2.
Proof. apply InA_app_iff. Qed.

(** ** The marked indices *)

Lemma nearest_interior_spec cps j :
  (2 < List.length cps)%nat ->
  (1 <= nearest_interior cps j <= List.length cps - 2)%nat /\
  forall i, (1 <= i <= List.length cps - 2)%nat ->
    Qabs (nth (nearest_interior cps j) cps 0 - j) <= Qabs (nth i cps 0 - j).
Proof.
  intros Hlen. unfold nearest_interior.
  set (key := fun c => Qabs (c - j)).
  assert (Hne : interior cps <> []).
  { intros E. pose proof (interior_length cps) as H. rewrite E in H. cbn in H. lia. }
  destruct (argmin_spec key (interior cps) Hne) as [Hlt Hmin].
  rewrite interior_length in Hlt, Hmin.
  split; [lia|]. intros i Hi.
  specialize (Hmin (i - 1)%nat). rewrite !interior_nth in Hmin by lia.
  replace (S (i - 1)) with i in Hmin by lia.
  replace (argmin key (interior cps) + 1)%nat with (S (argmin key (interior cps)))
    by lia.
  apply Hmin. lia.
Qed.

Lemma marked_bounds cps pm k :
  (2 < List.length cps)%nat -> In k (marked cps pm) ->
  (1 <= k <= List.length cps - 2)%nat.
Proof.
  intros Hlen Hk. unfold marked in Hk. apply in_map_iff in Hk as (j & <- & _).
  now apply nearest_interior_spec.
Qed.

Lemma finalize_bins_merged cps cps_format pm pm_format :
  (2 < List.length cps)%nat ->
  List.length cps_format = List.length cps ->
  List.length pm_format = List.length pm ->
  exists c_final bin_labels pm_labels,
    _finalize_bins cps cps_format pm pm_format
      = inr (c_final, bin_labels, pm_labels) /\
    forall v, occurs v c_final <->
      occurs v pm \/ occurs v (drop_indices (marked cps pm) cps).
Proof.
  intros Hlen Hf Hp. unfold _finalize_bins.
  destruct (Nat.ltb_spec 2 (List.length cps)) as [_|]; [|lia].
  rewrite del_all_drop; [|apply sorted_desc_descending| |assumption].
  2:{ intros k Hk. rewrite sorted_desc_In in Hk.
      pose proof (marked_bounds cps pm k Hlen Hk). lia. }
  cbn [bind].
  unfold drop_indices.
  rewrite (drop_from_ext cps 0 _ (marked cps pm)) by (intros k; apply sorted_desc_In).
  rewrite (drop_from_ext cps_format 0 _ (marked cps pm)) by (intros k; apply sorted_desc_In).
  set (cps' := drop_from 0 (marked cps pm) cps).
  set (fmt' := drop_from 0 (marked cps pm) cps_format).
  assert (Hlen' : List.length (fmt' ++ pm_format) = List.length (cps' ++ pm)).
  { rewrite !length_app, Hp. f_equal. now apply drop_from_length. }
  assert (Hocc : forall v,
             occurs v (map fst (sorted_set (combine (cps' ++ pm) (fmt' ++ pm_format))))
             <-> occurs v pm \/ occurs v cps').
  { intros v. rewrite sorted_set_occurs, map_fst_combine by assumption.
    rewrite occurs_app. tauto. }
  destruct (sorted_set (combine (cps' ++ pm) (fmt' ++ pm_format)))
    as [|p z] eqn:Hz.
  - exfalso. specialize (Hocc (nth 0 cps 0)). cbn in Hocc.
    unfold occurs in Hocc at 1. rewrite InA_nil in Hocc. apply Hocc. right.
    apply drop_from_occurs. exists 0%nat. split; [lia|]. split; [|reflexivity].
    intros Hin. apply (marked_bounds cps pm 0 Hlen) in Hin. lia.
  - destruct (label_loop pm 0 0 (p :: z)) as [bl pl].
    do 3 eexists. split; [reflexivity|]. exact Hocc.
Qed.

End AssemblyFacts.

Module AssemblyClaims.

Import Binners AssemblyFacts.

(** C5, as the specification words it, fails: for the cut points 0, 5, 10
    and the point mass 5 the nearest interior cut point is the one at
    index 1, of value 5; it is deleted, and its value is still in the
    merged boundary list, where the point mass brings it back. *)
Lemma marked_cutpoint_still_in_merged_list :
  nearest_interior [0; 5; 10] 5 = 1%nat /\
  exists c_final bin_labels pm_labels,
    _finalize_bins [0; 5; 10] ["0"; "5"; "10"] [5] ["5"]
      = inr (c_final, bin_labels, pm_labels) /\
    occurs (nth 1 [0; 5; 10] 0) c_final.
Proof.
  split; [reflexivity|].
  exists [0; 5; 10], ["01: 0 - 5"; "03: 5 - 10"], ["02: 5"].
  split; [vm_compute; reflexivity|].
  unfold occurs. right. left. reflexivity.
Qed.

(** C5, amended.  In bin assembly with more than two cut points, each with
    its label: for every point mass the interior cut point nearest to it
    by absolute distance is marked; the marked indices, deduplicated and
    taken in descending order, are deleted, which leaves exactly the cut
    points at unmarked positions; the merged boundary list holds these and
    the point masses, and nothing else. *)
Theorem nearest_interior_cutpoints_removed cps cps_format pm pm_format :
  (2 < List.length cps)%nat ->
  List.length cps_format = List.length cps ->
  List.length pm_format = List.length pm ->
  (forall j, In j pm ->
     In (nearest_interior cps j) (marked cps pm) /\
     (1 <= nearest_interior cps j <= List.length cps - 2)%nat /\
     forall i, (1 <= i <= List.length cps - 2)%nat ->
       Qabs (nth (nearest_interior cps j) cps 0 - j) <= Qabs (nth i cps 0 - j)) /\
  (forall k, In k (marked cps pm) -> exists j, In j pm /\ k = nearest_interior cps j) /\
  del_all (sorted_desc (marked cps pm)) cps cps_format
    = inr (drop_indices (marked cps pm) cps,
           drop_indices (marked cps pm) cps_format) /\
  exists c_final bin_labels pm_labels,
    _finalize_bins cps cps_format pm pm_format
      = inr (c_final, bin_labels, pm_labels) /\
    forall v, occurs v c_final <->
      occurs v pm \/
      exists i, (i < List.length cps)%nat /\ ~ In i (marked cps pm) /\
                v == nth i cps 0.
Proof.
  intros Hlen Hf Hp. repeat split.
  - unfold marked. now apply in_map.
  - now apply nearest_interior_spec.
  - now apply nearest_interior_spec.
  - now apply nearest_interior_spec.
  - intros k Hk. unfold marked in Hk. apply in_map_iff in Hk as (j & <- & Hj).
    now exists j.
  - rewrite del_all_drop; [|apply sorted_desc_descending| |assumption].
    + unfold drop_indices.
      rewrite (drop_from_ext cps 0 _ (marked cps pm))
        by (intros k; apply sorted_desc_In).
      rewrite (drop_from_ext cps_format 0 _ (marked cps pm))
        by (intros k; apply sorted_desc_In).
      reflexivity.
    + intros k Hk. rewrite sorted_desc_In in Hk.
      pose proof (marked_bounds cps pm k Hlen Hk). lia.
  - destruct (finalize_bins_merged cps cps_format pm pm_format Hlen Hf Hp)
      as (c_final & bl & pl & Hfin & Hocc).
    exists c_final, bl, pl. split; [exact Hfin|].
    intros v. rewrite Hocc. unfold drop_indices.
    rewrite drop_from_occurs. cbn [Nat.add]. reflexivity.
Qed.

Lemma nearest_interior_cutpoints_removed_witness :
  exists c_final bin_labels pm_labels,
    _finalize_bins [0; 3; 6; 8; 10] ["0"; "3"; "6"; "8"; "10"] [5] ["5"]
      = inr (c_final, bin_labels, pm_labels) /\
    forall v, occurs v c_final <->
      occurs v [5] \/
      exists i, (i < 5)%nat /\ ~ In i (marked [0; 3; 6; 8; 10] [5]) /\
                v == nth i [0; 3; 6; 8; 10] 0.
Proof.
  apply (nearest_interior_cutpoints_removed
           [0; 3; 6; 8; 10] ["0"; "3"; "6"; "8"; "10"] [5] ["5"]).
  - cbn. lia.
  - reflexivity.
  - reflexivity.
Defined.

End AssemblyClaims.

(* ================================================================== *)
(** * Orders of magnitude and rounding to significant figures *)
(* ================================================================== *)

Module Magnitude.

(** ** Powers of ten *)

Lemma pow10_pos e : 0 < pow10 e.
Proof. unfold pow10. now apply Qpower_0_lt. Qed.

Lemma pow10_nonzero e : ~ pow10 e == 0.
Proof. intros H. pose proof (pow10_pos e) as Hp. rewrite H in Hp. discriminate. Qed.

Lemma pow10_add a b : pow10 (a + b) == pow10 a * pow10 b.
Proof. unfold pow10. apply Qpower_plus. discriminate. Qed.

Lemma pow10_opp a : pow10 (- a) == / pow10 a.
Proof. unfold pow10. apply Qpower_opp. Qed.

Lemma pow10_0 : pow10 0 == 1.
Proof. reflexivity. Qed.

Lemma pow10_1 : pow10 1 == 10.
Proof. reflexivity. Qed.

Lemma pow10_le a b : (a <= b)%Z -> pow10 a <= pow10 b.
Proof. intros H. unfold pow10. apply Qpower_le_compat_l; [assumption | discriminate]. Qed.

Lemma pow10_lt a b : (a < b)%Z -> pow10 a < pow10 b.
Proof. intros H. unfold pow10. apply Qpower_lt_compat_l; [assumption | reflexivity]. Qed.

Lemma pow10_lt_inv a b : pow10 a < pow10 b -> (a < b)%Z.
Proof. intros H. unfold pow10 in H. eapply Qpower_lt_compat_l_inv; [eassumption | reflexivity]. Qed.

Lemma pow10_Z e : (0 <= e)%Z -> pow10 e == inject_Z (10 ^ e).
Proof. intros H. unfold pow10. symmetry. now apply (Zpower_Qpower 10). Qed.

Lemma pow10_cancel a b : pow10 a * pow10 (b - a) == pow10 b.
Proof. rewrite <- pow10_add. now replace (a + (b - a))%Z with b by lia. Qed.

(** ** The integer logarithm *)

Lemma Zpow_Q (b : Z) e : (0 <= e)%Z -> inject_Z (b ^ e) == inject_Z b ^ e.
Proof. apply Zpower_Qpower. Qed.

Lemma ilog_up_spec fuel b n :
  (2 <= b)%Z -> (1 <= n)%Z -> (n < 2 ^ Z.of_nat fuel)%Z ->
  (b ^ ilog_up fuel b n <= n < b ^ (ilog_up fuel b n + 1))%Z.
Proof.
  intros Hb. revert n. induction fuel as [|f IH]; intros n Hn Hf.
  - cbn in Hf. lia.
  - cbn [ilog_up]. destruct (Z.ltb_spec n b) as [Hlt|Hge].
    + change (0 + 1)%Z with 1%Z. rewrite Z.pow_0_r, Z.pow_1_r. lia.
    + assert (H1 : (1 <= n / b)%Z).
      { apply Z.div_le_lower_bound; lia. }
      assert (H2 : (n / b < 2 ^ Z.of_nat f)%Z).
      { apply Z.div_lt_upper_bound; [lia|].
        rewrite Nat2Z.inj_succ, Z.pow_succ_r in Hf by lia.
        assert (0 < 2 ^ Z.of_nat f)%Z by (apply Z.pow_pos_nonneg; lia). nia. }
      specialize (IH _ H1 H2).
      pose proof (ilog_up_nonneg f b (n / b)) as Hr.
      set (r := ilog_up f b (n / b)) in *.
      replace (1 + r)%Z with (Z.succ r) by lia.
      replace (Z.succ r + 1)%Z with (Z.succ (r + 1)) by lia.
      rewrite !Z.pow_succ_r by lia.
      pose proof (Z.mul_div_le n b ltac:(lia)) as Hd1.
      pose proof (Z.mul_succ_div_gt n b ltac:(lia)) as Hd2.
      nia.
Qed.

Lemma ilog_down_spec fuel b n d :
  (2 <= b)%Z -> (0 < n)%Z ->
  (d <= n * 2 ^ Z.of_nat fuel)%Z ->
  let k := ilog_down fuel b n d in
  (d <= n * b ^ k)%Z /\ ((0 < k)%Z -> (n * b ^ (k - 1) < d)%Z).
Proof.
  intros Hb. revert n. induction fuel as [|f IH]; intros n Hn Hf; cbn [ilog_down].
  - cbn in *. split; lia.
  - destruct (Z.leb_spec d n) as [Hle|Hgt].
    + rewrite Z.pow_0_r. split; lia.
    + assert (Hf' : (d <= n * b * 2 ^ Z.of_nat f)%Z).
      { rewrite Nat2Z.inj_succ, Z.pow_succ_r in Hf by lia.
        assert (0 < 2 ^ Z.of_nat f)%Z by (apply Z.pow_pos_nonneg; lia). nia. }
      destruct (IH (n * b)%Z ltac:(nia) Hf') as [H1 H2].
      pose proof (ilog_down_nonneg f b (n * b) d) as Hk.
      set (k := ilog_down f b (n * b) d) in *.
      replace (1 + k - 1)%Z with k by lia.
      replace (1 + k)%Z with (Z.succ k) by lia.
      rewrite Z.pow_succ_r by lia. split; [nia|]. intros _.
      destruct (Z.eq_dec k 0) as [E|E].
      * rewrite E. cbn. lia.
      * specialize (H2 ltac:(lia)).
        replace k with (Z.succ (k - 1)) at 1 by lia.
        rewrite Z.pow_succ_r by lia. nia.
Qed.

Lemma Qpower_base_pos (b : Z) e : (2 <= b)%Z -> 0 < inject_Z b ^ e.
Proof.
  intros Hb. apply Qpower_0_lt. unfold Qlt. cbn. lia.
Qed.

Lemma base_gt_1 (b : Z) : (2 <= b)%Z -> 1 < inject_Z b.
Proof. intros Hb. unfold Qlt. cbn. lia. Qed.

(** [floor_log b x] is the exponent [m] with [b^m <= x < b^(m+1)]. *)
Lemma floor_log_spec b x :
  (2 <= b)%Z -> 0 < x ->
  inject_Z b ^ floor_log b x <= x /\ x < inject_Z b ^ (floor_log b x + 1).
Proof.
  intros Hb Hx. destruct x as [n d].
  assert (Hn : (0 < n)%Z) by (unfold Qlt in Hx; cbn in Hx; lia).
  unfold floor_log. cbn [Qnum Qden].
  destruct (Z.leb_spec (Zpos d) n) as [Hle|Hgt].
  - set (N := (n / Zpos d)%Z).
    assert (HN : (1 <= N)%Z) by (apply Z.div_le_lower_bound; lia).
    assert (Hfuel : (N < 2 ^ Z.of_nat (S (Z.to_nat (Z.log2 N))))%Z).
    { pose proof (Z.log2_spec N ltac:(lia)) as [_ H].
      pose proof (Z.log2_nonneg N).
      rewrite Nat2Z.inj_succ, Z2Nat.id by lia. exact H. }
    pose proof (ilog_up_spec _ b N Hb HN Hfuel) as [H1 H2].
    pose proof (ilog_up_nonneg (S (Z.to_nat (Z.log2 N))) b N) as Hr.
    set (r := ilog_up (S (Z.to_nat (Z.log2 N))) b N) in *.
    pose proof (Z.mul_div_le n (Zpos d) ltac:(lia)) as Hd1.
    pose proof (Z.mul_succ_div_gt n (Zpos d) ltac:(lia)) as Hd2.
    fold N in Hd1, Hd2.
    rewrite <- !Zpow_Q by lia. unfold Qle, Qlt. cbn [Qnum Qden inject_Z].
    split; nia.
  - assert (Hfuel : (Zpos d <= n * 2 ^ Z.of_nat (S (Z.to_nat (Z.log2_up (Zpos d)))))%Z).
    { pose proof (Z.log2_up_spec (Zpos d) ltac:(lia)) as [_ H].
      pose proof (Z.log2_up_nonneg (Zpos d)).
      rewrite Nat2Z.inj_succ, Z2Nat.id by lia.
      rewrite Z.pow_succ_r by lia.
      assert (0 < 2 ^ Z.log2_up (Zpos d))%Z by (apply Z.pow_pos_nonneg; lia).
      nia. }
    pose proof (ilog_down_spec _ b n (Zpos d) Hb Hn Hfuel) as [H1 H2].
    assert (Hk : (1 <= ilog_down (S (Z.to_nat (Z.log2_up (Zpos d)))) b n (Zpos d))%Z).
    { cbn [ilog_down]. destruct (Z.leb_spec (Zpos d) n); [lia|].
      pose proof (ilog_down_nonneg (Z.to_nat (Z.log2_up (Zpos d))) b (n * b) (Zpos d)).
      lia. }
    set (k := ilog_down (S (Z.to_nat (Z.log2_up (Zpos d)))) b n (Zpos d)) in *.
    specialize (H2 ltac:(lia)).
    split.
    + rewrite Qpower_opp. apply Qle_shift_inv_r; [now apply Qpower_base_pos|].
      rewrite <- Zpow_Q by lia. unfold Qle. cbn [Qnum Qden inject_Z Qmult].
      rewrite Pos.mul_1_r. lia.
    + replace (- k + 1)%Z with (- (k - 1))%Z by lia.
      rewrite Qpower_opp. apply Qlt_shift_inv_l; [now apply Qpower_base_pos|].
      rewrite <- Zpow_Q by lia. unfold Qlt. cbn [Qnum Qden inject_Z Qmult].
      rewrite Pos.mul_1_r. lia.
Qed.

Lemma floor_log_unique b x m :
  (2 <= b)%Z ->
  inject_Z b ^ m <= x -> x < inject_Z b ^ (m + 1) -> floor_log b x = m.
Proof.
  intros Hb H1 H2.
  assert (Hx : 0 < x).
  { eapply Qlt_le_trans; [|exact H1]. now apply Qpower_base_pos. }
  destruct (floor_log_spec b x Hb Hx) as [H3 H4].
  assert (m < floor_log b x + 1)%Z.
  { apply Qpower_lt_compat_l_inv with (q := inject_Z b); [|now apply base_gt_1].
    eapply Qle_lt_trans; eassumption. }
  assert (floor_log b x < m + 1)%Z.
  { apply Qpower_lt_compat_l_inv with (q := inject_Z b); [|now apply base_gt_1].
    eapply Qle_lt_trans; eassumption. }
  lia.
Qed.

Lemma floor_log_comp b x y :
  (2 <= b)%Z -> 0 < x -> x == y -> floor_log b x = floor_log b y.
Proof.
  intros Hb Hx Hxy. symmetry. apply floor_log_unique; [assumption| |].
  - rewrite <- Hxy. now apply floor_log_spec.
  - rewrite <- Hxy. now apply floor_log_spec.
Qed.

Lemma floor_log_mono b x y :
  (2 <= b)%Z -> 0 < x -> x <= y -> (floor_log b x <= floor_log b y)%Z.
Proof.
  intros Hb Hx Hxy.
  assert (Hy : 0 < y) by (eapply Qlt_le_trans; eassumption).
  destruct (floor_log_spec b x Hb Hx) as [H1 _].
  destruct (floor_log_spec b y Hb Hy) as [_ H2].
  assert (floor_log b x < floor_log b y + 1)%Z; [|lia].
  apply Qpower_lt_compat_l_inv with (q := inject_Z b); [|now apply base_gt_1].
  eapply Qle_lt_trans; [exact H1|]. eapply Qle_lt_trans; eassumption.
Qed.

End Magnitude.

Module Rounding.

Import Magnitude.

(** ** Rounding half to even *)

Lemma rhe_cases x :
  (x - inject_Z (Qfloor x) < 1 # 2 /\ round_half_even x = Qfloor x) \/
  (x - inject_Z (Qfloor x) == 1 # 2 /\
   round_half_even x = if Z.even (Qfloor x) then Qfloor x else (Qfloor x + 1)%Z) \/
  (1 # 2 < x - inject_Z (Qfloor x) /\ round_half_even x = (Qfloor x + 1)%Z).
Proof.
  unfold round_half_even.
  destruct (x - inject_Z (Qfloor x) ?= 1 # 2) eqn:H.
  - right. left. split; [now apply Qeq_alt | reflexivity].
  - left. split; [now apply Qlt_alt | reflexivity].
  - right. right. split; [now apply Qgt_alt | reflexivity].
Qed.

Lemma rhe_near_floor x :
  (Qfloor x <= round_half_even x <= Qfloor x + 1)%Z.
Proof.
  destruct (rhe_cases x) as [[_ ->]|[[_ ->]|[_ ->]]];
    try destruct (Z.even _); lia.
Qed.

Lemma rhe_Z z : round_half_even (inject_Z z) = z.
Proof.
  destruct (rhe_cases (inject_Z z)) as [[_ H]|[[H _]|[H _]]];
    rewrite Qfloor_Z in *; [assumption| |].
  - exfalso. assert (E : inject_Z z - inject_Z z == 0) by ring.
    rewrite E in H. discriminate H.
  - exfalso. assert (E : inject_Z z - inject_Z z == 0) by ring.
    rewrite E in H. discriminate H.
Qed.

#[global] Instance rhe_comp : Proper (Qeq ==> eq) round_half_even.
Proof.
  intros x y E. unfold round_half_even.
  rewrite (Qfloor_comp x y E).
  assert (E' : x - inject_Z (Qfloor y) == y - inject_Z (Qfloor y))
    by now rewrite E.
  now rewrite (Qcompare_comp _ _ E' (1 # 2) (1 # 2) (Qeq_refl _)).
Qed.

Lemma rhe_mono x y : x <= y -> (round_half_even x <= round_half_even y)%Z.
Proof.
  intros Hxy. pose proof (Qfloor_resp_le x y Hxy) as Hf.
  destruct (Z.eq_dec (Qfloor x) (Qfloor y)) as [E|Hne].
  - destruct (rhe_cases x) as [[Hx ->]|[[Hx ->]|[Hx ->]]];
      destruct (rhe_cases y) as [[Hy ->]|[[Hy ->]|[Hy ->]]];
      rewrite E in *; try destruct (Z.even (Qfloor y)); try lia;
      exfalso; lra.
  - pose proof (rhe_near_floor x). pose proof (rhe_near_floor y). lia.
Qed.

Lemma floor_opp x :
  (Qfloor (- x) = (- Qfloor x)%Z /\ x == inject_Z (Qfloor x)) \/
  (Qfloor (- x) = (- Qfloor x - 1)%Z /\ inject_Z (Qfloor x) < x).
Proof.
  pose proof (Qfloor_le x) as H1. pose proof (Qlt_floor x) as H2.
  pose proof (Qfloor_le (- x)) as H3. pose proof (Qlt_floor (- x)) as H4.
  rewrite inject_Z_plus in H2, H4. change (inject_Z 1) with 1 in H2, H4.
  destruct (Qlt_le_dec (inject_Z (Qfloor x)) x) as [Hlt|Hge].
  - right. split; [|assumption].
    assert (Ha : inject_Z (Qfloor (- x)) < inject_Z (- Qfloor x)).
    { rewrite inject_Z_opp. lra. }
    assert (Hb : inject_Z (- Qfloor x - 2) < inject_Z (Qfloor (- x))).
    { unfold Zminus. rewrite inject_Z_plus, inject_Z_opp.
      change (inject_Z (- (2))) with (- (2)). lra. }
    rewrite <- Zlt_Qlt in Ha, Hb. lia.
  - left. assert (E : x == inject_Z (Qfloor x)) by lra.
    split; [|assumption].
    rewrite E at 1. rewrite <- inject_Z_opp. apply Qfloor_Z.
Qed.

Lemma rhe_opp x : round_half_even (- x) = (- round_half_even x)%Z.
Proof.
  destruct (floor_opp x) as [[Hf E]|[Hf Hlt]].
  - rewrite (rhe_comp x _ E).
    assert (E' : - x == inject_Z (- Qfloor x)) by (rewrite inject_Z_opp; now rewrite <- E).
    rewrite (rhe_comp (- x) _ E'). now rewrite !rhe_Z.
  - destruct (rhe_cases x) as [[Hx ->]|[[Hx ->]|[Hx ->]]];
      destruct (rhe_cases (- x)) as [[Hy ->]|[[Hy ->]|[Hy ->]]];
      rewrite Hf in *;
      unfold Zminus in Hy; rewrite !inject_Z_plus, !inject_Z_opp in Hy;
      change (inject_Z 1) with 1 in Hy; try (exfalso; lra); try lia.
    replace (- Qfloor x - 1)%Z with (Z.pred (- Qfloor x)) by lia.
    rewrite Z.even_pred, Z.odd_opp, <- Z.negb_even.
    destruct (Z.even (Qfloor x)); cbn; lia.
Qed.

Lemma rhe_bounds a b x :
  inject_Z a <= x -> x <= inject_Z b -> (a <= round_half_even x <= b)%Z.
Proof.
  intros Ha Hb. apply rhe_mono in Ha, Hb. rewrite rhe_Z in Ha, Hb. lia.
Qed.

(** ** Order of magnitude *)

Lemma Qabs_pos_lt x : ~ x == 0 -> 0 < Qabs x.
Proof.
  intros Hx. destruct (Qlt_le_dec 0 (Qabs x)) as [|Hle]; [assumption|].
  exfalso. apply Hx. pose proof (Qabs_nonneg x) as Hn.
  assert (E : Qabs x == 0) by lra.
  destruct (Qlt_le_dec x 0) as [Hneg|Hpos].
  - rewrite Qabs_neg in E by lra. lra.
  - rewrite Qabs_pos in E by lra. exact E.
Qed.

#[global] Instance order_of_mag_comp : Proper (Qeq ==> eq) order_of_mag.
Proof.
  intros x y E. unfold order_of_mag.
  assert (Hb : Qeqb x 0 = Qeqb y 0).
  { unfold Qeqb. now rewrite (Qcompare_comp x y E 0 0 (Qeq_refl 0)). }
  rewrite Hb. destruct (Qeqb y 0) eqn:Hy; [reflexivity|].
  apply Qeqb_neq in Hy. apply floor_log_comp; [lia| |now rewrite E].
  apply Qabs_pos_lt. now rewrite E.
Qed.

Lemma order_of_mag_pos x : 0 < x -> order_of_mag x = floor_log 10 x.
Proof.
  intros Hx. unfold order_of_mag.
  assert (Hz : Qeqb x 0 = false) by (apply Qeqb_neq; lra).
  rewrite Hz. apply floor_log_comp; [lia| |apply Qabs_pos; lra].
  rewrite Qabs_pos; lra.
Qed.

Lemma order_of_mag_opp x : order_of_mag (- x) = order_of_mag x.
Proof.
  unfold order_of_mag.
  destruct (Qeqb x 0) eqn:Hx.
  - apply Qeqb_eq in Hx. assert (H : Qeqb (- x) 0 = true) by (apply Qeqb_eq; lra).
    now rewrite H.
  - apply Qeqb_neq in Hx.
    assert (H : Qeqb (- x) 0 = false) by (apply Qeqb_neq; lra).
    rewrite H. apply floor_log_comp; [lia| |apply Qabs_opp].
    apply Qabs_pos_lt. lra.
Qed.

Lemma order_of_mag_0 : order_of_mag 0 = 0%Z.
Proof. reflexivity. Qed.

Lemma order_of_mag_spec x :
  0 < x -> pow10 (order_of_mag x) <= x /\ x < pow10 (order_of_mag x + 1).
Proof.
  intros Hx. rewrite order_of_mag_pos by assumption.
  apply (floor_log_spec 10 x); [lia | assumption].
Qed.

Lemma order_of_mag_unique x m :
  pow10 m <= x -> x < pow10 (m + 1) -> order_of_mag x = m.
Proof.
  intros H1 H2.
  assert (Hx : 0 < x) by (pose proof (pow10_pos m); lra).
  rewrite order_of_mag_pos by assumption.
  apply (floor_log_unique 10 x m); [lia | exact H1 | exact H2].
Qed.

Lemma order_of_mag_mono x y :
  0 < x -> x <= y -> (order_of_mag x <= order_of_mag y)%Z.
Proof.
  intros Hx Hxy. rewrite !order_of_mag_pos by lra.
  apply floor_log_mono; [lia | assumption | assumption].
Qed.

(** ** Proper-ness of the rounding functions *)

#[global] Instance np_round_comp : Proper (Qeq ==> eq ==> Qeq) Np.round.
Proof.
  intros x y E d ? <-. unfold Np.round.
  assert (E' : x * pow10 d == y * pow10 d) by now rewrite E.
  now rewrite (rhe_comp _ _ E').
Qed.

#[global] Instance round_sig_comp : Proper (eq ==> Qeq ==> Qeq) round_sig.
Proof.
  intros sf ? <- x y E. unfold round_sig.
  rewrite (order_of_mag_comp x y E). now rewrite E.
Qed.

#[global] Instance lower_bound_comp : Proper (eq ==> Qeq ==> Qeq) lower_bound.
Proof.
  intros sf ? <- x y E. unfold lower_bound, Np.floor.
  rewrite (order_of_mag_comp x y E).
  assert (E' : x * pow10 (sf - 1 - order_of_mag y)
               == y * pow10 (sf - 1 - order_of_mag y)) by now rewrite E.
  now rewrite (Qfloor_comp _ _ E').
Qed.

#[global] Instance upper_bound_comp : Proper (eq ==> Qeq ==> Qeq) upper_bound.
Proof.
  intros sf ? <- x y E. unfold upper_bound, Np.ceil.
  rewrite (order_of_mag_comp x y E).
  assert (E' : x * pow10 (sf - 1 - order_of_mag y)
               == y * pow10 (sf - 1 - order_of_mag y)) by now rewrite E.
  now rewrite (Qceiling_comp _ _ E').
Qed.

(** ** Numbers with [s + 1] significant figures *)

Lemma on_grid_order s N e :
  (0 <= s)%Z -> (10 ^ s <= N < 10 ^ (s + 1))%Z ->
  order_of_mag (inject_Z N * pow10 e) = (e + s)%Z.
Proof.
  intros Hs [H1 H2]. pose proof (pow10_pos e) as He.
  apply order_of_mag_unique.
  - rewrite pow10_add, (pow10_Z s) by assumption.
    rewrite (Qmult_comm (pow10 e)). apply Qmult_le_compat_r; [|lra].
    now rewrite <- Zle_Qle.
  - replace (e + s + 1)%Z with (e + (s + 1))%Z by lia.
    rewrite pow10_add, (pow10_Z (s + 1)) by lia.
    rewrite (Qmult_comm (pow10 e)). apply Qmult_lt_compat_r; [assumption|].
    now rewrite <- Zlt_Qlt.
Qed.

Lemma on_grid_fixed sf x :
  (1 <= sf)%Z -> on_grid (sf - 1) x -> round_sig sf x == x.
Proof.
  intros Hsf (N & e & HN & E). rewrite E.
  unfold round_sig. rewrite (on_grid_order (sf - 1) N e) by (assumption || lia).
  unfold Np.round.
  pose proof (pow10_nonzero e) as He. pose proof (pow10_nonzero (sf - 1)) as Hs.
  assert (Ey : inject_Z N * pow10 e / pow10 (e + (sf - 1)) * pow10 (sf - 1)
               == inject_Z N).
  { rewrite pow10_add. field. split; assumption. }
  rewrite (rhe_comp _ _ Ey), rhe_Z, pow10_add. field. assumption.
Qed.

Lemma on_grid_pos s x : (0 <= s)%Z -> on_grid s x -> 0 < x.
Proof.
  intros Hs (N & e & [H1 _] & E). rewrite E.
  apply Qmult_lt_0_compat; [|apply pow10_pos].
  assert (0 < 10 ^ s)%Z by (apply Z.pow_pos_nonneg; lia).
  change 0 with (inject_Z 0). rewrite <- Zlt_Qlt. lia.
Qed.

(** The top of a decade belongs to the next one. *)
Lemma on_grid_closed s N e x :
  (0 <= s)%Z -> (10 ^ s <= N <= 10 ^ (s + 1))%Z ->
  x == inject_Z N * pow10 e -> on_grid s x.
Proof.
  intros Hs [H1 H2] E.
  destruct (Z.eq_dec N (10 ^ (s + 1))) as [->|Hne].
  - exists (10 ^ s)%Z, (e + 1)%Z. split.
    + split; [lia|]. apply Z.pow_lt_mono_r; lia.
    + rewrite E, Z.pow_add_r, inject_Z_mult, pow10_add by lia.
      rewrite pow10_1. change (inject_Z (10 ^ 1)) with 10. ring.
  - exists N, e. split; [lia | exact E].
Qed.

(** Scaling a positive number to [s + 1] digits before the point. *)
Lemma scaled_bounds x s :
  0 < x ->
  pow10 s <= x * pow10 (s - order_of_mag x) /\
  x * pow10 (s - order_of_mag x) < pow10 (s + 1).
Proof.
  intros Hx. destruct (order_of_mag_spec x Hx) as [H1 H2].
  set (o := order_of_mag x) in *.
  pose proof (pow10_pos (s - o)) as Hp.
  split.
  - rewrite <- (pow10_cancel o s) at 1.
    apply Qmult_le_compat_r; [assumption | lra].
  - replace (s + 1)%Z with (o + 1 + (s - o))%Z by lia.
    rewrite (pow10_add (o + 1)). now apply Qmult_lt_compat_r.
Qed.

Lemma lower_bound_pos sf x :
  (1 <= sf)%Z -> 0 < x ->
  on_grid (sf - 1) (lower_bound sf x) /\ lower_bound sf x <= x.
Proof.
  intros Hsf Hx. unfold lower_bound, Np.floor.
  destruct (scaled_bounds x (sf - 1) Hx) as [H1 H2].
  set (p := (sf - 1 - order_of_mag x)%Z) in *.
  set (N := Qfloor (x * pow10 p)).
  pose proof (pow10_pos p) as Hp.
  assert (HN : (10 ^ (sf - 1) <= N < 10 ^ (sf - 1 + 1))%Z).
  { rewrite (pow10_Z (sf - 1)) in H1 by lia.
    rewrite (pow10_Z (sf - 1 + 1)) in H2 by lia. split.
    - rewrite <- (Qfloor_Z (10 ^ (sf - 1))). now apply Qfloor_resp_le.
    - rewrite Zlt_Qlt. pose proof (Qfloor_le (x * pow10 p)). fold N in H. lra. }
  split.
  - exists N, (- p)%Z. split; [exact HN|]. now rewrite pow10_opp.
  - apply Qle_shift_div_r; [assumption|]. apply Qfloor_le.
Qed.

Lemma upper_bound_pos sf x :
  (1 <= sf)%Z -> 0 < x ->
  on_grid (sf - 1) (upper_bound sf x) /\ x <= upper_bound sf x.
Proof.
  intros Hsf Hx. unfold upper_bound, Np.ceil.
  destruct (scaled_bounds x (sf - 1) Hx) as [H1 H2].
  set (p := (sf - 1 - order_of_mag x)%Z) in *.
  set (N := Qceiling (x * pow10 p)).
  pose proof (pow10_pos p) as Hp.
  assert (HN : (10 ^ (sf - 1) <= N <= 10 ^ (sf - 1 + 1))%Z).
  { rewrite (pow10_Z (sf - 1)) in H1 by lia.
    rewrite (pow10_Z (sf - 1 + 1)) in H2 by lia. split.
    - rewrite Zle_Qle. pose proof (Qle_ceiling (x * pow10 p)). fold N in H. lra.
    - rewrite <- (Qceiling_Z (10 ^ (sf - 1 + 1))). apply Qceiling_resp_le. lra. }
  split.
  - apply on_grid_closed with (N := N) (e := (- p)%Z); [lia | exact HN|].
    now rewrite pow10_opp.
  - apply Qle_shift_div_l; [assumption|]. apply Qle_ceiling.
Qed.

(** ** Rounding a positive number to significant figures *)

Lemma round_sig_pos_form sf x :
  (1 <= sf)%Z -> 0 < x ->
  let N := round_half_even (x * pow10 (sf - 1 - order_of_mag x)) in
  (10 ^ (sf - 1) <= N <= 10 ^ (sf - 1 + 1))%Z /\
  round_sig sf x == inject_Z N * pow10 (order_of_mag x - (sf - 1)).
Proof.
  intros Hsf Hx N.
  destruct (scaled_bounds x (sf - 1) Hx) as [H1 H2].
  rewrite (pow10_Z (sf - 1)) in H1 by lia.
  rewrite (pow10_Z (sf - 1 + 1)) in H2 by lia.
  split.
  - apply rhe_bounds; lra.
  - unfold round_sig, Np.round.
    pose proof (pow10_nonzero (order_of_mag x)) as Ho.
    pose proof (pow10_nonzero (sf - 1)) as Hs.
    assert (Ey : x / pow10 (order_of_mag x) * pow10 (sf - 1)
                 == x * pow10 (sf - 1 - order_of_mag x)).
    { unfold Zminus at 2. rewrite pow10_add, pow10_opp. now field. }
    rewrite (rhe_comp _ _ Ey). fold N.
    unfold Zminus at 2. rewrite pow10_add, pow10_opp. now field.
Qed.

Lemma round_sig_pos_grid sf x :
  (1 <= sf)%Z -> 0 < x -> on_grid (sf - 1) (round_sig sf x).
Proof.
  intros Hsf Hx. destruct (round_sig_pos_form sf x Hsf Hx) as [HN E].
  eapply on_grid_closed; [lia | exact HN | exact E].
Qed.

Lemma round_sig_pos_bounds sf x :
  (1 <= sf)%Z -> 0 < x ->
  pow10 (order_of_mag x) <= round_sig sf x /\
  round_sig sf x <= pow10 (order_of_mag x + 1).
Proof.
  intros Hsf Hx. destruct (round_sig_pos_form sf x Hsf Hx) as [[H1 H2] E].
  rewrite E. set (N := round_half_even _) in *.
  set (o := order_of_mag x).
  pose proof (pow10_pos (o - (sf - 1))) as Hp.
  split.
  - rewrite <- (pow10_cancel (sf - 1) o), (pow10_Z (sf - 1)) by lia.
    apply Qmult_le_compat_r; [|lra]. now rewrite <- Zle_Qle.
  - replace (o + 1)%Z with (sf - 1 + 1 + (o - (sf - 1)))%Z by lia.
    rewrite (pow10_add (sf - 1 + 1)), (pow10_Z (sf - 1 + 1)) by lia.
    apply Qmult_le_compat_r; [|lra]. now rewrite <- Zle_Qle.
Qed.

Lemma round_sig_pos sf x : (1 <= sf)%Z -> 0 < x -> 0 < round_sig sf x.
Proof.
  intros Hsf Hx. destruct (round_sig_pos_bounds sf x Hsf Hx) as [H _].
  pose proof (pow10_pos (order_of_mag x)). lra.
Qed.

Lemma round_sig_mono_pos sf x y :
  (1 <= sf)%Z -> 0 < x -> x <= y -> round_sig sf x <= round_sig sf y.
Proof.
  intros Hsf Hx Hxy. assert (Hy : 0 < y) by lra.
  pose proof (order_of_mag_mono x y Hx Hxy) as Ho.
  destruct (Z.eq_dec (order_of_mag x) (order_of_mag y)) as [E|Hne].
  - destruct (round_sig_pos_form sf x Hsf Hx) as [_ Ex].
    destruct (round_sig_pos_form sf y Hsf Hy) as [_ Ey].
    rewrite Ex, Ey, E.
    pose proof (pow10_pos (order_of_mag y - (sf - 1))) as Hp.
    pose proof (pow10_pos (sf - 1 - order_of_mag y)) as Hq.
    apply Qmult_le_compat_r; [|lra]. rewrite <- Zle_Qle.
    apply rhe_mono. apply Qmult_le_compat_r; lra.
  - destruct (round_sig_pos_bounds sf x Hsf Hx) as [_ H1].
    destruct (round_sig_pos_bounds sf y Hsf Hy) as [H2 _].
    pose proof (pow10_le (order_of_mag x + 1) (order_of_mag y) ltac:(lia)).
    lra.
Qed.

(** ** Negative numbers and zero *)

Lemma round_sig_opp sf x : round_sig sf (- x) == - round_sig sf x.
Proof.
  unfold round_sig, Np.round. rewrite order_of_mag_opp.
  set (o := order_of_mag x). pose proof (pow10_nonzero o) as Ho.
  pose proof (pow10_nonzero (sf - 1)) as Hs.
  assert (Ey : - x / pow10 o * pow10 (sf - 1) == - (x / pow10 o * pow10 (sf - 1)))
    by now field.
  rewrite (rhe_comp _ _ Ey), rhe_opp, inject_Z_opp. now field.
Qed.

Lemma lower_bound_opp sf x : lower_bound sf (- x) == - upper_bound sf x.
Proof.
  unfold lower_bound, upper_bound, Np.floor, Np.ceil, Qceiling.
  rewrite order_of_mag_opp. set (p := (sf - 1 - order_of_mag x)%Z).
  pose proof (pow10_nonzero p) as Hp.
  assert (Ey : - x * pow10 p == - (x * pow10 p)) by ring.
  rewrite (Qfloor_comp _ _ Ey), inject_Z_opp. now field.
Qed.

Lemma upper_bound_opp sf x : upper_bound sf (- x) == - lower_bound sf x.
Proof.
  unfold lower_bound, upper_bound, Np.floor, Np.ceil, Qceiling.
  rewrite order_of_mag_opp. set (p := (sf - 1 - order_of_mag x)%Z).
  pose proof (pow10_nonzero p) as Hp.
  assert (Ey : - (- x * pow10 p) == x * pow10 p) by ring.
  rewrite (Qfloor_comp _ _ Ey), inject_Z_opp. now field.
Qed.

Lemma round_sig_0 sf : round_sig sf 0 == 0.
Proof.
  unfold round_sig, Np.round. rewrite order_of_mag_0.
  assert (Ey : 0 / pow10 0 * pow10 (sf - 1) == inject_Z 0).
  { change (inject_Z 0) with 0. change (pow10 0) with 1. field. }
  rewrite (rhe_comp _ _ Ey), rhe_Z. change (inject_Z 0) with 0.
  pose proof (pow10_nonzero (sf - 1)). now field.
Qed.

Lemma lower_bound_0 sf : lower_bound sf 0 == 0.
Proof.
  unfold lower_bound, Np.floor. rewrite order_of_mag_0.
  assert (Ey : 0 * pow10 (sf - 1 - 0) == inject_Z 0)
    by (change (inject_Z 0) with 0; ring).
  rewrite (Qfloor_comp _ _ Ey), Qfloor_Z. change (inject_Z 0) with 0.
  pose proof (pow10_nonzero (sf - 1 - 0)). now field.
Qed.

Lemma upper_bound_0 sf : upper_bound sf 0 == 0.
Proof.
  unfold upper_bound, Np.ceil. rewrite order_of_mag_0.
  assert (Ey : 0 * pow10 (sf - 1 - 0) == inject_Z 0)
    by (change (inject_Z 0) with 0; ring).
  rewrite (Qceiling_comp _ _ Ey), Qceiling_Z. change (inject_Z 0) with 0.
  pose proof (pow10_nonzero (sf - 1 - 0)). now field.
Qed.

(** ** The rounded floor and ceiling, for any sign *)

Lemma sign_cases x : x < 0 \/ x == 0 \/ 0 < x.
Proof.
  destruct (Q_dec x 0) as [[H|H]|H]; [now left | now right; right | now right; left].
Qed.

Lemma opp_opp_eq x : - - x == x.
Proof. ring. Qed.

Lemma lower_bound_le sf x : (1 <= sf)%Z -> lower_bound sf x <= x.
Proof.
  intros Hsf. destruct (sign_cases x) as [Hx|[Hx|Hx]].
  - rewrite <- (opp_opp_eq x) at 1. rewrite lower_bound_opp.
    destruct (upper_bound_pos sf (- x) Hsf ltac:(lra)) as [_ H]. lra.
  - rewrite Hx, lower_bound_0. apply Qle_refl.
  - now apply lower_bound_pos.
Qed.

Lemma upper_bound_ge sf x : (1 <= sf)%Z -> x <= upper_bound sf x.
Proof.
  intros Hsf. destruct (sign_cases x) as [Hx|[Hx|Hx]].
  - rewrite <- (opp_opp_eq x) at 2. rewrite upper_bound_opp.
    destruct (lower_bound_pos sf (- x) Hsf ltac:(lra)) as [_ H]. lra.
  - rewrite Hx, upper_bound_0. apply Qle_refl.
  - now apply upper_bound_pos.
Qed.

Lemma lower_bound_fixed sf x :
  (1 <= sf)%Z -> round_sig sf (lower_bound sf x) == lower_bound sf x.
Proof.
  intros Hsf. destruct (sign_cases x) as [Hx|[Hx|Hx]].
  - rewrite <- (opp_opp_eq x). rewrite lower_bound_opp, round_sig_opp.
    destruct (upper_bound_pos sf (- x) Hsf ltac:(lra)) as [H _].
    now rewrite (on_grid_fixed sf _ Hsf H).
  - rewrite Hx, lower_bound_0. apply round_sig_0.
  - destruct (lower_bound_pos sf x Hsf Hx) as [H _].
    now apply on_grid_fixed.
Qed.

Lemma upper_bound_fixed sf x :
  (1 <= sf)%Z -> round_sig sf (upper_bound sf x) == upper_bound sf x.
Proof.
  intros Hsf. destruct (sign_cases x) as [Hx|[Hx|Hx]].
  - rewrite <- (opp_opp_eq x). rewrite upper_bound_opp, round_sig_opp.
    destruct (lower_bound_pos sf (- x) Hsf ltac:(lra)) as [H _].
    now rewrite (on_grid_fixed sf _ Hsf H).
  - rewrite Hx, upper_bound_0. apply round_sig_0.
  - destruct (upper_bound_pos sf x Hsf Hx) as [H _].
    now apply on_grid_fixed.
Qed.

(** Rounding to significant figures is monotone. *)
Lemma round_sig_mono sf x y :
  (1 <= sf)%Z -> x <= y -> round_sig sf x <= round_sig sf y.
Proof.
  intros Hsf Hxy.
  assert (Hneg : forall z, z < 0 -> round_sig sf z < 0).
  { intros z Hz. rewrite <- (opp_opp_eq z), round_sig_opp.
    pose proof (round_sig_pos sf (- z) Hsf ltac:(lra)). lra. }
  destruct (sign_cases x) as [Hx|[Hx|Hx]]; destruct (sign_cases y) as [Hy|[Hy|Hy]];
    try (exfalso; lra).
  - rewrite <- (opp_opp_eq x), <- (opp_opp_eq y).
    rewrite (round_sig_opp sf (- x)), (round_sig_opp sf (- y)).
    pose proof (round_sig_mono_pos sf (- y) (- x) Hsf ltac:(lra) ltac:(lra)). lra.
  - rewrite Hy, round_sig_0. specialize (Hneg x Hx). lra.
  - specialize (Hneg x Hx). pose proof (round_sig_pos sf y Hsf Hy). lra.
  - rewrite Hx, Hy. apply Qle_refl.
  - rewrite Hx, round_sig_0. pose proof (round_sig_pos sf y Hsf Hy). lra.
  - now apply round_sig_mono_pos.
Qed.

End Rounding.

Module Arrays.

Import Magnitude Rounding.

(** ** [np.unique] *)

Lemma insert_uniq_hd a b l :
  HdRel Qlt b l -> b < a -> HdRel Qlt b (Np.insert_uniq a l).
Proof.
  intros Hl Hba. destruct l as [|c l]; cbn; [now constructor|].
  inversion Hl; subst.
  destruct (a ?= c); constructor; assumption.
Qed.

Lemma insert_uniq_sorted a l :
  strictly_increasing l -> strictly_increasing (Np.insert_uniq a l).
Proof.
  unfold strictly_increasing. induction l as [|b l IH]; intros Hl; cbn.
  - repeat constructor.
  - inversion Hl as [|? ? Hs Hh]; subst.
    destruct (a ?= b) eqn:Hc.
    + assumption.
    + apply Qlt_alt in Hc. constructor; [assumption | now constructor].
    + apply Qgt_alt in Hc. constructor; [now apply IH | now apply insert_uniq_hd].
Qed.

Lemma unique_sorted l : strictly_increasing (Np.unique l).
Proof.
  induction l as [|a l IH]; cbn; [constructor | now apply insert_uniq_sorted].
Qed.

Lemma insert_uniq_occurs a l v :
  occurs v (Np.insert_uniq a l) <-> v == a \/ occurs v l.
Proof.
  unfold occurs. induction l as [|b l IH]; cbn [Np.insert_uniq].
  - rewrite InA_cons, InA_nil. tauto.
  - destruct (a ?= b) eqn:Hc.
    + apply Qeq_alt in Hc. rewrite InA_cons. split; [tauto|].
      intros [Hv|H]; [left; now rewrite Hv | exact H].
    + rewrite !InA_cons. tauto.
    + rewrite !InA_cons, IH. tauto.
Qed.

Lemma unique_occurs l v : occurs v (Np.unique l) <-> occurs v l.
Proof.
  unfold occurs. induction l as [|a l IH]; cbn [Np.unique fold_right];
    [reflexivity|].
  fold (Np.unique l). rewrite (insert_uniq_occurs a (Np.unique l) v).
  unfold occurs. rewrite IH, InA_cons. reflexivity.
Qed.

Lemma occurs_map_round sf l v :
  occurs v (map (round_sig sf) l) <-> exists w, occurs w l /\ v == round_sig sf w.
Proof.
  unfold occurs. induction l as [|a l IH]; cbn [map].
  - rewrite InA_nil. split; [tauto|]. intros (w & Hw & _). now apply InA_nil in Hw.
  - rewrite InA_cons, IH. split.
    + intros [Hv|(w & Hw & Hv)].
      * exists a. split; [now left | exact Hv].
      * exists w. split; [now right | exact Hv].
    + intros (w & Hw & Hv). apply InA_cons in Hw as [Hw|Hw].
      * left. now rewrite Hv, Hw.
      * right. now exists w.
Qed.

Lemma In_occurs v l : In v l -> occurs v l.
Proof. intros H. apply InA_alt. exists v. split; [reflexivity | exact H]. Qed.

(** ** First and last element of an increasing sequence *)

Lemma sorted_above_head a l v :
  strictly_increasing (a :: l) -> occurs v l -> a < v.
Proof.
  unfold strictly_increasing, occurs. intros Hs Hv.
  apply Sorted_StronglySorted in Hs; [|exact Qlt_trans].
  inversion Hs as [|? ? _ Hall]; subst.
  apply InA_alt in Hv as (w & Hvw & Hw).
  rewrite Forall_forall in Hall. rewrite Hvw. now apply Hall.
Qed.

Lemma sorted_first l a :
  strictly_increasing l -> occurs a l ->
  (forall v, occurs v l -> a <= v) -> hd 0 l == a.
Proof.
  intros Hs Ha Hmin. destruct l as [|h t]; [now apply InA_nil in Ha|].
  cbn. unfold occurs in Ha. apply InA_cons in Ha as [Ha|Ha]; [now symmetry|].
  pose proof (sorted_above_head h t a Hs Ha) as Hlt.
  assert (a <= h) by (apply Hmin; now left). lra.
Qed.

Lemma sorted_last l b :
  strictly_increasing l -> occurs b l ->
  (forall v, occurs v l -> v <= b) -> last l 0 == b.
Proof.
  intros Hs Hb Hmax. induction l as [|h t IH]; [now apply InA_nil in Hb|].
  destruct t as [|h' t'].
  - cbn. unfold occurs in Hb. apply InA_cons in Hb as [Hb|Hb]; [now symmetry|].
    now apply InA_nil in Hb.
  - change (last (h :: h' :: t') 0) with (last (h' :: t') 0).
    apply IH.
    + unfold strictly_increasing in *. now inversion Hs.
    + unfold occurs in Hb. apply InA_cons in Hb as [Hb|Hb]; [|exact Hb].
      exfalso. assert (Hlt : h < h') by (apply (sorted_above_head h (h' :: t') h' Hs); now left).
      assert (h' <= b) by (apply Hmax; right; now left). lra.
    + intros v Hv. apply Hmax. now right.
Qed.

Lemma sorted_two l a b :
  strictly_increasing l -> occurs a l -> occurs b l -> ~ a == b ->
  (2 <= List.length l)%nat.
Proof.
  intros Hs Ha Hb Hne. destruct l as [|h [|h' t]]; cbn; try lia.
  - now apply InA_nil in Ha.
  - exfalso. apply Hne. unfold occurs in *.
    apply InA_cons in Ha as [Ha|Ha]; [|now apply InA_nil in Ha].
    apply InA_cons in Hb as [Hb|Hb]; [|now apply InA_nil in Hb].
    now rewrite Ha, Hb.
Qed.

(** ** The closing lines of the generators *)

Lemma round_cutpoints_occurs sf lb c ub v :
  occurs v (round_cutpoints sf lb c ub) <->
  exists w, (w == lb \/ occurs w c \/ w == ub) /\ v == round_sig sf w.
Proof.
  unfold round_cutpoints. rewrite unique_occurs, occurs_map_round.
  split; intros (w & Hw & Hv); exists w; (split; [|exact Hv]).
  - rewrite unique_occurs in Hw. unfold occurs in Hw.
    apply InA_cons in Hw as [Hw|Hw]; [now left|].
    apply InA_app_iff in Hw as [Hw|Hw]; [right; now left|].
    apply InA_cons in Hw as [Hw|Hw]; [right; now right | now apply InA_nil in Hw].
  - apply unique_occurs. unfold occurs.
    destruct Hw as [Hw|[Hw|Hw]].
    + now left.
    + right. apply InA_app_iff. now left.
    + right. apply InA_app_iff. right. now left.
Qed.

Lemma round_cutpoints_sorted sf lb c ub :
  strictly_increasing (round_cutpoints sf lb c ub).
Proof. apply unique_sorted. Qed.

Lemma round_cutpoints_nonempty sf lb c ub :
  (1 <= List.length (round_cutpoints sf lb c ub))%nat.
Proof.
  assert (H : occurs (round_sig sf lb) (round_cutpoints sf lb c ub)).
  { apply round_cutpoints_occurs. exists lb. split; [now left | reflexivity]. }
  destruct (round_cutpoints sf lb c ub); [now apply InA_nil in H | cbn; lia].
Qed.

(** With at least one significant figure the rounded floor and ceiling
    of a sample survive the final rounding. *)
Lemma round_cutpoints_ends sf lo hi c :
  (1 <= sf)%Z ->
  occurs (lower_bound sf lo) (round_cutpoints sf (lower_bound sf lo) c (upper_bound sf hi)) /\
  occurs (upper_bound sf hi) (round_cutpoints sf (lower_bound sf lo) c (upper_bound sf hi)).
Proof.
  intros Hsf. split; apply round_cutpoints_occurs.
  - exists (lower_bound sf lo). split; [now left|].
    symmetry. now apply lower_bound_fixed.
  - exists (upper_bound sf hi). split; [right; now right|].
    symmetry. now apply upper_bound_fixed.
Qed.

(** When every interior point lies between the rounded floor and ceiling,
    these are the first and the last cut point. *)
Lemma round_cutpoints_first_last sf lo hi c :
  (1 <= sf)%Z -> lo <= hi ->
  (forall v, occurs v c -> lower_bound sf lo <= v <= upper_bound sf hi) ->
  hd 0 (round_cutpoints sf (lower_bound sf lo) c (upper_bound sf hi))
    == lower_bound sf lo /\
  last (round_cutpoints sf (lower_bound sf lo) c (upper_bound sf hi)) 0
    == upper_bound sf hi.
Proof.
  intros Hsf Hlh Hc.
  pose proof (lower_bound_le sf lo Hsf) as Hl.
  pose proof (upper_bound_ge sf hi Hsf) as Hu.
  destruct (round_cutpoints_ends sf lo hi c Hsf) as [Ha Hb].
  assert (Hin : forall v,
             occurs v (round_cutpoints sf (lower_bound sf lo) c (upper_bound sf hi)) ->
             lower_bound sf lo <= v <= upper_bound sf hi).
  { intros v Hv. rewrite round_cutpoints_occurs in Hv.
    destruct Hv as (w & Hw & ->).
    assert (Hwb : lower_bound sf lo <= w <= upper_bound sf hi).
    { destruct Hw as [Hw|[Hw|Hw]]; [rewrite Hw; lra | now apply Hc | rewrite Hw; lra]. }
    split.
    - rewrite <- (lower_bound_fixed sf lo Hsf). apply round_sig_mono; tauto.
    - rewrite <- (upper_bound_fixed sf hi Hsf). apply round_sig_mono; tauto. }
  split.
  - apply sorted_first; [apply round_cutpoints_sorted | exact Ha|].
    intros v Hv. now apply Hin.
  - apply sorted_last; [apply round_cutpoints_sorted | exact Hb|].
    intros v Hv. now apply Hin.
Qed.

End Arrays.

Module Samples.

Import Magnitude Rounding Arrays.

(** ** Minimum and maximum *)

Lemma qmin_le a b : Np.qmin a b <= a /\ Np.qmin a b <= b.
Proof.
  unfold Np.qmin. destruct (Qleb a b) eqn:H.
  - apply Qleb_le in H. split; lra.
  - apply Qleb_gt in H. split; lra.
Qed.

Lemma qmax_ge a b : a <= Np.qmax a b /\ b <= Np.qmax a b.
Proof.
  unfold Np.qmax. destruct (Qleb a b) eqn:H.
  - apply Qleb_le in H. split; lra.
  - apply Qleb_gt in H. split; lra.
Qed.

Lemma fold_qmin_le l a :
  fold_left Np.qmin l a <= a /\ forall v, In v l -> fold_left Np.qmin l a <= v.
Proof.
  revert a. induction l as [|b l IH]; intros a; cbn.
  - split; [lra | intros v []].
  - destruct (IH (Np.qmin a b)) as [H1 H2]. destruct (qmin_le a b) as [Ha Hb].
    split; [lra|]. intros v [<-|Hv]; [lra | now apply H2].
Qed.

Lemma fold_qmax_ge l a :
  a <= fold_left Np.qmax l a /\ forall v, In v l -> v <= fold_left Np.qmax l a.
Proof.
  revert a. induction l as [|b l IH]; intros a; cbn.
  - split; [lra | intros v []].
  - destruct (IH (Np.qmax a b)) as [H1 H2]. destruct (qmax_ge a b) as [Ha Hb].
    split; [lra|]. intros v [<-|Hv]; [lra | now apply H2].
Qed.

Lemma min_le x lo : Np.min x = inr lo -> forall v, In v x -> lo <= v.
Proof.
  destruct x as [|a l]; [discriminate|]. cbn. intros [= <-] v Hv.
  destruct (fold_qmin_le l a) as [H1 H2].
  destruct Hv as [<-|Hv]; [exact H1 | now apply H2].
Qed.

Lemma max_ge x hi : Np.max x = inr hi -> forall v, In v x -> v <= hi.
Proof.
  destruct x as [|a l]; [discriminate|]. cbn. intros [= <-] v Hv.
  destruct (fold_qmax_ge l a) as [H1 H2].
  destruct Hv as [<-|Hv]; [exact H1 | now apply H2].
Qed.

Lemma min_le_max x lo hi : Np.min x = inr lo -> Np.max x = inr hi -> lo <= hi.
Proof.
  intros Hlo Hhi. destruct x as [|a l]; [discriminate|].
  pose proof (min_le _ _ Hlo a (or_introl eq_refl)).
  pose proof (max_ge _ _ Hhi a (or_introl eq_refl)). lra.
Qed.

(** ** [np.sort] *)

Lemma insert_sorted_In a l v : In v (Np.insert_sorted a l) <-> v = a \/ In v l.
Proof.
  induction l as [|b l IH]; cbn; [intuition|].
  destruct (Qleb a b); cbn; rewrite ?IH; intuition.
Qed.

Lemma sort_In l v : In v (Np.sort l) <-> In v l.
Proof.
  induction l as [|a l IH]; cbn; [reflexivity|].
  rewrite insert_sorted_In, IH. intuition.
Qed.

Lemma insert_sorted_length a l :
  List.length (Np.insert_sorted a l) = S (List.length l).
Proof.
  induction l as [|b l IH]; cbn; [reflexivity|].
  destruct (Qleb a b); cbn; [reflexivity | now rewrite IH].
Qed.

Lemma sort_length l : List.length (Np.sort l) = List.length l.
Proof.
  induction l as [|a l IH]; [reflexivity|].
  unfold Np.sort in *. cbn [fold_right Datatypes.length].
  now rewrite insert_sorted_length, IH.
Qed.

(** ** Interpolation *)

Lemma convex lo hi a b t :
  lo <= a <= hi -> lo <= b <= hi -> 0 <= t <= 1 ->
  lo <= a + t * (b - a) <= hi.
Proof.
  intros [Ha1 Ha2] [Hb1 Hb2] [Ht1 Ht2]. split.
  - assert (E : a + t * (b - a) - lo == (1 - t) * (a - lo) + t * (b - lo)) by ring.
    assert (0 <= (1 - t) * (a - lo)) by (apply Qmult_le_0_compat; lra).
    assert (0 <= t * (b - lo)) by (apply Qmult_le_0_compat; lra).
    lra.
  - assert (E : hi - (a + t * (b - a)) == (1 - t) * (hi - a) + t * (hi - b)) by ring.
    assert (0 <= (1 - t) * (hi - a)) by (apply Qmult_le_0_compat; lra).
    assert (0 <= t * (hi - b)) by (apply Qmult_le_0_compat; lra).
    lra.
Qed.

Lemma quantile_sorted_bounds s q lo hi :
  s <> [] -> (forall v, In v s -> lo <= v <= hi) -> 0 <= q <= 1 ->
  lo <= Np.quantile_sorted s q <= hi.
Proof.
  intros Hs Hin [Hq0 Hq1]. unfold Np.quantile_sorted.
  set (n := Z.of_nat (List.length s)).
  assert (Hn : (1 <= n)%Z) by (destruct s; [congruence | unfold n; cbn; lia]).
  set (h := q * inject_Z (n - 1)).
  assert (Hn1 : 0 <= inject_Z (n - 1)).
  { change 0 with (inject_Z 0). rewrite <- Zle_Qle. lia. }
  assert (Hh0 : 0 <= h) by (apply Qmult_le_0_compat; assumption).
  assert (Hh1 : h <= inject_Z (n - 1)).
  { unfold h. rewrite <- (Qmult_1_l (inject_Z (n - 1))) at 2.
    now apply Qmult_le_compat_r. }
  assert (Hlo : (0 <= Qfloor h <= n - 1)%Z).
  { split.
    - change 0%Z with (Qfloor (inject_Z 0)). now apply Qfloor_resp_le.
    - rewrite <- (Qfloor_Z (n - 1)). now apply Qfloor_resp_le. }
  apply convex.
  - apply Hin, nth_In. unfold n in *. lia.
  - apply Hin, nth_In. unfold n in *. lia.
  - pose proof (Qfloor_le h). pose proof (Qlt_floor h) as Hf.
    rewrite inject_Z_plus in Hf. change (inject_Z 1) with 1 in Hf. lra.
Qed.

Lemma linspace_bounds a b num l lo hi :
  Np.linspace a b num = inr l -> lo <= a <= hi -> lo <= b <= hi ->
  forall v, In v l -> lo <= v <= hi.
Proof.
  unfold Np.linspace. intros Hl Ha Hb v Hv.
  destruct (Z.ltb_spec num 0); [discriminate|].
  destruct (Z.eqb_spec num 0); [injection Hl as <-; destruct Hv|].
  destruct (Z.eqb_spec num 1).
  { injection Hl as <-. destruct Hv as [<-|[]]. exact Ha. }
  injection Hl as <-. apply in_map_iff in Hv as (i & <- & Hi).
  apply in_seq in Hi.
  assert (Hd : 0 < inject_Z (num - 1)).
  { change 0 with (inject_Z 0). rewrite <- Zlt_Qlt. lia. }
  assert (E : a + inject_Z (Z.of_nat i) * ((b - a) / inject_Z (num - 1))
              == a + inject_Z (Z.of_nat i) / inject_Z (num - 1) * (b - a)).
  { field. lra. }
  rewrite E. apply convex; [assumption | assumption|].
  split.
  - apply Qle_shift_div_l; [assumption|]. rewrite Qmult_0_l.
    change 0 with (inject_Z 0). rewrite <- Zle_Qle. lia.
  - apply Qle_shift_div_r; [assumption|]. rewrite Qmult_1_l.
    rewrite <- Zle_Qle. lia.
Qed.

Lemma quantile_valid q : Np.quantile_is_valid q = true -> 0 <= q <= 1.
Proof.
  unfold Np.quantile_is_valid. intros H. apply andb_true_iff in H as [H0 H1].
  apply Qleb_le in H0, H1. now split.
Qed.

(** The working endpoints lie between the rounded floor and ceiling. *)
Lemma endpoints_bounds sf x q lo hi ep :
  (1 <= sf)%Z -> Np.min x = inr lo -> Np.max x = inr hi ->
  endpoints x q (lower_bound sf lo) (upper_bound sf hi) = inr ep ->
  lower_bound sf lo <= fst ep <= upper_bound sf hi /\
  lower_bound sf lo <= snd ep <= upper_bound sf hi.
Proof.
  intros Hsf Hlo Hhi Hep.
  pose proof (lower_bound_le sf lo Hsf) as Hl.
  pose proof (upper_bound_ge sf hi Hsf) as Hu.
  pose proof (min_le_max x lo hi Hlo Hhi) as Hlh.
  assert (Hdefault : forall e,
            @ret (Q * Q) (lower_bound sf lo, upper_bound sf hi) = inr e ->
            lower_bound sf lo <= fst e <= upper_bound sf hi /\
            lower_bound sf lo <= snd e <= upper_bound sf hi).
  { intros e [= <-]. cbn. lra. }
  unfold endpoints in Hep.
  destruct q as [[|[n0|q0] [|[n1|q1] [|? ?]]]|]; try (now apply Hdefault).
  unfold Np.quantile in Hep. cbn [forallb] in Hep.
  destruct (Np.quantile_is_valid q0) eqn:H0; [|discriminate].
  destruct (Np.quantile_is_valid q1) eqn:H1; [|discriminate].
  cbn [andb negb] in Hep. destruct x as [|a l] eqn:Hx; [discriminate|].
  rewrite <- Hx in *. cbn [bind ret map nth] in Hep. injection Hep as <-.
  assert (Hs : Np.sort x <> []).
  { intros E. pose proof (sort_length x) as Hlen. rewrite E, Hx in Hlen.
    discriminate. }
  assert (Hin : forall v, In v (Np.sort x) -> lo <= v <= hi).
  { intros v Hv. rewrite sort_In in Hv. split;
      [exact (min_le x lo Hlo v Hv) | exact (max_ge x hi Hhi v Hv)]. }
  pose proof (quantile_sorted_bounds _ q0 lo hi Hs Hin (quantile_valid _ H0)).
  pose proof (quantile_sorted_bounds _ q1 lo hi Hs Hin (quantile_valid _ H1)).
  cbn [fst snd]. lra.
Qed.

End Samples.

Module GeneratorClaims.

Import Magnitude Rounding Arrays Samples Returns Configuration.

Section WithLibraries.

Context {M : MathLib}.

Lemma cutpoints_shape x q cuts ncuts sf c :
  Binners.cutpoints x q cuts ncuts sf = inr c ->
  exists lo hi ep c0,
    Np.min x = inr lo /\ Np.max x = inr hi /\
    endpoints x q (lower_bound sf lo) (upper_bound sf hi) = inr ep /\
    interior_points Binners.log_guard x ep cuts ncuts = inr c0 /\
    c = round_cutpoints sf (lower_bound sf lo) c0 (upper_bound sf hi).
Proof.
  unfold Binners.cutpoints. intros H.
  destruct (Np.min x) as [e|lo]; [discriminate|]. cbn [bind] in H.
  destruct (Np.max x) as [e|hi]; [discriminate|]. cbn [bind] in H.
  destruct (endpoints _ _ _ _) as [e|ep] eqn:Hep; [discriminate|]. cbn [bind] in H.
  destruct (interior_points _ _ _ _ _) as [e|c0] eqn:Hc; [discriminate|].
  cbn [bind ret] in H. injection H as <-.
  now exists lo, hi, ep, c0.
Qed.

Lemma numericVarCutpoints_shape x q cuts ncuts sf c f :
  Histograms.numericVarCutpoints x q cuts ncuts sf = inr (c, f) ->
  exists lo hi ep c0,
    Np.min x = inr lo /\ Np.max x = inr hi /\
    endpoints x q (lower_bound sf lo) (upper_bound sf hi) = inr ep /\
    interior_points Histograms.log_guard x ep cuts ncuts = inr c0 /\
    c = round_cutpoints sf (lower_bound sf lo) c0 (upper_bound sf hi).
Proof.
  unfold Histograms.numericVarCutpoints. intros H.
  destruct (Np.min x) as [e|lo]; [discriminate|]. cbn [bind] in H.
  destruct (Np.max x) as [e|hi]; [discriminate|]. cbn [bind] in H.
  destruct (endpoints _ _ _ _) as [e|ep] eqn:Hep; [discriminate|]. cbn [bind] in H.
  destruct (interior_points _ _ _ _ _) as [e|c0] eqn:Hc; [discriminate|].
  cbn [bind] in H.
  destruct (mapM _ _) as [e|fs]; [discriminate|]. cbn [bind ret] in H.
  injection H as <- <-.
  now exists lo, hi, ep, c0.
Qed.

(** What either generator returns is some interior points rounded between
    the rounded floor and ceiling of the sample. *)
Lemma generated_shape x q cuts ncuts sf c :
  Binners.cutpoints x q cuts ncuts sf = inr c \/
  (exists f, Histograms.numericVarCutpoints x q cuts ncuts sf = inr (c, f)) ->
  exists lo hi c0,
    Np.min x = inr lo /\ Np.max x = inr hi /\
    c = round_cutpoints sf (lower_bound sf lo) c0 (upper_bound sf hi).
Proof.
  intros [H|[f H]].
  - apply cutpoints_shape in H as (lo & hi & ep & c0 & ? & ? & _ & _ & ?).
    now exists lo, hi, c0.
  - apply numericVarCutpoints_shape in H as (lo & hi & ep & c0 & ? & ? & _ & _ & ?).
    now exists lo, hi, c0.
Qed.


Lemma endpoints_returns x q lb ub :
  x <> [] -> window_ok q = true -> returns (endpoints x q lb ub).
Proof.
  intros Hx Hq.
  destruct q as [[|[n0|q0] [|[n1|q1] [|? ?]]]|];
    try (unfold endpoints; now eexists).
  cbn in Hq. apply andb_true_iff in Hq as [H0 H1].
  now apply endpoints_valid.
Qed.


End WithLibraries.




End GeneratorClaims.

(* ================================================================== *)
(** * Point masses in the binning result *)
(* ================================================================== *)

Module PointMass.

Import Magnitude Rounding Arrays Samples Returns AssemblyFacts Binners.

(** ** The formatter does not see how a number is written *)

Lemma Qltb_comp x y a b : x == y -> a == b -> Qltb x a = Qltb y b.
Proof. intros E1 E2. unfold Qltb. now rewrite (Qcompare_comp _ _ E1 _ _ E2). Qed.

Lemma Qeqb_comp x y a b : x == y -> a == b -> Qeqb x a = Qeqb y b.
Proof. intros E1 E2. unfold Qeqb. now rewrite (Qcompare_comp _ _ E1 _ _ E2). Qed.

Lemma percent_f_comp prec x y : x == y -> percent_f prec x = percent_f prec y.
Proof.
  intros E. unfold percent_f.
  assert (E' : Qabs x * pow10 prec == Qabs y * pow10 prec) by now rewrite E.
  rewrite (rhe_comp _ _ E'), (Qltb_comp x y 0 0 E (Qeq_refl 0)). reflexivity.
Qed.

Lemma humanReadableNum_comp x y sf :
  x == y -> humanReadableNum x sf = humanReadableNum y sf.
Proof.
  intros E. unfold humanReadableNum.
  assert (Ea : Qabs x == Qabs y) by now rewrite E.
  rewrite (Qeqb_comp x y 0 0 E (Qeq_refl 0)).
  destruct (Qeqb y 0) eqn:Hz; [reflexivity|].
  assert (Hpos : 0 < Qabs x).
  { apply Qabs_pos_lt. apply Qeqb_neq in Hz. now rewrite E. }
  rewrite (Qltb_comp _ _ 1 1 Ea (Qeq_refl 1)).
  rewrite (floor_log_comp 10 _ _ ltac:(lia) Hpos Ea).
  rewrite (floor_log_comp 1000 _ _ ltac:(lia) Hpos Ea).
  destruct (Qltb (Qabs y) 1).
  - destruct (_ >=? _)%Z; [now apply percent_f_comp|].
    rewrite (percent_f_comp (sf - 1) (x / pow10 (floor_log 10 (Qabs y)))
               (y / pow10 (floor_log 10 (Qabs y)))) by now rewrite E.
    reflexivity.
  - set (m := floor_log 1000 (Qabs y)).
    assert (Ef : x / 1000 ^ m == y / 1000 ^ m) by now rewrite E.
    assert (Ep : mantissa_places sf (x / 1000 ^ m) = mantissa_places sf (y / 1000 ^ m)).
    { unfold mantissa_places.
      assert (Eb : Qabs (x / 1000 ^ m) == Qabs (y / 1000 ^ m)) by now rewrite Ef.
      now rewrite (Qltb_comp _ _ 10 10 Eb (Qeq_refl _)),
                  (Qltb_comp _ _ 100 100 Eb (Qeq_refl _)). }
    rewrite Ep, (percent_f_comp _ _ _ Ef). reflexivity.
Qed.

(** ** The labelling loop *)

Lemma label_loop_spec pm z i cntr :
  Forall2 is_range_label (fst (label_loop pm i cntr z)) (adjacent_pairs z) /\
  Forall2 is_point_label (snd (label_loop pm i cntr z)) (point_entries pm z).
Proof.
  revert i cntr. induction z as [|[v f] rest IH]; intros i cntr.
  - cbn. split; constructor.
  - cbn [label_loop point_entries filter fst].
    set (is_pm := existsb (Qeqb v) pm).
    set (cntr' := if is_pm then S cntr else cntr).
    destruct (IH (S i) cntr') as [Hb Hp].
    destruct (label_loop pm (S i) cntr' rest) as [bl pl] eqn:Hloop.
    cbn [fst snd] in *. split.
    + destruct rest as [|[v' f'] rest']; cbn [adjacent_pairs app].
      * exact Hb.
      * constructor; [|exact Hb]. now exists (i + cntr' + 1)%nat.
    + fold (point_entries pm rest). destruct is_pm; cbn [app].
      * constructor; [|exact Hp]. now exists (i + cntr + 1)%nat.
      * exact Hp.
Qed.

(** ** The merged list is in increasing order of its pairs *)

Lemma string_compare_antisym (s t : string) :
  String.compare s t = CompOpp (String.compare t s).
Proof. apply String.compare_antisym. Qed.

Lemma string_compare_refl (s : string) : String.compare s s = Eq.
Proof.
  pose proof (String.compare_antisym s s) as H.
  destruct (String.compare s s); cbn in H; congruence.
Qed.

Lemma pair_compare_gt a b : pair_compare a b = Gt -> pair_lt b a.
Proof.
  unfold pair_lt, pair_compare. rewrite <- (Qcompare_antisym (fst a) (fst b)).
  destruct (fst a ?= fst b); cbn; try discriminate; [|reflexivity].
  rewrite (string_compare_antisym (snd b) (snd a)).
  destruct (String.compare (snd a) (snd b)); cbn; congruence.
Qed.

Lemma insert_pair_hd a b l :
  HdRel pair_lt b l -> pair_lt b a -> HdRel pair_lt b (insert_pair a l).
Proof.
  intros Hl Hba. destruct l as [|c l]; cbn; [now constructor|].
  inversion Hl; subst.
  destruct (pair_compare a c); constructor; assumption.
Qed.

Lemma insert_pair_sorted a l : Sorted pair_lt l -> Sorted pair_lt (insert_pair a l).
Proof.
  induction l as [|b l IH]; intros Hl; cbn.
  - repeat constructor.
  - inversion Hl as [|? ? Hs Hh]; subst.
    destruct (pair_compare a b) eqn:Hc.
    + assumption.
    + constructor; [assumption | now constructor].
    + constructor; [now apply IH|]. apply insert_pair_hd; [assumption|].
      now apply pair_compare_gt.
Qed.

Lemma sorted_set_sorted l : Sorted pair_lt (sorted_set l).
Proof.
  induction l as [|a l IH]; cbn; [constructor | now apply insert_pair_sorted].
Qed.

Lemma insert_pair_In a l p : In p (insert_pair a l) -> p = a \/ In p l.
Proof.
  induction l as [|b l IH]; cbn; [intuition|].
  destruct (pair_compare a b); cbn; intuition.
Qed.

Lemma sorted_set_In l p : In p (sorted_set l) -> In p l.
Proof.
  induction l as [|a l IH]; cbn; [tauto|].
  intros H. apply insert_pair_In in H as [->|H]; [now left | right; now apply IH].
Qed.

(** When the label is a function of the value, the values of the merged
    list are strictly increasing. *)
Lemma functional_sorted (fmt : Q -> string -> Prop) z :
  (forall v w f g, v == w -> fmt v f -> fmt w g -> f = g) ->
  (forall p, In p z -> fmt (fst p) (snd p)) ->
  Sorted pair_lt z -> strictly_increasing (map fst z).
Proof.
  intros Hfun Hz Hs. unfold strictly_increasing.
  induction Hs as [|a l Hs IH Hh]; cbn; [constructor|].
  constructor.
  - apply IH. intros p Hp. apply Hz. now right.
  - destruct Hh as [|b l Hab]; cbn; constructor.
    unfold pair_lt, pair_compare in Hab.
    destruct (fst a ?= fst b) eqn:Hc; try discriminate.
    + exfalso. apply Qeq_alt in Hc.
      assert (E : snd a = snd b).
      { apply (Hfun (fst a) (fst b)); [assumption| |]; apply Hz; cbn; auto. }
      rewrite E in Hab.
      rewrite string_compare_refl in Hab. discriminate.
    + now apply Qlt_alt.
Qed.

(** ** Point masses among the merged values *)

Lemma existsb_occurs v l : existsb (Qeqb v) l = true <-> occurs v l.
Proof.
  unfold occurs. rewrite existsb_exists, InA_alt.
  split; intros (a & H1 & H2); exists a.
  - apply Qeqb_eq in H2. now split.
  - split; [assumption | now apply Qeqb_eq].
Qed.

Lemma sorted_tail a l : strictly_increasing (a :: l) -> strictly_increasing l.
Proof. unfold strictly_increasing. now inversion 1. Qed.

Lemma point_entries_match pm z :
  strictly_increasing (map fst z) -> strictly_increasing pm ->
  (forall a, occurs a pm -> occurs a (map fst z)) ->
  Forall2 (fun p a => fst p == a) (point_entries pm z) pm.
Proof.
  revert pm. induction z as [|p t IH]; intros pm Hz Hpm Hin.
  - destruct pm as [|a pm]; [constructor|].
    specialize (Hin a ltac:(now left)). now apply InA_nil in Hin.
  - cbn [map] in Hz. cbn [point_entries filter].
    destruct (existsb (Qeqb (fst p)) pm) eqn:He.
    + apply existsb_occurs in He.
      destruct pm as [|a0 pm']; [now apply InA_nil in He|].
      assert (E : fst p == a0).
      { unfold occurs in He. apply InA_cons in He as [He|He]; [assumption|].
        exfalso. pose proof (sorted_above_head a0 pm' (fst p) Hpm He) as H1.
        specialize (Hin a0 ltac:(now left)). cbn [map] in Hin.
        unfold occurs in Hin. apply InA_cons in Hin as [Hin|Hin]; [lra|].
        pose proof (sorted_above_head (fst p) (map fst t) a0 Hz Hin). lra. }
      constructor; [exact E|].
      assert (Hext : filter (fun q => existsb (Qeqb (fst q)) (a0 :: pm')) t
                     = filter (fun q => existsb (Qeqb (fst q)) pm') t).
      { apply filter_ext_in. intros q Hq. cbn [existsb].
        assert (Hlt : fst p < fst q).
        { apply (sorted_above_head (fst p) (map fst t) (fst q) Hz).
          apply In_occurs. now apply in_map. }
        assert (Hf : Qeqb (fst q) a0 = false) by (apply Qeqb_neq; lra).
        now rewrite Hf. }
      rewrite Hext. apply IH.
      * now apply sorted_tail in Hz.
      * now apply sorted_tail in Hpm.
      * intros a Ha.
        pose proof (sorted_above_head a0 pm' a Hpm Ha) as H1.
        specialize (Hin a ltac:(now right)). cbn [map] in Hin.
        unfold occurs in Hin. apply InA_cons in Hin as [Hin|Hin]; [lra | exact Hin].
    + apply IH; [now apply sorted_tail in Hz | assumption|].
      intros a Ha. specialize (Hin a Ha). cbn [map] in Hin.
      unfold occurs in Hin. apply InA_cons in Hin as [Hin|Hin]; [|exact Hin].
      exfalso. assert (Ht : existsb (Qeqb (fst p)) pm = true).
      { apply existsb_occurs. unfold occurs. now rewrite <- Hin. }
      congruence.
Qed.

(** ** Values and their labels, side by side *)

Lemma mapM_Forall2 {A B} (g : A -> result B) l fs :
  mapM g l = inr fs -> Forall2 (fun a b => g a = inr b) l fs.
Proof.
  revert fs. induction l as [|a l IH]; intros fs; cbn [mapM].
  - intros [= <-]. constructor.
  - destruct (g a) as [e|b] eqn:Ha; [discriminate|]. cbn [bind].
    destruct (mapM g l) as [e|bs]; [discriminate|]. cbn [bind ret].
    intros [= <-]. constructor; [assumption | now apply IH].
Qed.

Lemma drop_from_Forall2 {A B} (R : A -> B -> Prop) i idx l f :
  Forall2 R l f -> Forall2 R (drop_from i idx l) (drop_from i idx f).
Proof.
  intros H. revert i. induction H as [|a b l f Hab H IH]; intros i; cbn.
  - constructor.
  - destruct (existsb (Nat.eqb i) idx); [apply IH|]. constructor; [assumption | apply IH].
Qed.

Lemma Forall2_combine_In {A B} (R : A -> B -> Prop) l f p :
  Forall2 R l f -> In p (combine l f) -> R (fst p) (snd p).
Proof.
  intros H. induction H as [|a b l f Hab H IH]; cbn; [tauto|].
  intros [<-|Hp]; [exact Hab | now apply IH].
Qed.

Lemma Forall2_length_eq {A B} (R : A -> B -> Prop) l f :
  Forall2 R l f -> List.length f = List.length l.
Proof. intros H. symmetry. eapply Forall2_length; eassumption. Qed.

(** ** Scattering the bucketed rows, bringing in the point masses *)

Lemma scatter_spec mask vals b :
  scatter mask vals = inr b ->
  List.length b = List.length mask /\
  forall i l, nth_error b i = Some (Some l) -> In (Some l) vals.
Proof.
  revert vals b. induction mask as [|m mask IH]; intros vals b.
  - destruct vals; cbn; [|discriminate]. intros [= <-]. split; [reflexivity|].
    intros [|i] l H; discriminate H.
  - destruct m.
    + cbn [scatter]. destruct vals as [|v vals]; [discriminate|].
      destruct (scatter mask vals) as [e|r] eqn:Hr; [discriminate|]. cbn [bind ret].
      intros [= <-]. destruct (IH _ _ Hr) as [Hlen Hin]. split; [cbn; now rewrite Hlen|].
      intros [|i] l H; cbn in H.
      * injection H as ->. now left.
      * right. eapply Hin; eassumption.
    + assert (H : scatter (false :: mask) vals
                  = (r <- scatter mask vals ;; ret (None :: r))).
      { destruct vals; reflexivity. }
      rewrite H. clear H.
      destruct (scatter mask vals) as [e|r] eqn:Hr; [discriminate|]. cbn [bind ret].
      intros [= <-]. destruct (IH _ _ Hr) as [Hlen Hin]. split; [cbn; now rewrite Hlen|].
      intros [|i] l H; cbn in H; [discriminate|]. eapply Hin; eassumption.
Qed.

Lemma bring_step_length v l col b :
  List.length b = List.length col -> List.length (bring_step v l col b) = List.length col.
Proof.
  intros H. unfold bring_step. rewrite length_map, length_combine. lia.
Qed.

Lemma bring_step_nth v l col b r c :
  List.length b = List.length col -> nth_error col r = Some c ->
  exists br, nth_error b r = Some br /\
    nth_error (bring_step v l col b) r
    = Some (if Pd.isin [v] c then Some l else br).
Proof.
  revert b r. induction col as [|c0 col IH]; intros b r Hlen Hc.
  - destruct r; discriminate.
  - destruct b as [|b0 b]; [discriminate|]. destruct r as [|r]; cbn in *.
    + injection Hc as ->. now exists b0.
    + apply IH; [lia | assumption].
Qed.

Lemma bring_in_other col pm pl i b b' r c :
  bring_in col pm pl i b = inr b' ->
  List.length b = List.length col -> nth_error col r = Some c ->
  (forall a, In a pm -> Pd.isin [a] c = false) ->
  nth_error b' r = nth_error b r.
Proof.
  revert i b. induction pm as [|v pm IH]; intros i b Hb Hlen Hc Hno; cbn [bring_in] in Hb.
  - now injection Hb as <-.
  - destruct (nth_error pl i) as [l|]; [|discriminate].
    fold (bring_step v l col b) in Hb.
    rewrite (IH _ _ Hb (bring_step_length v l col b Hlen) Hc)
      by (intros a Ha; apply Hno; now right).
    destruct (bring_step_nth v l col b r c Hlen Hc) as (br & Hbr & ->).
    rewrite (Hno v) by now left. now rewrite Hbr.
Qed.

Lemma bring_in_match col pm1 a pm2 pl i b b' r c :
  bring_in col (pm1 ++ a :: pm2) pl i b = inr b' ->
  List.length b = List.length col -> nth_error col r = Some c ->
  Pd.isin [a] c = true ->
  (forall a', In a' pm2 -> Pd.isin [a'] c = false) ->
  exists l, nth_error pl (i + List.length pm1) = Some l /\
            nth_error b' r = Some (Some l).
Proof.
  revert i b. induction pm1 as [|v pm1 IH]; intros i b Hb Hlen Hc Ha Hno;
    cbn [app bring_in] in Hb.
  - destruct (nth_error pl i) as [l|] eqn:Hl; [|discriminate].
    fold (bring_step a l col b) in Hb.
    exists l. cbn. rewrite Nat.add_0_r. split; [exact Hl|].
    rewrite (bring_in_other _ _ _ _ _ _ _ _ Hb (bring_step_length a l col b Hlen) Hc Hno).
    destruct (bring_step_nth a l col b r c Hlen Hc) as (br & Hbr & ->).
    now rewrite Ha.
  - destruct (nth_error pl i) as [l|] eqn:Hl; [|discriminate].
    fold (bring_step v l col b) in Hb.
    destruct (IH _ _ Hb (bring_step_length v l col b Hlen) Hc Ha Hno) as (l' & Hl' & Hr).
    exists l'. split; [|exact Hr]. cbn [Datatypes.length].
    now replace (i + S (List.length pm1))%nat with (S i + List.length pm1)%nat by lia.
Qed.

(** ** Categories *)

Lemma insert_string_perm a l : Permutation (insert_string a l) (a :: l).
Proof.
  induction l as [|b l IH]; cbn; [reflexivity|].
  destruct (String.leb a b); [reflexivity|].
  rewrite IH. apply perm_swap.
Qed.

Lemma sort_strings_perm l : Permutation (sort_strings l) l.
Proof.
  induction l as [|a l IH]; cbn; [reflexivity|].
  fold (sort_strings l). rewrite insert_string_perm. now constructor.
Qed.

Lemma nodup_length_le (l : list string) :
  (List.length (nodup string_dec l) <= List.length l)%nat.
Proof.
  induction l as [|a l IH]; cbn; [lia|].
  destruct (in_dec string_dec a l); cbn; lia.
Qed.

Lemma has_dup_false l : Pd.has_dup l = false -> NoDup l.
Proof.
  unfold Pd.has_dup. intros H. apply negb_false_iff, Nat.eqb_eq in H.
  induction l as [|a l IH]; [constructor|].
  cbn in H. pose proof (nodup_length_le l).
  destruct (in_dec string_dec a l) as [Hin|Hnin]; cbn in H; [lia|].
  constructor; [assumption | apply IH; lia].
Qed.

Lemma Categorical_inv vals cats z :
  Pd.Categorical vals cats = inr z ->
  NoDup cats /\ cat_categories z = cats /\
  forall i o, nth_error vals i = Some o ->
    nth_error (cat_values z) i
    = Some (match o with
            | Some l => if existsb (String.eqb l) cats then Some l else None
            | None => None
            end).
Proof.
  unfold Pd.Categorical. destruct (Pd.has_dup cats) eqn:Hd; [discriminate|].
  intros [= <-]. split; [now apply has_dup_false|]. split; [reflexivity|].
  intros i o Hi. cbn [cat_values]. rewrite nth_error_map, Hi. reflexivity.
Qed.

Lemma existsb_string l cats : In l cats -> existsb (String.eqb l) cats = true.
Proof.
  intros H. apply existsb_exists. exists l. split; [assumption | apply String.eqb_refl].
Qed.

(** ** Lists in step *)

Lemma Forall2_nth_r {A B} (R : A -> B -> Prop) l1 l2 k b :
  Forall2 R l1 l2 -> nth_error l2 k = Some b ->
  exists a, nth_error l1 k = Some a /\ R a b.
Proof.
  intros H. revert k. induction H as [|x y l1 l2 Hxy H IH]; intros k Hk.
  - destruct k; discriminate.
  - destruct k as [|k]; cbn in *; [injection Hk as <-; now exists x | now apply IH].
Qed.

Lemma Forall2_nth_l {A B} (R : A -> B -> Prop) l1 l2 k a :
  Forall2 R l1 l2 -> nth_error l1 k = Some a ->
  exists b, nth_error l2 k = Some b /\ R a b.
Proof.
  intros H. revert k. induction H as [|x y l1 l2 Hxy H IH]; intros k Hk.
  - destruct k; discriminate.
  - destruct k as [|k]; cbn in *; [injection Hk as <-; now exists y | now apply IH].
Qed.

Lemma Forall2_In_r {A B} (R : A -> B -> Prop) l1 l2 b :
  Forall2 R l1 l2 -> In b l2 -> exists a, In a l1 /\ R a b.
Proof.
  intros H Hb. apply In_nth_error in Hb as [k Hk].
  destruct (Forall2_nth_r R l1 l2 k b H Hk) as (a & Ha & Hab).
  exists a. split; [eapply nth_error_In; eassumption | assumption].
Qed.

Lemma adjacent_pairs_map {A B} (g : A -> B) l :
  adjacent_pairs (map g l)
  = map (fun pp => (g (fst pp), g (snd pp))) (adjacent_pairs l).
Proof.
  induction l as [|a l IH]; [reflexivity|].
  destruct l as [|b l]; [reflexivity|].
  cbn [map adjacent_pairs fst snd] in *. now rewrite IH.
Qed.

Lemma adjacent_pairs_In {A} (l : list A) p q :
  In (p, q) (adjacent_pairs l) -> In p l /\ In q l.
Proof.
  induction l as [|a l IH]; [intros []|].
  destruct l as [|b l]; [intros []|].
  cbn [adjacent_pairs]. intros [E|Hin].
  - injection E as <- <-. split; [now left | right; now left].
  - destruct (IH Hin). split; now right.
Qed.

Lemma nth_error_app_mid {A} (l1 : list A) a l2 :
  nth_error (l1 ++ a :: l2) (List.length l1) = Some a.
Proof. induction l1; cbn; auto. Qed.

(** ** [_point_mass] *)

Lemma frequency_comp v w vals : v == w -> frequency v vals = frequency w vals.
Proof.
  intros E. unfold frequency.
  assert (H : filter (Qeqb v) vals = filter (Qeqb w) vals).
  { apply filter_ext. intros a. now apply Qeqb_comp. }
  now rewrite H.
Qed.

(** A value is a point mass when its share of the non-missing entries is
    above the threshold. *)
Lemma point_mass_spec col threshold v :
  occurs v (_point_mass col threshold) <->
  occurs v (Pd.non_nan col) /\ threshold < frequency v (Pd.non_nan col).
Proof.
  unfold _point_mass. rewrite unique_occurs. unfold occurs.
  rewrite !InA_alt. split.
  - intros (w & E & Hw). apply filter_In in Hw as [Hw Hf].
    apply Qltb_lt in Hf. split; [now exists w|].
    now rewrite (frequency_comp v w _ E).
  - intros [(w & E & Hw) Hf]. exists w. split; [assumption|].
    apply filter_In. split; [assumption|].
    apply Qltb_lt. now rewrite <- (frequency_comp v w _ E).
Qed.

Lemma point_mass_sorted col threshold :
  strictly_increasing (_point_mass col threshold).
Proof. apply unique_sorted. Qed.

(** ** The shape of what [_finalize_bins] returns *)

Lemma finalize_bins_inv cps fmts pm pmf c_final bl pl :
  List.length fmts = List.length cps ->
  _finalize_bins cps fmts pm pmf = inr (c_final, bl, pl) ->
  exists idx,
    let z := sorted_set (combine (drop_indices idx cps ++ pm)
                                 (drop_indices idx fmts ++ pmf)) in
    c_final = map fst z /\
    bl = fst (label_loop pm 0 0 z) /\ pl = snd (label_loop pm 0 0 z).
Proof.
  intros Hlen. unfold _finalize_bins.
  assert (Hdel : exists idx,
             (if (2 <? List.length cps)%nat
              then del_all (sorted_desc (marked cps pm)) cps fmts
              else ret (cps, fmts))
             = inr (drop_indices idx cps, drop_indices idx fmts)).
  { destruct (Nat.ltb_spec 2 (List.length cps)) as [H2|H2].
    - exists (sorted_desc (marked cps pm)).
      apply del_all_drop; [apply sorted_desc_descending| |assumption].
      intros k Hk. rewrite sorted_desc_In in Hk.
      pose proof (marked_bounds cps pm k H2 Hk). lia.
    - exists []. unfold drop_indices.
      rewrite !drop_from_none by (intros k []). reflexivity. }
  destruct Hdel as [idx ->]. cbn [bind]. intros H. exists idx. cbn zeta.
  destruct (sorted_set _) as [|p z]; [discriminate|].
  destruct (label_loop pm 0 0 (p :: z)) as [bl' pl'].
  injection H as <- <- <-. auto.
Qed.

Lemma sorted_split l1 a l2 :
  strictly_increasing (l1 ++ a :: l2) ->
  (forall x, In x l1 -> x < a) /\ (forall x, In x l2 -> a < x).
Proof.
  unfold strictly_increasing. intros Hs.
  apply Sorted_StronglySorted in Hs; [|exact Qlt_trans].
  induction l1 as [|h t IH]; cbn in Hs.
  - inversion Hs as [|? ? _ Hfa]; subst. rewrite Forall_forall in Hfa.
    split; [intros x []|exact Hfa].
  - inversion Hs as [|? ? Hs' Hfa]; subst. rewrite Forall_forall in Hfa.
    destruct (IH Hs') as [H1 H2]. split; [|exact H2].
    intros x [<-|Hx]; [|now apply H1].
    apply Hfa. apply in_or_app. right. now left.
Qed.

Lemma NoDup_app_apart {A} (l1 l2 : list A) x :
  NoDup (l1 ++ l2) -> In x l1 -> In x l2 -> False.
Proof.
  induction l1 as [|a l1 IH]; cbn; [tauto|].
  intros Hnd [<-|H1] H2; inversion Hnd as [|? ? Hn Hnd']; subst.
  - apply Hn. apply in_or_app. now right.
  - now apply IH.
Qed.

(** ** The steps of [cutter] *)

Lemma fmt_of_functional sig_fig v w f g :
  v == w -> fmt_of sig_fig v f -> fmt_of sig_fig w g -> f = g.
Proof.
  unfold fmt_of. intros E Hf Hg.
  rewrite (humanReadableNum_comp v w sig_fig E) in Hf. congruence.
Qed.

Section WithLibraries.

Context {M : MathLib} {P : Pandas}.

Lemma cutter_inv df x max_levels threshold sig_fig kw col z :
  Pd.loc df x = inr col ->
  _point_mass col threshold <> [] ->
  cutter df x max_levels threshold sig_fig kw = inr z ->
  let pm := _point_mass col threshold in
  exists cps fmts pmf c_final bl pl r b1 b2,
    Forall2 (fmt_of sig_fig) cps fmts /\
    Forall2 (fmt_of sig_fig) pm pmf /\
    _finalize_bins cps fmts pm pmf = inr (c_final, bl, pl) /\
    pd_cut (filter (fun v => negb (Pd.isin pm v)) col) c_final bl = inr r /\
    scatter (map (fun v => negb (Pd.isin pm v)) col) r = inr b1 /\
    bring_in col pm pl 0 b1 = inr b2 /\
    Pd.Categorical b2 (sort_strings (bl ++ pl)) = inr z.
Proof.
  intros Hloc Hne Hcut pm. unfold cutter in Hcut. rewrite Hloc in Hcut.
  cbn [bind] in Hcut. fold pm in Hcut.
  destruct pm as [|a pm'] eqn:Hpm; [now elim Hne|]. rewrite <- Hpm in *.
  match type of Hcut with
  | bind ?blk _ = _ => destruct blk as [e|[[cps fmts] pmf]] eqn:Hblock
  end; [discriminate|]. cbn [bind] in Hcut.
  destruct (_finalize_bins cps fmts pm pmf) as [e|[[c_final bl] pl]] eqn:Hfin;
    [discriminate|]. cbn [bind] in Hcut.
  destruct (pd_cut _ c_final bl) as [e|r] eqn:Hr; [discriminate|]. cbn [bind] in Hcut.
  destruct (scatter _ r) as [e|b1] eqn:Hs; [discriminate|]. cbn [bind] in Hcut.
  destruct (bring_in col pm pl 0 b1) as [e|b2] eqn:Hb; [discriminate|].
  cbn [bind] in Hcut.
  exists cps, fmts, pmf, c_final, bl, pl, r, b1, b2.
  assert (Hfmt : Forall2 (fmt_of sig_fig) cps fmts /\ Forall2 (fmt_of sig_fig) pm pmf).
  { clear -Hblock.
    match type of Hblock with
    | bind ?inner _ = _ => destruct inner as [e|[cps0 fmts0]] eqn:Hinner
    end; [discriminate|]. cbn [bind] in Hblock.
    destruct (mapM _ pm) as [e|pmf0] eqn:Hpmf; [discriminate|].
    cbn [bind ret] in Hblock. injection Hblock as <- <- <-.
    split; [|now apply mapM_Forall2 in Hpmf].
    destruct (Pd.non_nan _) as [|? ?]; [injection Hinner as <- <-; constructor|].
    destruct (call_cutpoints _ _ _) as [e|c]; [discriminate|]. cbn [bind] in Hinner.
    destruct (mapM _ c) as [e|fc] eqn:Hc; [discriminate|]. cbn [bind ret] in Hinner.
    injection Hinner as <- <-. now apply mapM_Forall2 in Hc. }
  destruct Hfmt as [H1 H2]. repeat split; assumption.
Qed.


End WithLibraries.

Lemma bucket_label v bins labels l :
  Pd.bucket v bins labels = Some l -> In l labels.
Proof.
  revert labels. induction bins as [|lo bins IH]; intros labels; [discriminate|].
  destruct bins as [|hi bins']; [discriminate|].
  destruct labels as [|l0 labels]; [discriminate|].
  cbn [Pd.bucket]. destruct (Qltb lo v && Qleb v hi).
  - intros [= <-]. now left.
  - intros H. right. now apply IH.
Qed.

(** The documented [pd.cut] answers with the labels it was given. *)
Lemma documented_cut_uses_labels : cut_uses_labels pandas_documented.
Proof.
  intros x bins labels r. cbn [pd_cut pandas_documented].
  unfold Pd.cut_right_closed.
  destruct (negb (Pd.increasing bins)); [discriminate|].
  destruct (negb _); [discriminate|].
  intros [= <-] l Hl. apply in_map_iff in Hl as ([q|] & Hq & _); [|discriminate].
  destruct bins as [|b0 bins]; [discriminate|].
  destruct labels as [|l0 labels]; [discriminate|].
  destruct (Qeqb q b0); [injection Hq as <-; now left|].
  now apply bucket_label in Hq.
Qed.



End PointMass.

(* ================================================================== *)
(** * More on the number formatter *)
(* ================================================================== *)

Module FormatterMore.

Import FormatterFacts FormatterClaims Returns Magnitude Rounding PointMass.

Lemma percent_f_opp prec x :
  0 < x -> percent_f prec (- x) = (z <- percent_f prec x ;; ret ("-" ++ z)).
Proof.
  intros Hx. unfold percent_f.
  destruct (prec <? 0)%Z; [reflexivity|].
  assert (E : Qabs (- x) * pow10 prec == Qabs x * pow10 prec)
    by now rewrite Qabs_opp.
  rewrite (rhe_comp _ _ E).
  assert (H1 : Qltb (- x) 0 = true) by (apply Qltb_lt; lra).
  assert (H2 : Qltb x 0 = false) by (apply Qltb_ge; lra).
  rewrite H1, H2. reflexivity.
Qed.

Lemma Qabs_div_pos x p : 0 < p -> Qabs (x / p) == Qabs x / p.
Proof.
  intros Hp. unfold Qdiv. rewrite Qabs_Qmult, Qabs_Qinv.
  rewrite (Qabs_pos p) by lra. reflexivity.
Qed.

Lemma mantissa_places_opp sf x :
  mantissa_places sf (- x) = mantissa_places sf x.
Proof.
  unfold mantissa_places.
  now rewrite (Qltb_comp _ _ 10 10 (Qabs_opp x) (Qeq_refl _)),
              (Qltb_comp _ _ 100 100 (Qabs_opp x) (Qeq_refl _)).
Qed.

(** X1.  The formatter treats a number and its negative alike: for a
    positive number, formatting its negative gives the same outcome, the
    text with a minus sign in front or the same error. *)
Theorem format_of_negative number sigFig :
  0 < number ->
  humanReadableNum (- number) sigFig
  = (z <- humanReadableNum number sigFig ;; ret ("-" ++ z)) /\
  Binners.human_readable_num (- number) sigFig
  = (z <- Binners.human_readable_num number sigFig ;; ret ("-" ++ z)).
Proof.
  intros Hx.
  enough (H : humanReadableNum (- number) sigFig
              = (z <- humanReadableNum number sigFig ;; ret ("-" ++ z)))
    by (split; exact H).
  unfold humanReadableNum.
  assert (Hz1 : Qeqb (- number) 0 = false) by (apply Qeqb_neq; lra).
  assert (Hz2 : Qeqb number 0 = false) by (apply Qeqb_neq; lra).
  rewrite Hz1, Hz2.
  assert (Ea : Qabs (- number) == Qabs number) by apply Qabs_opp.
  assert (Hpos : 0 < Qabs (- number)) by (apply Qabs_pos_lt; lra).
  rewrite (Qltb_comp _ _ 1 1 Ea (Qeq_refl 1)).
  rewrite (floor_log_comp 10 _ _ ltac:(lia) Hpos Ea).
  rewrite (floor_log_comp 1000 _ _ ltac:(lia) Hpos Ea).
  destruct (Qltb (Qabs number) 1).
  - destruct (_ >=? _)%Z; [now apply percent_f_opp|].
    set (m := floor_log 10 (Qabs number)).
    assert (Hp : 0 < number / pow10 m).
    { apply Qlt_shift_div_l; [apply pow10_pos | lra]. }
    rewrite (percent_f_comp (sigFig - 1) (- number / pow10 m) (- (number / pow10 m)))
      by (field; apply pow10_nonzero).
    rewrite (percent_f_opp _ _ Hp).
    destruct (percent_f (sigFig - 1) (number / pow10 m)); reflexivity.
  - set (m := floor_log 1000 (Qabs number)).
    assert (HP : 0 < 1000 ^ m) by (apply (Qpower_base_pos 1000); lia).
    assert (Hp : 0 < number / 1000 ^ m).
    { apply Qlt_shift_div_l; [exact HP | lra]. }
    assert (Ef : - number / 1000 ^ m == - (number / 1000 ^ m)).
    { field. intros E. rewrite E in HP. lra. }
    assert (Ep : mantissa_places sigFig (- number / 1000 ^ m)
                 = mantissa_places sigFig (number / 1000 ^ m)).
    { rewrite <- (mantissa_places_opp sigFig (number / 1000 ^ m)).
      unfold mantissa_places.
      assert (Eb : Qabs (- number / 1000 ^ m) == Qabs (- (number / 1000 ^ m)))
        by now rewrite Ef.
      now rewrite (Qltb_comp _ _ 10 10 Eb (Qeq_refl _)),
                  (Qltb_comp _ _ 100 100 Eb (Qeq_refl _)). }
    rewrite Ep, (percent_f_comp _ _ _ Ef), (percent_f_opp _ _ Hp).
    match goal with |- bind ?u _ = _ => destruct u as [e|unit] end;
      [reflexivity|].
    cbn [bind].
    destruct (percent_f _ (number / 1000 ^ m)); reflexivity.
Qed.


Lemma format_of_negative_witness :
  humanReadableNum (- (1234)) 3 = (z <- humanReadableNum 1234 3 ;; ret ("-" ++ z)).
Proof.
  apply (proj1 (format_of_negative 1234 3 ltac:(reflexivity))).
Defined.



Lemma unit_of_shape k :
  (0 <= k)%Z ->
  (if (k >? 5)%Z
   then ret ("E" ++ str_of_Z (3 * k))
   else match nth_error units (Z.to_nat k) with
        | Some u => ret u
        | None => raise (IndexError "list index out of range")
        end) = inr (unit_of k).
Proof.
  intros Hk. unfold unit_of. destruct (Z.gtb_spec k 5); [reflexivity|].
  assert (Hc : (k = 0 \/ k = 1 \/ k = 2 \/ k = 3 \/ k = 4 \/ k = 5)%Z) by lia.
  destruct Hc as [-> | [-> | [-> | [-> | [-> | ->]]]]]; reflexivity.
Qed.





End FormatterMore.

(* ================================================================== *)
(** * More on orders of magnitude and rounding *)
(* ================================================================== *)

Module RoundingMore.

Import Magnitude Rounding.



Lemma floor_bounds y :
  inject_Z (Qfloor y) <= y /\ y < inject_Z (Qfloor y) + 1.
Proof.
  split; [apply Qfloor_le|].
  pose proof (Qlt_floor y) as H. rewrite inject_Z_plus in H.
  change (inject_Z 1) with 1 in H. exact H.
Qed.

Lemma ceiling_bounds y :
  inject_Z (Qceiling y) - 1 < y /\ y <= inject_Z (Qceiling y).
Proof.
  split; [|apply Qle_ceiling].
  pose proof (Qceiling_lt y) as H. unfold Z.sub in H.
  rewrite inject_Z_plus, inject_Z_opp in H.
  change (inject_Z 1) with 1 in H. exact H.
Qed.


Lemma rhe_half y :
  Qabs (inject_Z (round_half_even y) - y) <= 1 # 2.
Proof.
  destruct (floor_bounds y) as [F1 F2].
  apply Qabs_Qle_condition.
  destruct (rhe_cases y) as [[H ->]|[[H E]|[H ->]]].
  - split; lra.
  - rewrite E. destruct (Z.even (Qfloor y)).
    + split; lra.
    + rewrite inject_Z_plus. change (inject_Z 1) with 1. split; lra.
  - rewrite inject_Z_plus. change (inject_Z 1) with 1. split; lra.
Qed.

Lemma round_sig_idem sig_fig x :
  (1 <= sig_fig)%Z ->
  round_sig sig_fig (round_sig sig_fig x) == round_sig sig_fig x.
Proof.
  intros Hsf.
  destruct (sign_cases x) as [Hneg|[Hz|Hpos]].
  - assert (Hp : 0 < - x) by lra.
    assert (E1 : round_sig sig_fig x == - round_sig sig_fig (- x)).
    { rewrite <- round_sig_opp.
      apply round_sig_comp; [reflexivity | symmetry; apply opp_opp_eq]. }
    transitivity (round_sig sig_fig (- round_sig sig_fig (- x))).
    { apply round_sig_comp; [reflexivity | exact E1]. }
    rewrite round_sig_opp, E1. apply Qopp_comp.
    apply on_grid_fixed; [exact Hsf|]. now apply round_sig_pos_grid.
  - transitivity (round_sig sig_fig 0).
    { apply round_sig_comp; [reflexivity|].
      transitivity (round_sig sig_fig 0); [|apply round_sig_0].
      apply round_sig_comp; [reflexivity | exact Hz]. }
    apply round_sig_comp; [reflexivity | now symmetry].
  - apply on_grid_fixed; [exact Hsf|]. now apply round_sig_pos_grid.
Qed.


End RoundingMore.

(* ================================================================== *)
(** * The cut strategies *)
(* ================================================================== *)

Module StrategyFacts.

Import Magnitude Rounding Arrays Samples Returns Configuration LogGuard
       GeneratorClaims RoundingMore.

Lemma sort_occurs l v : occurs v (Np.sort l) <-> occurs v l.
Proof.
  unfold occurs. rewrite !InA_alt. split; intros (w & E & Hw); exists w;
    (split; [exact E|]); now apply sort_In.
Qed.

Lemma linspace_unit_valid ncuts qs :
  Np.linspace 0 1 ncuts = inr qs -> forallb Np.quantile_is_valid qs = true.
Proof.
  intros H. apply forallb_forall. intros v Hv.
  assert (H01 : 0 <= v <= 1).
  { apply (linspace_bounds 0 1 ncuts qs 0 1 H); [lra | lra | exact Hv]. }
  unfold Np.quantile_is_valid. apply andb_true_intro.
  split; apply Qleb_le; lra.
Qed.

Lemma quantile_within x qs lo hi :
  Np.min x = inr lo -> Np.max x = inr hi ->
  forallb Np.quantile_is_valid qs = true ->
  exists c, Np.quantile x qs = inr c /\
            forall v, In v c -> lo <= v <= hi.
Proof.
  intros Hlo Hhi Hq. unfold Np.quantile. rewrite Hq. cbn [negb].
  destruct x as [|a x']; [discriminate|].
  eexists. split; [reflexivity|].
  intros v Hv. apply in_map_iff in Hv as (q & <- & Hq').
  apply quantile_sorted_bounds.
  - intros E. apply (f_equal (@List.length Q)) in E.
    rewrite sort_length in E. discriminate.
  - intros w Hw. apply (proj1 (sort_In _ _)) in Hw. split.
    + now apply (min_le _ _ Hlo).
    + now apply (max_ge _ _ Hhi).
  - apply quantile_valid. now apply (proj1 (forallb_forall _ _) Hq).
Qed.

Section WithLibraries.

Context {M : MathLib}.

Lemma cutpoints_steps x q cuts ncuts sf lo hi ep :
  Np.min x = inr lo -> Np.max x = inr hi ->
  endpoints x q (lower_bound sf lo) (upper_bound sf hi) = inr ep ->
  Binners.cutpoints x q cuts ncuts sf
  = (c <- interior_points Binners.log_guard x ep cuts ncuts ;;
     ret (round_cutpoints sf (lower_bound sf lo) c (upper_bound sf hi))).
Proof.
  intros Hlo Hhi Hep. unfold Binners.cutpoints.
  rewrite Hlo. cbn [bind]. rewrite Hhi. cbn [bind]. rewrite Hep. reflexivity.
Qed.

Lemma numericVarCutpoints_steps x q cuts ncuts sf lo hi ep :
  Np.min x = inr lo -> Np.max x = inr hi ->
  endpoints x q (lower_bound sf lo) (upper_bound sf hi) = inr ep ->
  Histograms.numericVarCutpoints x q cuts ncuts sf
  = (c <- interior_points Histograms.log_guard x ep cuts ncuts ;;
     f <- mapM (fun i => humanReadableNum i sf)
            (round_cutpoints sf (lower_bound sf lo) c (upper_bound sf hi)) ;;
     ret (round_cutpoints sf (lower_bound sf lo) c (upper_bound sf hi), f)).
Proof.
  intros Hlo Hhi Hep. unfold Histograms.numericVarCutpoints.
  rewrite Hlo. cbn [bind]. rewrite Hhi. cbn [bind]. rewrite Hep. reflexivity.
Qed.




Lemma log_spaced_plus_one ep0 ep1 ncuts :
  ((0 <= ncuts)%Z -> returns (log_spaced 1 ep0 ep1 ncuts)) /\
  ((ncuts < 0)%Z -> log_spaced 1 ep0 ep1 ncuts = inl negative_count).
Proof.
  unfold log_spaced, math_log10.
  assert (H0 : Qleb (Qabs ep0 + 1) 0 = false).
  { apply Qleb_gt. pose proof (Qabs_nonneg ep0). lra. }
  assert (H1 : Qleb (Qabs ep1 + 1) 0 = false).
  { apply Qleb_gt. pose proof (Qabs_nonneg ep1). lra. }
  rewrite H0, H1. cbn [bind ret]. split; intros Hn.
  - destruct (linspace_returns (sign ep0 * log10 (Qabs ep0 + 1))
                (sign ep1 * log10 (Qabs ep1 + 1)) ncuts Hn) as [l ->].
    now eexists.
  - now rewrite linspace_negative.
Qed.

(** X10.  The logp1 strategy never raises a range or a domain error: for
    a non-empty sample and a count that is not negative it returns, and 0
    is always among the cut points; a negative count is refused by
    [np.linspace]. *)
Theorem logp1_cutpoints_hold_zero x q ncuts sf :
  x <> [] -> window_ok q = true ->
  ((0 <= ncuts)%Z ->
   exists c,
     Binners.cutpoints x q (CutName "logp1") ncuts sf = inr c /\
     (forall c' f,
        Histograms.numericVarCutpoints x q (CutName "logp1") ncuts sf = inr (c', f) ->
        c' = c) /\
     occurs 0 c) /\
  ((ncuts < 0)%Z ->
   Binners.cutpoints x q (CutName "logp1") ncuts sf = inl negative_count /\
   Histograms.numericVarCutpoints x q (CutName "logp1") ncuts sf
     = inl negative_count).
Proof.
  intros Hx Hq.
  destruct (min_returns x Hx) as [lo Hlo]. destruct (max_returns x Hx) as [hi Hhi].
  destruct (endpoints_returns x q (lower_bound sf lo) (upper_bound sf hi) Hx Hq)
    as [ep Hep].
  rewrite (cutpoints_steps x q _ ncuts sf lo hi ep Hlo Hhi Hep).
  rewrite (numericVarCutpoints_steps x q _ ncuts sf lo hi ep Hlo Hhi Hep).
  cbn [interior_points String.eqb Ascii.eqb Bool.eqb].
  destruct (log_spaced_plus_one (fst ep) (snd ep) ncuts) as [Hret Hneg].
  split; intros Hn.
  - destruct (Hret Hn) as [l ->]. cbn [bind ret].
    eexists. split; [reflexivity|]. split.
    + intros c' f Hf.
      destruct (mapM _ _) as [e|fs]; [discriminate|]. now injection Hf as <- _.
    + apply round_cutpoints_occurs. exists 0. split.
      * right. left. apply sort_occurs, unique_occurs. now left.
      * symmetry. apply round_sig_0.
  - rewrite (Hneg Hn). split; reflexivity.
Qed.



(** X13.  A strategy name other than the four known ones is not
    rejected as such: no branch assigns [c], and both generators fail
    where [c] is read, with an [UnboundLocalError]. *)
Theorem unknown_strategy_leaves_c_unbound x q name ncuts sf :
  x <> [] -> window_ok q = true ->
  ~ In name ["linear"; "log"; "logp1"; "quantile"] ->
  Binners.cutpoints x q (CutName name) ncuts sf = inl (UnboundLocalError "c") /\
  Histograms.numericVarCutpoints x q (CutName name) ncuts sf
    = inl (UnboundLocalError "c").
Proof.
  intros Hx Hq Hname.
  destruct (min_returns x Hx) as [lo Hlo]. destruct (max_returns x Hx) as [hi Hhi].
  destruct (endpoints_returns x q (lower_bound sf lo) (upper_bound sf hi) Hx Hq)
    as [ep Hep].
  rewrite (cutpoints_steps x q _ ncuts sf lo hi ep Hlo Hhi Hep).
  rewrite (numericVarCutpoints_steps x q _ ncuts sf lo hi ep Hlo Hhi Hep).
  assert (H : forall g, interior_points g x ep (CutName name) ncuts
                        = inl (UnboundLocalError "c")).
  { intros g. unfold interior_points.
    destruct (String.eqb_spec name "linear") as [->|_];
      [exfalso; apply Hname; cbn; tauto|].
    destruct (String.eqb_spec name "log") as [->|_];
      [exfalso; apply Hname; cbn; tauto|].
    destruct (String.eqb_spec name "logp1") as [->|_];
      [exfalso; apply Hname; cbn; tauto|].
    destruct (String.eqb_spec name "quantile") as [->|_];
      [exfalso; apply Hname; cbn; tauto|].
    reflexivity. }
  rewrite !H. split; reflexivity.
Qed.

End WithLibraries.



Lemma logp1_cutpoints_hold_zero_witness :
  exists c,
    Binners.cutpoints (M := whole_orders) [200; 300; 400]
      Binners.default_qntl_cutoff (CutName "logp1") 5 3 = inr c /\
    occurs 0 c.
Proof.
  destruct (proj1 (logp1_cutpoints_hold_zero (M := whole_orders) [200; 300; 400]
                     Binners.default_qntl_cutoff 5 3
                     ltac:(discriminate) ltac:(reflexivity)))
    as (c & Hc & _ & H0).
  - lia.
  - exists c. split; assumption.
Defined.



Lemma unknown_strategy_leaves_c_unbound_witness :
  Binners.cutpoints (M := whole_orders) [1; 2; 3] Binners.default_qntl_cutoff
    (CutName "uniform") 5 3 = inl (UnboundLocalError "c").
Proof.
  refine (proj1 (unknown_strategy_leaves_c_unbound (M := whole_orders)
                   [1; 2; 3] Binners.default_qntl_cutoff "uniform" 5 3 _ _ _)).
  - discriminate.
  - reflexivity.
  - cbn. intros [H|[H|[H|[H|[]]]]]; discriminate.
Defined.

End StrategyFacts.

(* ================================================================== *)
(** * How many cut points *)
(* ================================================================== *)

Module Counts.

Import Magnitude Rounding Arrays Samples Returns Configuration LogGuard
       GeneratorClaims.

Lemma insert_uniq_length a l :
  (List.length (Np.insert_uniq a l) <= S (List.length l))%nat.
Proof.
  induction l as [|b l IH]; cbn [Np.insert_uniq List.length]; [lia|].
  destruct (a ?= b); cbn [List.length]; lia.
Qed.

Lemma unique_length l : (List.length (Np.unique l) <= List.length l)%nat.
Proof.
  induction l as [|a l IH]; [cbn; lia|].
  cbn [Np.unique fold_right List.length].
  pose proof (insert_uniq_length a (fold_right Np.insert_uniq [] l)).
  unfold Np.unique in IH. lia.
Qed.

Lemma round_cutpoints_length sf lb c ub :
  (List.length (round_cutpoints sf lb c ub) <= List.length c + 2)%nat.
Proof.
  unfold round_cutpoints.
  pose proof (unique_length (map (round_sig sf) (Np.unique (lb :: c ++ [ub])))) as H1.
  pose proof (unique_length (lb :: c ++ [ub])) as H2.
  rewrite length_map in H1. cbn [List.length] in H2. rewrite List.length_app in H2.
  cbn [List.length] in H2. lia.
Qed.

Lemma linspace_length a b n l :
  Np.linspace a b n = inr l -> List.length l = Z.to_nat n /\ (0 <= n)%Z.
Proof.
  unfold Np.linspace.
  destruct (Z.ltb_spec n 0) as [|Hn]; [discriminate|].
  destruct (Z.eqb_spec n 0) as [->|]; [intros E; injection E as <-; now split|].
  destruct (Z.eqb_spec n 1) as [->|]; [intros E; injection E as <-; now split|].
  intros E. injection E as <-. rewrite length_map, length_seq. now split.
Qed.

Section WithLibraries.

Context {M : MathLib}.

Lemma log_spaced_length shift ep0 ep1 n l :
  log_spaced shift ep0 ep1 n = inr l -> List.length l = Z.to_nat n /\ (0 <= n)%Z.
Proof.
  unfold log_spaced.
  destruct (math_log10 _) as [e|a]; [discriminate|]. cbn [bind].
  destruct (math_log10 _) as [e|b]; [discriminate|]. cbn [bind].
  destruct (Np.linspace _ _ n) as [e|l0] eqn:E; [discriminate|]. cbn [bind ret].
  intros H. injection H as <-. rewrite length_map.
  now apply linspace_length in E.
Qed.

Lemma interior_points_length g x ep cuts n c0 :
  interior_points g x ep cuts n = inr c0 ->
  (List.length c0 <= interior_budget cuts n)%nat /\
  (forall name, cuts = CutName name -> (0 <= n)%Z).
Proof.
  destruct cuts as [name|pts]; cbn [interior_points interior_budget].
  2:{ intros H. injection H as <-. split; [lia | discriminate]. }
  destruct (String.eqb name "logp1") eqn:Elp;
    (destruct (String.eqb name "linear");
     [intros H; apply linspace_length in H as [H1 H2];
      split; [lia | intros; exact H2]|]);
    (destruct (String.eqb name "log");
     [destruct (g _ _); [discriminate|]; intros H;
      apply log_spaced_length in H as [H1 H2];
      split; [lia | intros; exact H2]|]).
  - destruct (log_spaced 1 _ _ n) as [e|l] eqn:E; [discriminate|].
    cbn [bind ret]. intros H. injection H as <-.
    apply log_spaced_length in E as [H1 H2].
    rewrite sort_length.
    pose proof (insert_uniq_length 0 (Np.unique l)) as Hi.
    pose proof (unique_length l) as Hu.
    split; [|intros; exact H2].
    change (Np.unique (0 :: l)) with (Np.insert_uniq 0 (Np.unique l)). lia.
  - destruct (String.eqb name "quantile"); [|discriminate].
    destruct (Np.linspace 0 1 n) as [e|qs] eqn:E; [discriminate|]. cbn [bind].
    apply linspace_length in E as [H1 H2].
    unfold Np.quantile. destruct (negb _); [discriminate|].
    destruct x; [discriminate|]. intros H. injection H as <-.
    rewrite length_map. split; [lia | intros; exact H2].
Qed.

(** X24.  Whenever either generator returns there are at most
    [ncuts + 2] cut points for the linear, log and quantile strategies,
    one more for logp1, and two more than the points given explicitly;
    a strategy name only returns for a count that is not negative. *)
Theorem cutpoint_count_bound x q cuts ncuts sf c :
  Binners.cutpoints x q cuts ncuts sf = inr c \/
  (exists f, Histograms.numericVarCutpoints x q cuts ncuts sf = inr (c, f)) ->
  (1 <= List.length c <= interior_budget cuts ncuts + 2)%nat /\
  (forall name, cuts = CutName name -> (0 <= ncuts)%Z).
Proof.
  intros H.
  assert (Hshape : exists lo hi g ep c0,
            interior_points g x ep cuts ncuts = inr c0 /\
            c = round_cutpoints sf (lower_bound sf lo) c0 (upper_bound sf hi)).
  { destruct H as [H|[f H]].
    - apply cutpoints_shape in H as (lo & hi & ep & c0 & _ & _ & _ & Hc & E).
      now exists lo, hi, Binners.log_guard, ep, c0.
    - apply numericVarCutpoints_shape in H
        as (lo & hi & ep & c0 & _ & _ & _ & Hc & E).
      now exists lo, hi, Histograms.log_guard, ep, c0. }
  destruct Hshape as (lo & hi & g & ep & c0 & Hc0 & ->).
  apply interior_points_length in Hc0 as [H1 H2].
  pose proof (round_cutpoints_length sf (lower_bound sf lo) c0 (upper_bound sf hi)).
  pose proof (round_cutpoints_nonempty sf (lower_bound sf lo) c0 (upper_bound sf hi)).
  split; [lia | exact H2].
Qed.

End WithLibraries.

Lemma cutpoint_count_bound_witness :
  exists c,
    Binners.cutpoints (M := whole_orders) [2; 3; 4; 5; 100]
      Binners.default_qntl_cutoff (CutName "linear") 5 3 = inr c /\
    (1 <= List.length c <= 5 + 2)%nat.
Proof.
  eexists. split; [vm_compute; reflexivity|].
  refine (proj1 (cutpoint_count_bound (M := whole_orders) [2; 3; 4; 5; 100]
                   Binners.default_qntl_cutoff (CutName "linear") 5 3 _ _)).
  left. vm_compute. reflexivity.
Defined.

End Counts.

(* ================================================================== *)
(** * The two generators side by side *)
(* ================================================================== *)

Module TwoGenerators.

Import Magnitude Rounding Arrays Samples Returns Configuration LogGuard
       GeneratorClaims StrategyFacts.

Section WithLibraries.

Context {M : MathLib}.

(** Where the guard of [binners.cutpoints] lets the log strategy through
    and the strategy returns, the guard of [numericVarCutpoints] lets it
    through as well. *)
Lemma interior_points_guards x ep cuts ncuts c0 :
  interior_points Binners.log_guard x ep cuts ncuts = inr c0 ->
  interior_points Histograms.log_guard x ep cuts ncuts = inr c0.
Proof.
  destruct cuts as [name|pts]; [|exact (fun H => H)].
  cbn [interior_points].
  destruct (String.eqb name "linear"); [exact (fun H => H)|].
  destruct (String.eqb name "log"); [|exact (fun H => H)].
  unfold Binners.log_guard, Histograms.log_guard.
  destruct (Qleb (fst ep) 0) eqn:G; [discriminate|]. apply Qleb_gt in G.
  intros H.
  assert (G0 : Qeqb (fst ep) 0 = false) by (apply Qeqb_neq; lra).
  rewrite G0. cbn [orb].
  destruct (Qeqb (snd ep) 0) eqn:G1; [|exact H]. exfalso.
  apply Qeqb_eq in G1. unfold log_spaced, math_log10 in H.
  assert (E0 : Qleb (Qabs (fst ep) + 0) 0 = false).
  { apply Qleb_gt. rewrite Qabs_pos by lra. lra. }
  assert (E1 : Qleb (Qabs (snd ep) + 0) 0 = true).
  { apply Qleb_le. rewrite G1. cbn. lra. }
  rewrite E0, E1 in H. discriminate.
Qed.


End WithLibraries.


End TwoGenerators.

(* ================================================================== *)
(** * Labels of the assembled bins *)
(* ================================================================== *)

Module Labels.

Import AssemblyFacts PointMass Binners.

Lemma masses_before_0 pm c : masses_before pm c 0 = 0%nat.
Proof. reflexivity. Qed.

Lemma masses_before_S pm v c k :
  masses_before pm (v :: c) (S k)
  = ((if existsb (Qeqb v) pm then 1 else 0) + masses_before pm c k)%nat.
Proof.
  unfold masses_before. cbn [firstn filter].
  destruct (existsb (Qeqb v) pm); reflexivity.
Qed.

Lemma label_loop_ordinals pm z i cntr :
  (forall k p q, nth_error z k = Some p -> nth_error z (S k) = Some q ->
     nth_error (fst (label_loop pm i cntr z)) k
     = Some (range_label (i + k + cntr + masses_before pm (map fst z) (S k) + 1)
               (snd p) (snd q))) /\
  (forall k p, nth_error z k = Some p -> existsb (Qeqb (fst p)) pm = true ->
     nth_error (snd (label_loop pm i cntr z)) (masses_before pm (map fst z) k)
     = Some (point_label (i + k + cntr + masses_before pm (map fst z) k + 1)
               (snd p))).
Proof.
  revert i cntr. induction z as [|[v f] rest IH]; intros i cntr.
  - split; intros [|k]; discriminate.
  - cbn [label_loop map fst].
    set (is_pm := existsb (Qeqb v) pm).
    set (cntr' := if is_pm then S cntr else cntr).
    destruct (IH (S i) cntr') as [Hb Hp].
    destruct (label_loop pm (S i) cntr' rest) as [bl pl] eqn:Hloop.
    cbn [fst snd] in *. split.
    + intros k p q Hk Hk'. destruct k as [|k].
      * cbn in Hk. injection Hk as <-. cbn [snd].
        destruct rest as [|[v' f'] rest']; [discriminate|].
        cbn in Hk'. injection Hk' as <-. cbn [snd app nth_error].
        rewrite masses_before_S, masses_before_0. fold is_pm.
        do 2 f_equal. unfold cntr'. destruct is_pm; lia.
      * cbn [nth_error] in Hk, Hk'.
        destruct rest as [|[v' f'] rest']; [destruct k; discriminate|].
        cbn [app nth_error].
        rewrite (Hb k p q Hk Hk'), masses_before_S. fold is_pm.
        do 2 f_equal. unfold cntr'. destruct is_pm; lia.
    + intros k p Hk Hpm. destruct k as [|k].
      * cbn in Hk. injection Hk as <-. cbn [fst snd] in *.
        rewrite masses_before_0. fold is_pm in Hpm. rewrite Hpm.
        cbn [app nth_error]. do 2 f_equal. lia.
      * cbn [nth_error] in Hk. rewrite masses_before_S. fold is_pm.
        specialize (Hp k p Hk Hpm).
        destruct is_pm; cbn [app Nat.add nth_error]; rewrite Hp;
          do 2 f_equal; unfold cntr'; lia.
Qed.

Lemma adjacent_pairs_length {A} (l : list A) :
  List.length (adjacent_pairs l) = (List.length l - 1)%nat.
Proof.
  induction l as [|a l IH]; [reflexivity|].
  destruct l as [|b l]; [reflexivity|].
  cbn [adjacent_pairs List.length] in *. lia.
Qed.

Lemma point_entries_length pm z :
  List.length (point_entries pm z)
  = masses_before pm (map fst z) (List.length (map fst z)).
Proof.
  unfold masses_before. rewrite firstn_all. unfold point_entries.
  induction z as [|p z IH]; [reflexivity|].
  cbn [filter map]. destruct (existsb (Qeqb (fst p)) pm); cbn [List.length];
    now rewrite IH.
Qed.

Lemma pair_lt_le a b : pair_lt a b -> fst a <= fst b.
Proof.
  unfold pair_lt, pair_compare. intros H.
  destruct (fst a ?= fst b) eqn:E; try discriminate.
  - apply Qeq_alt in E. lra.
  - apply Qlt_alt in E. lra.
Qed.

Lemma sorted_pairs_nondecreasing z :
  Sorted pair_lt z -> Sorted Qle (map fst z).
Proof.
  induction 1 as [|a z Hs IH Hhd]; [constructor|].
  cbn [map]. constructor; [exact IH|].
  destruct Hhd as [|b z' Hab]; constructor. now apply pair_lt_le.
Qed.

Lemma combine_app {A B} (l1 l2 : list A) (f1 f2 : list B) :
  List.length f1 = List.length l1 ->
  combine (l1 ++ l2) (f1 ++ f2) = (combine l1 f1 ++ combine l2 f2)%list.
Proof.
  revert f1. induction l1 as [|a l1 IH]; intros [|b f1] H; try discriminate.
  - reflexivity.
  - cbn. f_equal. apply IH. now injection H.
Qed.

Lemma combine_drop_In {A B} (l : list A) (f : list B) i idx p :
  In p (combine (drop_from i idx l) (drop_from i idx f)) -> In p (combine l f).
Proof.
  revert f i. induction l as [|a l IH]; intros [|b f] i; cbn [drop_from combine].
  - intros [].
  - intros [].
  - rewrite combine_nil. intros [].
  - destruct (existsb (Nat.eqb i) idx).
    + intros H. right. now apply (IH f (S i)).
    + intros [H|H]; [now left | right; now apply (IH f (S i))].
Qed.

Lemma insert_pair_nonempty a l : insert_pair a l <> [].
Proof.
  destruct l as [|b l]; cbn [insert_pair]; [discriminate|].
  destruct (pair_compare a b); discriminate.
Qed.

Lemma sorted_set_nonempty l : l <> [] -> sorted_set l <> [].
Proof.
  destruct l as [|a l]; [congruence|]. intros _. cbn [sorted_set fold_right].
  apply insert_pair_nonempty.
Qed.

(** X14.  What [_finalize_bins] returns: the merged values in
    non-decreasing order, one range label for each pair of neighbours,
    one point label for each merged value that is a point mass.  Each
    merged value keeps the format it came with.  The ordinal of a label
    is its position plus the number of point masses met so far, so that
    the ordinals follow the merged order, a point label right before
    the range label that starts at the same value. *)
Theorem finalize_bins_labels cps fmts pm pmf c_final bl pl :
  List.length fmts = List.length cps ->
  _finalize_bins cps fmts pm pmf = inr (c_final, bl, pl) ->
  Sorted Qle c_final /\
  S (List.length bl) = List.length c_final /\
  List.length pl = masses_before pm c_final (List.length c_final) /\
  exists c_format,
    List.length c_format = List.length c_final /\
    (forall p, In p (combine c_final c_format) ->
       In p (combine cps fmts) \/ In p (combine pm pmf)) /\
    (forall k a b,
       nth_error c_format k = Some a -> nth_error c_format (S k) = Some b ->
       nth_error bl k
       = Some (range_label (k + masses_before pm c_final (S k) + 1) a b)) /\
    (forall k v a,
       nth_error c_final k = Some v -> nth_error c_format k = Some a ->
       existsb (Qeqb v) pm = true ->
       nth_error pl (masses_before pm c_final k)
       = Some (point_label (k + masses_before pm c_final k + 1) a)).
Proof.
  intros Hlen H.
  destruct (finalize_bins_inv cps fmts pm pmf c_final bl pl Hlen H)
    as (idx & Hc & Hbl & Hpl). cbn zeta in *.
  set (z := sorted_set (combine (drop_indices idx cps ++ pm)
                                (drop_indices idx fmts ++ pmf))) in *.
  assert (Hz : z <> []).
  { intros E. unfold _finalize_bins in H.
    destruct (if (2 <? List.length cps)%nat then _ else _) as [e|[c' f']];
      [discriminate|]. cbn [bind] in H.
    destruct (sorted_set (combine (c' ++ pm) (f' ++ pmf))) as [|p0 z0] eqn:Ez.
    - discriminate.
    - destruct (label_loop pm 0 0 (p0 :: z0)) as [b0 l0].
      injection H as Hc' _ _. rewrite Hc, E in Hc'. discriminate Hc'. }
  destruct (label_loop_spec pm z 0 0) as [Fb Fp].
  destruct (label_loop_ordinals pm z 0 0) as [Ob Op].
  rewrite <- Hbl in Fb, Ob. rewrite <- Hpl in Fp, Op. rewrite <- Hc in Ob, Op.
  split; [|split; [|split]].
  - rewrite Hc. apply sorted_pairs_nondecreasing, sorted_set_sorted.
  - apply Forall2_length in Fb. rewrite Fb, adjacent_pairs_length, Hc, length_map.
    destruct z; [congruence|]. cbn [List.length]. lia.
  - apply Forall2_length in Fp. rewrite Fp, Hc. apply point_entries_length.
  - exists (map snd z). split; [now rewrite Hc, !length_map|]. split; [|split].
    + intros p Hp. rewrite Hc in Hp.
      assert (Hin : In p z).
      { clear -Hp. induction z as [|[v f] z IH]; [destruct Hp|].
        cbn in Hp. destruct Hp as [<-|Hp]; [now left | right; now apply IH]. }
      apply sorted_set_In in Hin.
      rewrite combine_app in Hin
        by (unfold drop_indices; now apply drop_from_length).
      apply in_app_or in Hin as [Hin|Hin]; [left|now right].
      unfold drop_indices in Hin. now apply combine_drop_In in Hin.
    + intros k a b Ha Hb.
      rewrite nth_error_map in Ha, Hb.
      destruct (nth_error z k) as [p|] eqn:Ep; [|discriminate].
      destruct (nth_error z (S k)) as [q|] eqn:Eq; [|discriminate].
      cbn in Ha, Hb. injection Ha as <-. injection Hb as <-.
      rewrite (Ob k p q Ep Eq). do 2 f_equal. lia.
    + intros k v a Hv Ha Hpm.
      rewrite Hc in Hv. rewrite nth_error_map in Hv, Ha.
      destruct (nth_error z k) as [p|] eqn:Ep; [|discriminate].
      cbn in Hv, Ha. injection Hv as <-. injection Ha as <-.
      rewrite (Op k p Ep Hpm). do 2 f_equal. lia.
Qed.

Lemma finalize_bins_returns cps fmts pm pmf :
  List.length fmts = List.length cps ->
  List.length pmf = List.length pm ->
  cps <> [] \/ pm <> [] -> returns (_finalize_bins cps fmts pm pmf).
Proof.
  intros Hf Hp Hne.
  destruct (Nat.ltb_spec 2 (List.length cps)) as [H2|H2].
  - destruct (finalize_bins_merged cps fmts pm pmf H2 Hf Hp)
      as (c & b & l & -> & _). now eexists.
  - unfold _finalize_bins.
    destruct (Nat.ltb_spec 2 (List.length cps)) as [|_]; [lia|].
    cbn [bind ret].
    destruct (sorted_set (combine (cps ++ pm) (fmts ++ pmf))) as [|p z] eqn:Ez.
    + exfalso. revert Ez. apply sorted_set_nonempty.
      rewrite combine_app by exact Hf.
      destruct cps as [|c cps].
      * destruct fmts; [|discriminate Hf].
        destruct pm as [|a pm]; [destruct Hne; congruence|].
        destruct pmf; [discriminate Hp|]. cbn. discriminate.
      * destruct fmts; [discriminate Hf|]. cbn. discriminate.
    + destruct (label_loop pm 0 0 (p :: z)) as [b l]. now eexists.
Qed.

(** X15.  [_finalize_bins] fails only when it is given neither cut
    points nor point masses, where unpacking the empty merged list
    raises a [ValueError]; given either it returns. *)
Theorem finalize_bins_fails_only_on_nothing cps fmts pm pmf :
  List.length fmts = List.length cps ->
  List.length pmf = List.length pm ->
  (cps = [] /\ pm = [] ->
   _finalize_bins cps fmts pm pmf = inl nothing_to_unpack) /\
  (cps <> [] \/ pm <> [] -> returns (_finalize_bins cps fmts pm pmf)).
Proof.
  intros Hf Hp. split.
  - intros [-> ->]. destruct fmts; [|discriminate]. destruct pmf; [|discriminate].
    reflexivity.
  - now apply finalize_bins_returns.
Qed.

Lemma finalize_bins_labels_witness :
  exists c_final bl pl,
    _finalize_bins [0; 3; 6; 8; 10] ["0"; "3"; "6"; "8"; "10"] [5] ["5"]
      = inr (c_final, bl, pl) /\
    S (List.length bl) = List.length c_final /\
    List.length pl = masses_before [5] c_final (List.length c_final).
Proof.
  assert (H : { r | _finalize_bins [0; 3; 6; 8; 10] ["0"; "3"; "6"; "8"; "10"]
                      [5] ["5"] = inr r }).
  { eexists. vm_compute. reflexivity. }
  destruct H as [[[c_final bl] pl] H].
  exists c_final, bl, pl. split; [exact H|].
  destruct (finalize_bins_labels [0; 3; 6; 8; 10] ["0"; "3"; "6"; "8"; "10"]
              [5] ["5"] c_final bl pl eq_refl H) as (_ & H1 & H2 & _).
  split; assumption.
Defined.

Lemma finalize_bins_fails_only_on_nothing_witness :
  returns (_finalize_bins [] [] [5] ["5"]).
Proof.
  apply (proj2 (finalize_bins_fails_only_on_nothing [] [] [5] ["5"]
                  eq_refl eq_refl)).
  right. discriminate.
Defined.

End Labels.

(* ================================================================== *)
(** * Point masses and the failures of the cutters *)
(* ================================================================== *)

Module Masses.

Import Magnitude Rounding Arrays Samples AssemblyFacts PointMass Binners.

Lemma count_le v vals : (count v vals <= List.length vals)%nat.
Proof. apply filter_length_le. Qed.

Lemma occurs_count_pos v vals : occurs v vals -> (0 < count v vals)%nat.
Proof.
  unfold occurs, count. induction 1 as [w l E|w l H IH]; cbn [filter].
  - apply Qeqb_eq in E. rewrite E. cbn. lia.
  - destruct (Qeqb v w); cbn [List.length]; lia.
Qed.

Lemma frequency_le_1 v vals : occurs v vals -> frequency v vals <= 1.
Proof.
  intros H. unfold frequency. fold (count v vals).
  pose proof (count_le v vals) as Hle. pose proof (occurs_count_pos v vals H) as Hp.
  assert (Hn : 0 < inject_Z (Z.of_nat (List.length vals))).
  { change 0 with (inject_Z 0). rewrite <- Zlt_Qlt. lia. }
  apply Qle_shift_div_r; [exact Hn|]. rewrite Qmult_1_l.
  rewrite <- Zle_Qle. lia.
Qed.

Lemma list_sum_cons a l : list_sum (a :: l) = (a + list_sum l)%nat.
Proof. reflexivity. Qed.

Lemma all_zero (D : list Q) (g : Q -> nat) :
  (forall d, In d D -> g d = 0%nat) -> list_sum (map g D) = 0%nat.
Proof.
  induction D as [|d D IH]; intros H; [reflexivity|].
  cbn [map]; rewrite ?list_sum_cons. rewrite (H d) by now left.
  rewrite IH; [reflexivity|]. intros d' Hd'. apply H. now right.
Qed.

Lemma at_most_one D a :
  strictly_increasing D ->
  (list_sum (map (fun d => if Qeqb d a then 1 else 0)%nat D) <= 1)%nat.
Proof.
  induction D as [|d D IH]; intros Hs; [cbn; lia|].
  cbn [map]; rewrite ?list_sum_cons. destruct (Qeqb d a) eqn:E.
  - rewrite all_zero; [lia|]. intros d' Hd'.
    apply Qeqb_eq in E.
    pose proof (sorted_above_head d D d' Hs (In_occurs _ _ Hd')) as Hlt.
    assert (Hne : Qeqb d' a = false) by (apply Qeqb_neq; lra).
    now rewrite Hne.
  - pose proof (IH (sorted_tail _ _ Hs)). lia.
Qed.

Lemma list_sum_add (D : list Q) (g h : Q -> nat) :
  list_sum (map (fun d => g d + h d)%nat D)
  = (list_sum (map g D) + list_sum (map h D))%nat.
Proof.
  induction D as [|d D IH]; [reflexivity|]. cbn [map]; rewrite ?list_sum_cons. lia.
Qed.

Lemma counts_partition D vals :
  strictly_increasing D ->
  (list_sum (map (fun d => count d vals) D) <= List.length vals)%nat.
Proof.
  intros Hs. induction vals as [|a vals IH].
  - rewrite all_zero; [cbn; lia | reflexivity].
  - assert (E : map (fun d => count d (a :: vals)) D
                = map (fun d => (if Qeqb d a then 1 else 0) + count d vals)%nat D).
    { apply map_ext. intros d. unfold count. cbn [filter].
      destruct (Qeqb d a); reflexivity. }
    rewrite E, list_sum_add. pose proof (at_most_one D a Hs).
    cbn [List.length]. lia.
Qed.

Lemma counts_above D vals t :
  (forall d, In d D -> t < inject_Z (Z.of_nat (count d vals))) ->
  inject_Z (Z.of_nat (List.length D)) * t
  <= inject_Z (Z.of_nat (list_sum (map (fun d => count d vals) D))).
Proof.
  induction D as [|d D IH]; intros H.
  - change (0 * t <= 0). lra.
  - cbn [List.length map]; rewrite ?list_sum_cons.
    rewrite Nat2Z.inj_succ, Nat2Z.inj_add. unfold Z.succ.
    rewrite !inject_Z_plus. change (inject_Z 1) with 1.
    pose proof (H d (or_introl eq_refl)).
    assert (IH' := IH (fun d' Hd' => H d' (or_intror Hd'))).
    lra.
Qed.

(** X16.  [_point_mass] returns, in strictly increasing order, exactly
    the values whose share of the non-missing entries is above the
    threshold; their number times the threshold is below 1, so there are
    fewer than ten of them at the default threshold. *)
Theorem point_mass_characterised col threshold :
  strictly_increasing (_point_mass col threshold) /\
  (forall v, occurs v (_point_mass col threshold) <->
     occurs v (Pd.non_nan col) /\ threshold < frequency v (Pd.non_nan col)) /\
  inject_Z (Z.of_nat (List.length (_point_mass col threshold))) * threshold < 1.
Proof.
  split; [apply point_mass_sorted|]. split; [apply point_mass_spec|].
  set (vals := Pd.non_nan col).
  pose proof (point_mass_sorted col threshold) as Hsorted.
  assert (Hspec : forall d, In d (_point_mass col threshold) ->
             occurs d vals /\ threshold < frequency d vals).
  { intros d Hd. apply point_mass_spec. now apply In_occurs. }
  destruct (_point_mass col threshold) as [|a pm'];
    [change (0 * threshold < 1); lra|].
  destruct (Hspec a (or_introl eq_refl)) as [Ha _].
  pose proof (occurs_count_pos a vals Ha) as Hc.
  pose proof (count_le a vals) as Hle.
  set (n := inject_Z (Z.of_nat (List.length vals))).
  assert (Hn : 0 < n).
  { unfold n. change 0 with (inject_Z 0). rewrite <- Zlt_Qlt. lia. }
  assert (Hall : forall d, In d (a :: pm') ->
             threshold * n < inject_Z (Z.of_nat (count d vals))).
  { intros d Hd. destruct (Hspec d Hd) as [_ Hf].
    unfold frequency in Hf. fold (count d vals) in Hf. fold n in Hf.
    apply (Qmult_lt_compat_r _ _ n Hn) in Hf.
    assert (E : inject_Z (Z.of_nat (count d vals)) / n * n
                == inject_Z (Z.of_nat (count d vals))) by (field; lra).
    rewrite E in Hf. exact Hf. }
  pose proof (counts_partition (a :: pm') vals Hsorted) as H2.
  apply inj_le in H2. rewrite Zle_Qle in H2. fold n in H2.
  pose proof (Hall a (or_introl eq_refl)) as Hfirst.
  assert (H3 : inject_Z (Z.of_nat (List.length pm')) * (threshold * n)
               <= inject_Z (Z.of_nat
                    (list_sum (map (fun d => count d vals) pm')))).
  { apply counts_above. intros d Hd. apply Hall. now right. }
  cbn [map] in H2. rewrite list_sum_cons, Nat2Z.inj_add, inject_Z_plus in H2.
  cbn [List.length]. rewrite Nat2Z.inj_succ. unfold Z.succ.
  rewrite inject_Z_plus. change (inject_Z 1) with 1.
  set (k := inject_Z (Z.of_nat (List.length pm'))) in *.
  set (s := inject_Z (Z.of_nat (list_sum (map (fun d => count d vals) pm')))) in *.
  set (ca := inject_Z (Z.of_nat (count a vals))) in *.
  assert (H4 : ((k + 1) * threshold) * n < 1 * n).
  { assert (E : (k + 1) * threshold * n == threshold * n + k * (threshold * n))
      by ring.
    rewrite E. lra. }
  apply Qmult_lt_r in H4; [exact H4 | exact Hn].
Qed.

Section WithLibraries.

Context {M : MathLib} {P : Pandas}.

Lemma point_mass_of_nothing col threshold :
  Pd.non_nan col = [] -> _point_mass col threshold = [].
Proof. intros H. unfold _point_mass. now rewrite H. Qed.

(** X17.  A column without a single number (empty, or all missing):
    both cutters fail with the [ValueError] of the minimum of an empty
    array, and so do the table-level wrappers, before they reach the
    unbound name. *)
Theorem column_without_numbers_rejected df x col :
  Pd.loc df x = inr col -> Pd.non_nan col = [] ->
  (forall max_levels threshold sig_fig kw,
     Binners.kw_ncuts kw = None ->
     exists msg,
       Binners.cutter df x max_levels threshold sig_fig kw
         = inl (ValueError msg)) /\
  (forall max_levels kw,
     exists msg, Histograms.cutter df x max_levels kw = inl (ValueError msg)) /\
  (forall new_col fill_nan max_levels kw,
     Binners.kw_ncuts (Binners.bkw_rest kw) = None ->
     exists msg,
       Binners.binner_df df x new_col fill_nan max_levels kw
         = inl (ValueError msg)) /\
  (forall new_col fill_nan max_levels kw,
     exists msg,
       Histograms.binner df x new_col fill_nan max_levels kw
         = inl (ValueError msg)).
Proof.
  intros Hcol Hnan.
  assert (Hb : forall max_levels threshold sig_fig kw,
             Binners.kw_ncuts kw = None ->
             exists msg,
               Binners.cutter df x max_levels threshold sig_fig kw
               = inl (ValueError msg)).
  { intros ml t sf kw Hkw. unfold Binners.cutter. rewrite Hcol. cbn [bind].
    rewrite (point_mass_of_nothing col t Hnan), Hnan.
    unfold call_cutpoints. rewrite Hkw. unfold cutpoints.
    cbn [Np.min bind raise]. now eexists. }
  assert (Hh : forall max_levels kw,
             exists msg, Histograms.cutter df x max_levels kw
                         = inl (ValueError msg)).
  { intros ml kw. unfold Histograms.cutter. rewrite Hcol. cbn [bind].
    rewrite Hnan. unfold Histograms.call_numericVarCutpoints,
      Histograms.numericVarCutpoints. cbn [Np.min bind raise]. now eexists. }
  split; [exact Hb|]. split; [exact Hh|]. split.
  - intros nc fn ml kw Hkw. unfold binner_df.
    destruct (Hb ml
                (match bkw_point_mass_threshold kw with
                 | Some t => t | None => 1 # 10 end)
                (match bkw_sig_fig kw with Some s => s | None => 3%Z end)
                (bkw_rest kw) Hkw) as [msg ->].
    now exists msg.
  - intros nc fn ml kw. unfold Histograms.binner.
    destruct (Hh ml kw) as [msg ->]. now exists msg.
Qed.

(** X18.  [binners.cutter] passes [ncuts = max_levels] itself; an [ncuts]
    among its keywords is a second value for the same argument, and the
    call of [cutpoints] fails with a [TypeError] whenever it is reached:
    when there is no point mass, or a number that is not one. *)
Theorem ncuts_keyword_rejected df x max_levels threshold sig_fig kw col n :
  Pd.loc df x = inr col ->
  Binners.kw_ncuts kw = Some n ->
  _point_mass col threshold = [] \/
  Pd.non_nan (filter (fun v => negb (Pd.isin (_point_mass col threshold) v)) col)
    <> [] ->
  Binners.cutter df x max_levels threshold sig_fig kw = inl duplicate_ncuts.
Proof.
  intros Hcol Hkw Hcase. unfold Binners.cutter. rewrite Hcol. cbn [bind].
  destruct (_point_mass col threshold) as [|a pm] eqn:Epm.
  - unfold call_cutpoints. rewrite Hkw. reflexivity.
  - destruct Hcase as [Hc|Hc]; [discriminate|].
    destruct (Pd.non_nan _) as [|r rem]; [congruence|].
    unfold call_cutpoints. rewrite Hkw. reflexivity.
Qed.

(** X19.  A column name that the table does not have: both cutters and
    both wrappers fail with a [KeyError]. *)
Theorem missing_column_rejected df x :
  Pd.lookup df x = None ->
  (forall max_levels kw,
     Histograms.cutter df x max_levels kw = inl (KeyError x)) /\
  (forall new_col fill_nan max_levels kw,
     Histograms.binner df x new_col fill_nan max_levels kw = inl (KeyError x)) /\
  (forall max_levels threshold sig_fig kw,
     exists key,
       Binners.cutter df x max_levels threshold sig_fig kw = inl (KeyError key)) /\
  (forall new_col fill_nan max_levels kw,
     exists key,
       Binners.binner_df df x new_col fill_nan max_levels kw
         = inl (KeyError key)).
Proof.
  intros H.
  assert (Hloc : Pd.loc df x = inl (KeyError x)) by (unfold Pd.loc; now rewrite H).
  repeat split; intros.
  - unfold Histograms.cutter. now rewrite Hloc.
  - unfold Histograms.binner, Histograms.cutter. now rewrite Hloc.
  - exists x. unfold Binners.cutter. now rewrite Hloc.
  - exists x. unfold binner_df, Binners.cutter. now rewrite Hloc.
Qed.

End WithLibraries.

Lemma column_without_numbers_rejected_witness :
  exists msg,
    Histograms.cutter (M := whole_orders) (P := pandas_documented)
      [("a", NumCol [None; None])] "a" 20 Histograms.no_kwargs
    = inl (ValueError msg).
Proof.
  apply (proj1 (proj2 (column_without_numbers_rejected (M := whole_orders)
                         (P := pandas_documented)
                         [("a", NumCol [None; None])] "a" [None; None]
                         eq_refl eq_refl))).
Defined.

Lemma ncuts_keyword_rejected_witness :
  Binners.cutter (M := whole_orders) (P := pandas_documented)
    sample_table "a" 5 (3 # 10) 3
    {| Binners.kw_qntl_cutoff := None; Binners.kw_cuts := None;
       Binners.kw_ncuts := Some 4%Z |}
  = inl duplicate_ncuts.
Proof.
  apply (ncuts_keyword_rejected (M := whole_orders) (P := pandas_documented)
           sample_table "a" 5 (3 # 10) 3 _
           (map Some [1; 1; 1; 1; 1; 2; 3; 4; 5; 100]) 4%Z).
  - reflexivity.
  - reflexivity.
  - right. vm_compute. discriminate.
Defined.

Lemma missing_column_rejected_witness :
  Histograms.binner (M := whole_orders) (P := pandas_documented)
    sample_table "b" "b_binned" None 5 Histograms.no_kwargs = inl (KeyError "b").
Proof.
  apply (proj1 (proj2 (missing_column_rejected (M := whole_orders)
                         (P := pandas_documented) sample_table "b" eq_refl))).
Defined.

End Masses.

(* ================================================================== *)
(** * Ordinals: the labels are pairwise distinct *)
(* ================================================================== *)

Module Ordinals.

Import FormatterFacts AssemblyFacts PointMass Labels Binners.

Lemma repeat_zero_digits k : all_chars is_digit (repeat_char "0" k) = true.
Proof. induction k as [|k IH]; [reflexivity|]. cbn [repeat_char all_chars]. now rewrite IH. Qed.

Lemma str_of_nat_unsigned n :
  exists d, d <> Decimal.Nil /\
    str_of_Z (Z.of_nat n) = NilEmpty.string_of_uint d /\
    Pos.of_uint d = N.of_nat n.
Proof.
  unfold str_of_Z. destruct n as [|n].
  - exists (Decimal.D0 Decimal.Nil). repeat split. discriminate.
  - cbn [Z.of_nat Z.to_int NilZero.string_of_int].
    set (p := Pos.of_succ_nat n).
    exists (Pos.to_uint p). split; [apply DecimalPos.Unsigned.to_uint_nonnil|].
    split.
    + unfold NilZero.string_of_uint.
      pose proof (DecimalPos.Unsigned.to_uint_nonnil p) as Hn.
      destruct (Pos.to_uint p); [congruence| reflexivity ..].
    + rewrite DecimalPos.Unsigned.of_to. unfold p. lia.
Qed.

Lemma str_of_nat_digits n : all_chars is_digit (str_of_Z (Z.of_nat n)) = true.
Proof.
  destruct (str_of_nat_unsigned n) as (d & _ & -> & _). apply uint_digits.
Qed.

Lemma ordinal_digits n : all_chars is_digit (ordinal n) = true.
Proof.
  unfold ordinal, zfill. rewrite all_chars_app, repeat_zero_digits, str_of_nat_digits.
  reflexivity.
Qed.

Lemma uint_of_zeros k s :
  NilEmpty.uint_of_string (repeat_char "0" k ++ s)
  = option_map (Nat.iter k Decimal.D0) (NilEmpty.uint_of_string s).
Proof.
  induction k as [|k IH]; cbn [repeat_char append Nat.iter].
  - now destruct (NilEmpty.uint_of_string s).
  - cbn [NilEmpty.uint_of_string]. rewrite IH.
    destruct (NilEmpty.uint_of_string s); reflexivity.
Qed.

Lemma of_uint_zeros k d : Pos.of_uint (Nat.iter k Decimal.D0 d) = Pos.of_uint d.
Proof. induction k as [|k IH]; [reflexivity|]. cbn [Nat.iter]. exact IH. Qed.

Lemma ordinal_value n :
  option_map Pos.of_uint (NilEmpty.uint_of_string (ordinal n)) = Some (N.of_nat n).
Proof.
  unfold ordinal, zfill. rewrite uint_of_zeros.
  destruct (str_of_nat_unsigned n) as (d & _ & -> & E).
  rewrite NilEmpty.usu. cbn [option_map]. now rewrite of_uint_zeros, E.
Qed.

Lemma ordinal_inj n m : ordinal n = ordinal m -> n = m.
Proof.
  intros E. pose proof (ordinal_value n) as Hn. rewrite E, ordinal_value in Hn.
  injection Hn as Hn. lia.
Qed.

Lemma digits_prefix s t c c' u v :
  all_chars is_digit s = true -> all_chars is_digit t = true ->
  is_digit c = false -> is_digit c' = false ->
  s ++ String c u = t ++ String c' v -> s = t.
Proof.
  revert t. induction s as [|a s IH]; intros [|b t] Hs Ht Hc Hc' E;
    cbn [append all_chars] in *.
  - reflexivity.
  - injection E as E _. subst c. apply andb_true_iff in Ht as [Ht _]. congruence.
  - injection E as E _. subst c'. apply andb_true_iff in Hs as [Hs _]. congruence.
  - injection E as -> E. apply andb_true_iff in Hs as [_ Hs].
    apply andb_true_iff in Ht as [_ Ht]. f_equal. now apply (IH t).
Qed.

Lemma numbered_inj n m l : numbered n l -> numbered m l -> n = m.
Proof.
  intros [r ->] [r' E]. apply ordinal_inj.
  change (": " ++ r) with (String ":" (" " ++ r)) in E.
  change (": " ++ r') with (String ":" (" " ++ r')) in E.
  apply (digits_prefix (ordinal n) (ordinal m) ":"%char ":"%char
           (" " ++ r) (" " ++ r') (ordinal_digits n) (ordinal_digits m)
           eq_refl eq_refl E).
Qed.

Lemma range_label_numbered n a b : numbered n (range_label n a b).
Proof. now exists (a ++ " - " ++ b). Qed.

Lemma point_label_numbered n a : numbered n (point_label n a).
Proof. now exists a. Qed.

Lemma fresh_label n l (rest : list string) (lo : nat) :
  numbered n l -> (n < lo)%nat ->
  (forall l', In l' rest -> exists m, numbered m l' /\ (lo <= m)%nat) ->
  ~ In l rest.
Proof.
  intros Hn Hlt Hrest Hin. destruct (Hrest l Hin) as (m & Hm & Hle).
  pose proof (numbered_inj n m l Hn Hm). lia.
Qed.

Lemma label_loop_numbered pm z i cntr :
  NoDup (fst (label_loop pm i cntr z) ++ snd (label_loop pm i cntr z)) /\
  (forall l, In l (fst (label_loop pm i cntr z) ++ snd (label_loop pm i cntr z)) ->
     exists n, numbered n l /\
       (i + cntr + 1 <= n)%nat /\
       (n <= i + cntr
             + List.length (fst (label_loop pm i cntr z)
                            ++ snd (label_loop pm i cntr z)))%nat) /\
  (forall l l' n,
     In l (fst (label_loop pm i cntr z) ++ snd (label_loop pm i cntr z)) ->
     In l' (fst (label_loop pm i cntr z) ++ snd (label_loop pm i cntr z)) ->
     numbered n l -> numbered n l' -> l = l').
Proof.
  revert i cntr. induction z as [|[v f] rest IH]; intros i cntr.
  - cbn. split; [constructor | split; [intros l [] | intros l l' n []]].
  - cbn [label_loop].
    set (is_pm := existsb (Qeqb v) pm).
    set (cntr' := if is_pm then S cntr else cntr).
    destruct (IH (S i) cntr') as (Hnd & Hlo & Hinj).
    destruct (label_loop pm (S i) cntr' rest) as [bl pl] eqn:Hloop.
    cbn [fst snd] in *.
    set (B := match rest with
              | (_, f') :: _ => [range_label (i + cntr' + 1) f f']
              | [] => []
              end).
    set (Pm := if is_pm then [point_label (i + cntr + 1) f] else []).
    assert (Hperm : Permutation ((B ++ bl) ++ (Pm ++ pl)) (Pm ++ B ++ (bl ++ pl))).
    { rewrite <- app_assoc. rewrite (Permutation_app_swap_app Pm B).
      apply Permutation_app_head. rewrite !app_assoc.
      apply Permutation_app_tail. apply Permutation_app_comm. }
    assert (Hlen : List.length ((B ++ bl) ++ (Pm ++ pl))
                   = (List.length Pm + List.length B + List.length (bl ++ pl))%nat).
    { rewrite (Permutation_length Hperm), !List.length_app. lia. }
    assert (HB : forall l, In l B ->
               l = range_label (i + cntr' + 1) f
                     (match rest with (_, f') :: _ => f' | [] => EmptyString end)
               /\ List.length B = 1%nat).
    { intros l Hl. unfold B in *. destruct rest as [|[v' f'] rest']; [destruct Hl|].
      destruct Hl as [<-|[]]. split; reflexivity. }
    assert (HPm : forall l, In l Pm ->
                l = point_label (i + cntr + 1) f /\ List.length Pm = 1%nat).
    { intros l Hl. unfold Pm in *. destruct is_pm; [|destruct Hl].
      destruct Hl as [<-|[]]. split; reflexivity. }
    assert (Hc : cntr' = (cntr + List.length Pm)%nat).
    { unfold cntr', Pm. destruct is_pm; cbn; lia. }
    assert (Hrest : (bl ++ pl)%list <> [] -> List.length B = 1%nat).
    { intros Hne. unfold B. destruct rest as [|[v' f'] rest']; [|reflexivity].
      cbn in Hloop. injection Hloop as <- <-. now elim Hne. }
    assert (Hlo' : forall l, In l (bl ++ pl) ->
               exists n, numbered n l /\ (S i + cntr' + 1 <= n)%nat).
    { intros l Hl. destruct (Hlo l Hl) as (n & Hn & Hle & _). now exists n. }
    (* the ordinal of each of the three kinds *)
    assert (Hord : forall l n, In l (Pm ++ B ++ (bl ++ pl)) -> numbered n l ->
              (In l Pm /\ n = i + cntr + 1)%nat \/
              (In l B /\ n = i + cntr' + 1 /\ List.length B = 1)%nat \/
              (In l (bl ++ pl) /\ S i + cntr' + 1 <= n)%nat).
    { intros l n Hl Hn. apply in_app_or in Hl as [Hl|Hl].
      - left. split; [exact Hl|]. destruct (HPm l Hl) as [-> _].
        apply (numbered_inj _ _ _ Hn (point_label_numbered _ _)).
      - apply in_app_or in Hl as [Hl|Hl].
        + right. left. split; [exact Hl|]. destruct (HB l Hl) as [-> HlB].
          split; [|exact HlB].
          apply (numbered_inj _ _ _ Hn (range_label_numbered _ _ _)).
        + right. right. split; [exact Hl|].
          destruct (Hlo' l Hl) as (m & Hm & Hle).
          now rewrite (numbered_inj _ _ _ Hn Hm). }
    split; [|split].
    + apply (Permutation_NoDup (Permutation_sym Hperm)).
      assert (HndB : NoDup (B ++ bl ++ pl)).
      { unfold B. destruct rest as [|[v' f'] rest']; [exact Hnd|].
        cbn [app]. constructor; [|exact Hnd].
        apply (fresh_label (i + cntr' + 1) _ _ (S i + cntr' + 1));
          [apply range_label_numbered | lia | exact Hlo']. }
      unfold Pm. destruct is_pm eqn:Epm; [|exact HndB].
      cbn [app]. constructor; [|exact HndB].
      intros Hin. apply in_app_or in Hin as [Hin|Hin].
      * destruct (HB _ Hin) as [Hn _].
        pose proof (range_label_numbered (i + cntr' + 1) f
                      (match rest with (_, f') :: _ => f' | [] => EmptyString end))
          as Hr. rewrite <- Hn in Hr.
        pose proof (numbered_inj _ _ _ Hr (point_label_numbered (i + cntr + 1) f)).
        unfold cntr' in *. lia.
      * revert Hin.
        apply (fresh_label (i + cntr + 1) _ _ (S i + cntr' + 1));
          [apply point_label_numbered | unfold cntr'; lia | exact Hlo'].
    + intros l Hl. rewrite Hlen. apply (Permutation_in _ Hperm) in Hl.
      apply in_app_or in Hl as [Hl|Hl].
      * destruct (HPm l Hl) as [-> HlenP].
        exists (i + cntr + 1)%nat. split; [apply point_label_numbered | lia].
      * apply in_app_or in Hl as [Hl|Hl].
        -- destruct (HB l Hl) as [-> HlenB].
           exists (i + cntr' + 1)%nat. split; [apply range_label_numbered | lia].
        -- destruct (Hlo l Hl) as (n & Hn & Hle & Hge).
           assert (HlenB : List.length B = 1%nat).
           { apply Hrest. intros E. rewrite E in Hl. destruct Hl. }
           exists n. split; [exact Hn | lia].
    + intros l l' n Hl Hl' Hn Hn'.
      apply (Permutation_in _ Hperm) in Hl. apply (Permutation_in _ Hperm) in Hl'.
      destruct (Hord l n Hl Hn) as [[H1 E1]|[[H1 [E1 L1]]|[H1 E1]]];
        destruct (Hord l' n Hl' Hn') as [[H2 E2]|[[H2 [E2 L2]]|[H2 E2]]].
      * destruct (HPm l H1) as [-> _]. destruct (HPm l' H2) as [-> _]. reflexivity.
      * destruct (HPm l H1) as [_ LP]. exfalso. lia.
      * destruct (HPm l H1) as [_ LP]. exfalso. lia.
      * destruct (HPm l' H2) as [_ LP]. exfalso. lia.
      * destruct (HB l H1) as [-> _]. destruct (HB l' H2) as [-> _]. reflexivity.
      * exfalso. lia.
      * destruct (HPm l' H2) as [_ LP]. exfalso. lia.
      * exfalso. lia.
      * exact (Hinj l l' n H1 H2 Hn Hn').
Qed.

Lemma range_labels_numbered i f :
  NoDup (Histograms.range_labels i f) /\
  forall l, In l (Histograms.range_labels i f) ->
    exists n, numbered n l /\ (i + 1 <= n)%nat.
Proof.
  revert i. induction f as [|a f IH]; intros i.
  - cbn. split; [constructor | intros l []].
  - destruct f as [|b f'].
    + cbn. split; [constructor | intros l []].
    + destruct (IH (S i)) as [Hnd Hlo].
      change (Histograms.range_labels i (a :: b :: f'))
        with (range_label (i + 1) a b :: Histograms.range_labels (S i) (b :: f')).
      split.
      * constructor; [|exact Hnd].
        apply (fresh_label (i + 1) _ _ (S i + 1));
          [apply range_label_numbered | lia | exact Hlo].
      * intros l [<-|Hl].
        -- exists (i + 1)%nat. split; [apply range_label_numbered | lia].
        -- destruct (Hlo l Hl) as (n & Hn & Hle). exists n. split; [exact Hn | lia].
Qed.

Lemma NoDup_no_dup l : NoDup l -> Pd.has_dup l = false.
Proof.
  intros H. unfold Pd.has_dup. rewrite (nodup_fixed_point string_dec H).
  now rewrite Nat.eqb_refl.
Qed.

Lemma finalize_bins_loop cps fmts pm pmf c bl pl :
  _finalize_bins cps fmts pm pmf = inr (c, bl, pl) ->
  exists z, z <> [] /\ c = map fst z /\
            bl = fst (label_loop pm 0 0 z) /\ pl = snd (label_loop pm 0 0 z).
Proof.
  unfold _finalize_bins. intros H.
  destruct (if (2 <? List.length cps)%nat then _ else _) as [e|[c' f']];
    [discriminate|]. cbn [bind] in H.
  destruct (sorted_set (combine (c' ++ pm) (f' ++ pmf))) as [|p z] eqn:Ez;
    [discriminate|].
  exists (p :: z). destruct (label_loop pm 0 0 (p :: z)) as [b l].
  injection H as <- <- <-. repeat split. discriminate.
Qed.



End Ordinals.

(* ================================================================== *)
(** * The sorted labels follow the bins *)
(* ================================================================== *)

Module LabelOrder.

Import FormatterFacts AssemblyFacts PointMass Labels Ordinals Binners.

Lemma insert_string_hd a b l :
  HdRel string_le b l -> string_le b a -> HdRel string_le b (insert_string a l).
Proof.
  intros Hl Hba. destruct l as [|c l]; cbn [insert_string].
  - now constructor.
  - destruct (String.leb a c); constructor; [exact Hba|].
    now inversion Hl.
Qed.

Lemma insert_string_sorted a l :
  Sorted string_le l -> Sorted string_le (insert_string a l).
Proof.
  induction 1 as [|b l Hs IH Hhd]; cbn [insert_string].
  - repeat constructor.
  - destruct (String.leb a b) eqn:E.
    + constructor; [now constructor|]. now constructor.
    + constructor; [exact IH|]. apply insert_string_hd; [exact Hhd|].
      unfold string_le. destruct (String.leb_total a b) as [H|H]; congruence.
Qed.

Lemma sort_strings_sorted l : Sorted string_le (sort_strings l).
Proof.
  induction l as [|a l IH]; [constructor|]. cbn [sort_strings fold_right].
  now apply insert_string_sorted.
Qed.

(** The two characters of an ordinal below 100. *)
Lemma ordinal_two_digits n :
  (n < 100)%nat ->
  exists c1 c2,
    ordinal n = String c1 (String c2 EmptyString) /\
    N_of_ascii c1 = (48 + N.of_nat (n / 10))%N /\
    N_of_ascii c2 = (48 + N.of_nat (n mod 10))%N.
Proof.
  intros H.
  do 100 (destruct n as [|n];
          [do 2 eexists; split; [vm_compute; reflexivity | split; reflexivity]|]).
  lia.
Qed.

Lemma numbered_order n m l l' :
  (n < m)%nat -> (m < 100)%nat -> numbered n l -> numbered m l' ->
  String.compare l l' = Lt.
Proof.
  intros Hnm Hm [r ->] [r' ->].
  destruct (ordinal_two_digits n ltac:(lia)) as (c1 & c2 & -> & E1 & E2).
  destruct (ordinal_two_digits m Hm) as (d1 & d2 & -> & F1 & F2).
  cbn [append String.compare]. unfold Ascii.compare. rewrite E1, E2, F1, F2.
  pose proof (Nat.div_mod_eq n 10) as Dn. pose proof (Nat.div_mod_eq m 10) as Dm.
  pose proof (Nat.mod_upper_bound n 10 ltac:(lia)) as Bn.
  pose proof (Nat.mod_upper_bound m 10 ltac:(lia)) as Bm.
  destruct (N.compare_spec (48 + N.of_nat (n / 10)) (48 + N.of_nat (m / 10)))
    as [E|E|E].
  - assert (Hlt : (48 + N.of_nat (n mod 10) < 48 + N.of_nat (m mod 10))%N) by lia.
    apply N.compare_lt_iff in Hlt. now rewrite Hlt.
  - reflexivity.
  - exfalso. lia.
Qed.

Lemma sorted_means_smaller n m l l' :
  (n < 100)%nat -> (m < 100)%nat -> n <> m ->
  numbered n l -> numbered m l' -> string_le l l' -> (n < m)%nat.
Proof.
  intros Hn Hm Hne Hl Hl' Hle.
  destruct (Nat.lt_ge_cases n m) as [H|H]; [exact H|]. exfalso.
  assert (Hlt : (m < n)%nat) by lia.
  pose proof (numbered_order m n l' l Hlt Hn Hl' Hl) as Hc.
  unfold string_le, String.leb in Hle. rewrite String.compare_antisym, Hc in Hle.
  discriminate.
Qed.

(** In a sorted list of distinctly numbered labels the ordinals grow. *)
Lemma sorted_ordinals_grow L :
  Sorted string_le L -> NoDup L ->
  (forall l, In l L -> exists n, numbered n l /\ (n < 100)%nat) ->
  (forall l l' n, In l L -> In l' L -> numbered n l -> numbered n l' -> l = l') ->
  forall j k l l' n m,
    nth_error L j = Some l -> nth_error L (j + k) = Some l' ->
    numbered n l -> numbered m l' -> (n + k <= m)%nat.
Proof.
  intros Hs Hnd Hnum Hinj j k. revert j.
  induction k as [|k IH]; intros j l l' n m Hj Hjk Hn Hm.
  - rewrite Nat.add_0_r in Hjk. rewrite Hj in Hjk. injection Hjk as <-.
    rewrite (numbered_inj _ _ _ Hn Hm). lia.
  - (* the neighbour of position j *)
    assert (Hnext : exists l1, nth_error L (S j) = Some l1).
    { destruct (nth_error L (S j)) as [l1|] eqn:E; [now exists l1|].
      apply nth_error_None in E.
      assert (j + S k < List.length L)%nat by (apply nth_error_Some; congruence).
      lia. }
    destruct Hnext as [l1 H1].
    destruct (Hnum l1 (nth_error_In _ _ H1)) as (n1 & Hn1 & Hb1).
    destruct (Hnum l (nth_error_In _ _ Hj)) as (n' & Hn' & Hb).
    rewrite (numbered_inj _ _ _ Hn' Hn) in Hb.
    assert (Hstep : (n < n1)%nat).
    { apply (sorted_means_smaller n n1 l l1 Hb Hb1); try assumption.
      - intros E. subst n1.
        pose proof (Hinj l l1 n (nth_error_In _ _ Hj) (nth_error_In _ _ H1) Hn Hn1)
          as El. subst l1.
        rewrite NoDup_nth_error in Hnd.
        assert (j = S j); [|lia].
        apply Hnd; [apply nth_error_Some; congruence | congruence].
      - clear -Hs Hj H1. revert j Hj H1.
        induction Hs as [|a L Hs IH Hhd]; intros j Hj H1; [destruct j; discriminate|].
        destruct j as [|j].
        + cbn in Hj, H1. injection Hj as <-.
          destruct L as [|b L']; [discriminate|]. cbn in H1. injection H1 as <-.
          now inversion Hhd.
        + cbn [nth_error] in Hj, H1. now apply (IH j). }
    replace (j + S k)%nat with (S j + k)%nat in Hjk by lia.
    pose proof (IH (S j) l1 l' n1 m H1 Hjk Hn1 Hm). lia.
Qed.

(** X21.  [final_labels.sort()] with fewer than 100 labels: the sorted
    labels carry the ordinals 1, 2, 3, ... in this order, so the
    categories are listed in the order of the bins. *)
Theorem categories_in_bin_order cps fmts pm pmf c bl pl :
  _finalize_bins cps fmts pm pmf = inr (c, bl, pl) ->
  (List.length (bl ++ pl) < 100)%nat ->
  Sorted string_le (sort_strings (bl ++ pl)) /\
  forall k, (k < List.length (bl ++ pl))%nat ->
    exists l, nth_error (sort_strings (bl ++ pl)) k = Some l /\ numbered (k + 1) l.
Proof.
  intros Hfin Hlt. split; [apply sort_strings_sorted|].
  destruct (finalize_bins_loop _ _ _ _ _ _ _ Hfin) as (z & _ & _ & Eb & Ep).
  destruct (label_loop_numbered pm z 0 0) as (Hnd & Hlo & Hinj).
  rewrite <- Eb, <- Ep in Hnd, Hlo, Hinj.
  set (X := (bl ++ pl)%list) in *. set (L := sort_strings X).
  set (N := List.length X) in *.
  pose proof (sort_strings_perm X) as Hperm. fold L in Hperm.
  assert (HlenL : List.length L = N) by apply (Permutation_length Hperm).
  assert (HndL : NoDup L) by apply (Permutation_NoDup (Permutation_sym Hperm) Hnd).
  assert (HinL : forall l, In l L -> In l X)
    by (intros l; apply (Permutation_in _ Hperm)).
  assert (HnumL : forall l, In l L -> exists n, numbered n l /\ (1 <= n <= N)%nat).
  { intros l Hl. destruct (Hlo l (HinL l Hl)) as (n & Hn & H1 & H2).
    exists n. split; [exact Hn | lia]. }
  assert (Hnum100 : forall l, In l L -> exists n, numbered n l /\ (n < 100)%nat).
  { intros l Hl. destruct (HnumL l Hl) as (n & Hn & Hb).
    exists n. split; [exact Hn | lia]. }
  assert (HinjL : forall l l' n, In l L -> In l' L ->
            numbered n l -> numbered n l' -> l = l').
  { intros l l' n Hl Hl'. apply Hinj; now apply HinL. }
  pose proof (sorted_ordinals_grow L (sort_strings_sorted X) HndL Hnum100 HinjL)
    as Hgrow.
  intros k Hk.
  destruct (nth_error L k) as [l|] eqn:El.
  2:{ apply nth_error_None in El. lia. }
  exists l. split; [reflexivity|].
  destruct (HnumL l (nth_error_In _ _ El)) as (n & Hn & Hb1 & Hb2).
  (* from the first label up to position k, and from there to the last *)
  destruct (nth_error L 0) as [l0|] eqn:E0.
  2:{ apply nth_error_None in E0. lia. }
  destruct (nth_error L (N - 1)) as [l9|] eqn:E9.
  2:{ apply nth_error_None in E9. lia. }
  destruct (HnumL l0 (nth_error_In _ _ E0)) as (n0 & Hn0 & Ha1 & Ha2).
  destruct (HnumL l9 (nth_error_In _ _ E9)) as (n9 & Hn9 & Hc1 & Hc2).
  pose proof (Hgrow 0%nat k l0 l n0 n E0 El Hn0 Hn) as G1.
  assert (E9' : nth_error L (k + (N - 1 - k)) = Some l9).
  { replace (k + (N - 1 - k))%nat with (N - 1)%nat by lia. exact E9. }
  pose proof (Hgrow k (N - 1 - k)%nat l l9 n n9 El E9' Hn Hn9) as G2.
  replace (k + 1)%nat with n by lia. exact Hn.
Qed.

Lemma categories_in_bin_order_witness :
  exists l,
    nth_error (sort_strings
                 (["01: 0 - 3"; "02: 3 - 5"; "04: 5 - 8"; "05: 8 - 10"]
                  ++ ["03: 5"])) 2 = Some l /\
    numbered (2 + 1) l.
Proof.
  refine (proj2 (categories_in_bin_order
                   [0; 3; 6; 8; 10] ["0"; "3"; "6"; "8"; "10"] [5] ["5"]
                   [0; 3; 5; 8; 10]
                   ["01: 0 - 3"; "02: 3 - 5"; "04: 5 - 8"; "05: 8 - 10"]
                   ["03: 5"] _ _) 2%nat _).
  - vm_compute. reflexivity.
  - cbn. lia.
  - cbn. lia.
Defined.

End LabelOrder.

(* ================================================================== *)
(** * Bucketing with the documented pd.cut: histograms.cutter *)
(* ================================================================== *)

Module Bucketing.

Import Magnitude Rounding Arrays Samples Returns GeneratorClaims PointMass Ordinals.

Lemma increasing_sorted bins : strictly_increasing bins -> Pd.increasing bins = true.
Proof.
  induction bins as [|a bins IH]; intros Hs; [reflexivity|].
  destruct bins as [|b bins']; [reflexivity|].
  change (Pd.increasing (a :: b :: bins'))
    with (Qltb a b && Pd.increasing (b :: bins')).
  apply andb_true_intro. split.
  - apply Qltb_lt. apply (sorted_above_head a (b :: bins') b Hs). now left.
  - apply IH. exact (sorted_tail _ _ Hs).
Qed.

Lemma cut_documented x bins labels :
  strictly_increasing bins ->
  S (List.length labels) = List.length bins ->
  Pd.cut_right_closed x bins labels = inr (map (cut_entry bins labels) x).
Proof.
  intros Hs Hl. unfold Pd.cut_right_closed.
  rewrite (increasing_sorted bins Hs). cbn [negb].
  replace (List.length labels =? List.length bins - 1)%nat with true
    by (symmetry; apply Nat.eqb_eq; lia).
  reflexivity.
Qed.

Lemma sorted_hd_le l a : strictly_increasing l -> occurs a l -> hd 0 l <= a.
Proof.
  intros Hs Ha. destruct l as [|b l]; [now apply InA_nil in Ha|].
  cbn [hd]. apply InA_cons in Ha as [E|Ha]; [rewrite E; lra|].
  pose proof (sorted_above_head b l a Hs Ha). lra.
Qed.

Lemma sorted_le_last l a : strictly_increasing l -> occurs a l -> a <= last l 0.
Proof.
  revert a. induction l as [|b l IH]; intros a Hs Ha; [now apply InA_nil in Ha|].
  destruct l as [|c l'].
  - cbn [last]. apply InA_cons in Ha as [E|Ha]; [rewrite E; lra|].
    now apply InA_nil in Ha.
  - change (last (b :: c :: l') 0) with (last (c :: l') 0).
    pose proof (sorted_tail _ _ Hs) as Hs'.
    apply InA_cons in Ha as [E|Ha]; [|now apply IH].
    assert (Hbc : b < c) by (apply (sorted_above_head b (c :: l') c Hs); now left).
    assert (Hc : c <= last (c :: l') 0)
      by (apply IH; [exact Hs' | left; reflexivity]).
    rewrite E. lra.
Qed.

(** A value above the first edge and up to the last one falls in exactly
    the interval the search returns. *)
Lemma bucket_finds v bins labels :
  strictly_increasing bins ->
  S (List.length labels) = List.length bins ->
  hd 0 bins < v -> v <= last bins 0 ->
  exists k a b l,
    nth_error bins k = Some a /\ nth_error bins (S k) = Some b /\
    a < v /\ v <= b /\
    nth_error labels k = Some l /\ Pd.bucket v bins labels = Some l.
Proof.
  revert labels. induction bins as [|lo bins IH]; intros labels Hs Hl Hlo Hhi.
  - discriminate.
  - destruct bins as [|hi rest].
    + cbn [hd last] in *. lra.
    + destruct labels as [|l labels']; [discriminate|].
      cbn [hd] in Hlo.
      change (Pd.bucket v (lo :: hi :: rest) (l :: labels'))
        with (if Qltb lo v && Qleb v hi then Some l
              else Pd.bucket v (hi :: rest) labels').
      destruct (Qleb v hi) eqn:E.
      * apply Qleb_le in E. exists 0%nat, lo, hi, l.
        assert (H1 : Qltb lo v = true) by now apply Qltb_lt.
        rewrite H1. cbn. repeat split; assumption.
      * apply Qleb_gt in E. rewrite andb_false_r.
        destruct (IH labels' (sorted_tail _ _ Hs)) as (k & a & b & l' & H1 & H2 & H3 & H4 & H5 & H6).
        -- cbn [List.length] in *. lia.
        -- exact E.
        -- exact Hhi.
        -- exists (S k), a, b, l'. cbn [nth_error]. repeat split; assumption.
Qed.

Lemma range_labels_length i f :
  List.length (Histograms.range_labels i f) = (List.length f - 1)%nat.
Proof.
  revert i. induction f as [|a f IH]; intros i; [reflexivity|].
  destruct f as [|b f']; [reflexivity|].
  change (Histograms.range_labels i (a :: b :: f'))
    with (range_label (i + 1) a b :: Histograms.range_labels (S i) (b :: f')).
  cbn [List.length] in *. rewrite IH. lia.
Qed.

Lemma range_labels_nth i f k a b :
  nth_error f k = Some a -> nth_error f (S k) = Some b ->
  nth_error (Histograms.range_labels i f) k = Some (range_label (i + k + 1) a b).
Proof.
  revert i k. induction f as [|a0 f IH]; intros i k Ha Hb.
  - destruct k; discriminate.
  - destruct f as [|b0 f']; [destruct k; discriminate|].
    change (Histograms.range_labels i (a0 :: b0 :: f'))
      with (range_label (i + 1) a0 b0 :: Histograms.range_labels (S i) (b0 :: f')).
    destruct k as [|k].
    + cbn in Ha, Hb. injection Ha as <-. injection Hb as <-.
      cbn [nth_error]. do 2 f_equal. lia.
    + cbn [nth_error] in *. rewrite (IH (S i) k Ha Hb). do 2 f_equal. lia.
Qed.

Lemma nth_error_hd (l : list Q) a : nth_error l 0 = Some a -> hd 0 l = a.
Proof. destruct l; [discriminate|]. cbn. congruence. Qed.

Lemma cut_entry_first b0 bins l0 labels v :
  cut_entry (b0 :: bins) (l0 :: labels) (Some v)
  = if Qeqb v b0 then Some l0 else Pd.bucket v (b0 :: bins) (l0 :: labels).
Proof. reflexivity. Qed.

Section WithLibraries.

Context {M : MathLib}.


End WithLibraries.


End Bucketing.

(* ================================================================== *)
(** * Bucketing with the documented pd.cut: binners.cutter *)
(* ================================================================== *)

Module Coverage.

Import Magnitude Rounding Arrays Samples Returns GeneratorClaims AssemblyFacts
       PointMass Labels Ordinals Bucketing Binners.

Lemma nth_0_hd (l : list Q) : nth 0 l 0 = hd 0 l.
Proof. now destruct l. Qed.

Lemma nth_pred_last (l : list Q) : nth (List.length l - 1) l 0 = last l 0.
Proof.
  induction l as [|a l IH]; [reflexivity|].
  destruct l as [|b l']; [reflexivity|].
  change (last (a :: b :: l') 0) with (last (b :: l') 0). rewrite <- IH.
  cbn [List.length]. replace (S (S (List.length l')) - 1)%nat
    with (S (S (List.length l') - 1)) by lia. reflexivity.
Qed.

(** The merged list holds the point masses and the two outer cut points,
    and nothing that was not given. *)
Lemma finalize_bins_keeps_ends cps fmts pm pmf c bl pl :
  List.length fmts = List.length cps ->
  List.length pmf = List.length pm ->
  _finalize_bins cps fmts pm pmf = inr (c, bl, pl) ->
  (forall v, occurs v pm -> occurs v c) /\
  (cps <> [] -> occurs (hd 0 cps) c /\ occurs (last cps 0) c) /\
  (forall v, occurs v c -> occurs v pm \/ occurs v cps).
Proof.
  intros Hf Hp H.
  destruct (Nat.ltb_spec 2 (List.length cps)) as [H2|H2].
  - destruct (finalize_bins_merged cps fmts pm pmf H2 Hf Hp)
      as (c' & b' & l' & E & Hocc).
    rewrite E in H. injection H as -> -> ->.
    assert (Hkeep : forall m, (m = 0 \/ m = List.length cps - 1)%nat ->
              occurs (nth m cps 0) (drop_indices (marked cps pm) cps)).
    { intros m Hm. apply drop_from_occurs. exists m. split; [lia|].
      split; [|reflexivity]. cbn [Nat.add]. intros Hin.
      pose proof (marked_bounds cps pm m H2 Hin). lia. }
    split; [|split].
    + intros v Hv. apply Hocc. now left.
    + intros _. split; apply Hocc; right.
      * rewrite <- nth_0_hd. apply Hkeep. now left.
      * rewrite <- nth_pred_last. apply Hkeep. now right.
    + intros v Hv. apply Hocc in Hv as [Hv|Hv]; [now left | right].
      apply drop_from_occurs in Hv as (m & Hm & _ & Ev).
      unfold occurs. rewrite Ev. apply In_InA; [apply Q_Setoid|].
      now apply nth_In.
  - unfold _finalize_bins in H.
    destruct (Nat.ltb_spec 2 (List.length cps)) as [|_]; [lia|].
    cbn [bind ret] in H.
    destruct (sorted_set (combine (cps ++ pm) (fmts ++ pmf))) as [|p z] eqn:Ez;
      [discriminate|].
    destruct (label_loop pm 0 0 (p :: z)) as [b l]. injection H as <- _ _.
    assert (Hocc : forall v, occurs v (map fst (p :: z))
                             <-> occurs v cps \/ occurs v pm).
    { intros v. rewrite <- Ez, sorted_set_occurs, map_fst_combine
        by (rewrite !List.length_app; congruence).
      apply occurs_app. }
    split; [|split].
    + intros v Hv. apply Hocc. now right.
    + intros Hne. split; apply Hocc; left.
      * destruct cps; [congruence|]. now left.
      * apply In_occurs. destruct cps as [|a cps]; [congruence|].
        clear. revert a. induction cps as [|b cps IH]; intros a; [now left|].
        right. apply IH.
    + intros v Hv. apply Hocc in Hv. tauto.
Qed.

Lemma adjacent_pairs_nth {A} (l : list A) k p q :
  nth_error (adjacent_pairs l) k = Some (p, q) ->
  nth_error l k = Some p /\ nth_error l (S k) = Some q.
Proof.
  revert k. induction l as [|a l IH]; intros k H; [destruct k; discriminate|].
  destruct l as [|b l']; [destruct k; discriminate|].
  change (adjacent_pairs (a :: b :: l')) with ((a, b) :: adjacent_pairs (b :: l')) in H.
  destruct k as [|k].
  - cbn in H. injection H as <- <-. now split.
  - cbn [nth_error] in H |- *. now apply IH.
Qed.

Lemma filter_no_mass col :
  filter (fun v => negb (Pd.isin [] v)) col = col.
Proof.
  induction col as [|[v|] col IH]; [reflexivity| |]; cbn; now rewrite IH.
Qed.

Lemma non_nan_In col v : In v (Pd.non_nan col) <-> In (Some v) col.
Proof.
  induction col as [|[w|] col IH]; cbn.
  - tauto.
  - rewrite IH. split; intros [E|H]; try tauto; left; congruence.
  - rewrite IH. split; [tauto|]. intros [E|H]; [discriminate | exact H].
Qed.

Lemma scatter_map (p : option Q -> bool) (g : option Q -> option string) col :
  scatter (map p col) (map g (filter p col))
  = inr (map (fun v => if p v then g v else None) col).
Proof.
  induction col as [|v col IH]; [reflexivity|].
  cbn [map filter]. destruct (p v); cbn [map scatter]; rewrite IH; reflexivity.
Qed.

Lemma bring_in_returns col pm pl i b :
  (i + List.length pm <= List.length pl)%nat -> returns (bring_in col pm pl i b).
Proof.
  revert i b. induction pm as [|v pm IH]; intros i b H; cbn [bring_in].
  - now eexists.
  - cbn [List.length] in H.
    destruct (nth_error pl i) as [l|] eqn:E.
    + apply IH. lia.
    + apply nth_error_None in E. lia.
Qed.

Lemma bring_in_length col pm pl i b b' :
  bring_in col pm pl i b = inr b' ->
  List.length b = List.length col -> List.length b' = List.length col.
Proof.
  revert i b. induction pm as [|v pm IH]; intros i b H Hl; cbn [bring_in] in H.
  - now injection H as <-.
  - destruct (nth_error pl i) as [l|]; [|discriminate].
    fold (bring_step v l col b) in H.
    apply (IH _ _ H). now apply bring_step_length.
Qed.

Section WithLibraries.

Context {M : MathLib}.

(** What [call_cutpoints] returns encloses the values it was given. *)
Lemma call_cutpoints_encloses vals max_levels kw cps :
  call_cutpoints vals max_levels kw = inr cps ->
  strictly_increasing cps /\ cps <> [] /\
  forall v, In v vals -> hd 0 cps <= v /\ v <= last cps 0.
Proof.
  unfold call_cutpoints. destruct (kw_ncuts kw); [discriminate|]. intros H.
  apply cutpoints_shape in H as (lo & hi & ep & c0 & Hlo & Hhi & _ & _ & ->).
  assert (Hsf : (1 <= 3)%Z) by lia.
  pose proof (round_cutpoints_sorted 3 (lower_bound 3 lo) c0 (upper_bound 3 hi)) as Hs.
  destruct (round_cutpoints_ends 3 lo hi c0 Hsf) as [Hlb Hub].
  split; [exact Hs|]. split.
  - pose proof (round_cutpoints_nonempty 3 (lower_bound 3 lo) c0 (upper_bound 3 hi)).
    intros E. rewrite E in H. cbn in H. lia.
  - intros v Hv.
    pose proof (sorted_hd_le _ _ Hs Hlb). pose proof (sorted_le_last _ _ Hs Hub).
    pose proof (lower_bound_le 3 lo Hsf). pose proof (upper_bound_ge 3 hi Hsf).
    pose proof (min_le _ _ Hlo v Hv). pose proof (max_ge _ _ Hhi v Hv).
    split; lra.
Qed.


(** The steps of [cutter], run forward. *)
Lemma cutter_run df x max_levels threshold sig_fig kw col
    cps fmts pmf c_final bl pl r b1 b2 z :
  Pd.loc df x = inr col ->
  let pm := _point_mass col threshold in
  let notpm := fun v => negb (Pd.isin pm v) in
  let rest := Pd.non_nan (filter notpm col) in
  (rest <> [] -> call_cutpoints rest max_levels kw = inr cps) ->
  (rest = [] -> cps = [] /\ pm <> []) ->
  mapM (fun i => human_readable_num i sig_fig) cps = inr fmts ->
  mapM (fun i => human_readable_num i sig_fig) pm = inr pmf ->
  _finalize_bins cps fmts pm pmf = inr (c_final, bl, pl) ->
  Pd.cut_right_closed (filter notpm col) c_final bl = inr r ->
  scatter (map notpm col) r = inr b1 ->
  bring_in col pm pl 0 b1 = inr b2 ->
  Pd.Categorical b2 (sort_strings (bl ++ pl)) = inr z ->
  cutter (P := pandas_documented) df x max_levels threshold sig_fig kw = inr z.
Proof.
  intros Hloc pm notpm rest Hgen Hnil Hf Hpf Hfin Hcut Hsc Hbr Hcat.
  unfold cutter. rewrite Hloc. cbn [bind]. fold pm. fold notpm. fold rest.
  assert (Hblock :
    match pm with
    | [] =>
        cps0 <- call_cutpoints (Pd.non_nan col) max_levels kw ;;
        cps_format <- mapM (fun i => human_readable_num i sig_fig) cps0 ;;
        ret (cps0, cps_format, [])
    | _ :: _ =>
        ' (cps0, cps_format) <-
          match rest with
          | [] => ret ([], [])
          | _ :: _ =>
              cps0 <- call_cutpoints rest max_levels kw ;;
              cps_format <- mapM (fun i => human_readable_num i sig_fig) cps0 ;;
              ret (cps0, cps_format)
          end ;;
        pm_format <- mapM (fun i => human_readable_num i sig_fig) pm ;;
        ret (cps0, cps_format, pm_format)
    end = inr (cps, fmts, pmf)).
  { destruct pm as [|a pm'] eqn:Epm.
    - assert (Er : rest = Pd.non_nan col).
      { unfold rest, notpm. now rewrite filter_no_mass. }
      rewrite <- Er. cbn in Hpf. injection Hpf as <-.
      destruct rest as [|r0 rest'] eqn:Erest.
      + destruct (Hnil eq_refl) as [_ Hne]. congruence.
      + rewrite (Hgen ltac:(discriminate)). cbn [bind]. rewrite Hf. reflexivity.
    - destruct rest as [|r0 rest'] eqn:Erest.
      + destruct (Hnil eq_refl) as [-> _]. cbn in Hf. injection Hf as <-.
        cbn [bind ret]. rewrite Hpf. reflexivity.
      + rewrite (Hgen ltac:(discriminate)). cbn [bind]. rewrite Hf. cbn [bind ret].
        rewrite Hpf. reflexivity. }
  destruct pm as [|a pm'] eqn:Epm.
  - rewrite Hblock. cbn [bind]. rewrite Hfin. cbn [bind pd_cut pandas_documented].
    rewrite Hcut. cbn [bind]. rewrite Hsc. cbn [bind]. rewrite Hbr. cbn [bind].
    exact Hcat.
  - rewrite Hblock. cbn [bind]. rewrite Hfin. cbn [bind pd_cut pandas_documented].
    rewrite Hcut. cbn [bind]. rewrite Hsc. cbn [bind]. rewrite Hbr. cbn [bind].
    exact Hcat.
Qed.



End WithLibraries.


End Coverage.
